(** * polixter/backend: the anime cache-or-fetch server (src/server.js)

    A shallow embedding of the three Fastify routes of [src/server.js]
    ([GET /anime/search-titles], [GET /anime/search-api], [GET /anime/name])
    and of [translateText], followed by the properties the specification
    states about them.

    Effects are explicit: a handler is a computation in the monad [M], which
    threads a [World] (the two MySQL tables and the chronological trace of
    every outbound call) and may throw; the behaviour of the outside world
    (AniList, DeepL, database faults) is read from an [Env] of oracles. *)

From Stdlib Require Import List ZArith NArith Bool Ascii String Lia FinFun.
Import ListNotations.
Local Open Scope Z_scope.

(* ================================================================== *)
(** * JavaScript values and built-ins                                   *)
(* ================================================================== *)

Module JS.

(** A JavaScript string, read the way the [u]-flagged regular expression of
    the routes reads it: as its sequence of Unicode code points. *)
Definition codepoint := N.
Definition jsstring := list codepoint.

(** A JavaScript number as the routes can tell numbers apart: [Some z] is
    the finite double of integer value [z], [None] a number that is not
    finite ([NaN], [Infinity] or [-Infinity]).  The routes only subtract,
    multiply, print and parse the numbers they get from [parseInt]: every
    value is an integer or not finite, an operation on a number that is not
    finite gives one that is not finite, and both [NaN] and the infinities
    are sent as JSON [null] and make MySQL reject [LIMIT ? OFFSET ?].  The
    zeros [0] and [-0] print alike and are one value here. *)
Definition num := option Z.

(** The Number value for the integer [z]: [z] rounded to the nearest double,
    ties to the even significand of 53 bits, and not finite from
    2^1024 - 2^970 on. *)
Definition to_double (z : Z) : num :=
  let a := Z.abs z in
  if a <? 2 ^ 53 then Some z
  else
    let e := Z.log2 a - 52 in
    let q := Z.shiftr a e in
    let r := a - Z.shiftl q e in
    let half := Z.shiftl 1 (e - 1) in
    let q' :=
      if r <? half then q
      else if half <? r then q + 1
      else if Z.even q then q else q + 1 in
    let v := Z.shiftl q' e in
    if v <? 2 ^ 1024 then Some (Z.sgn z * v) else None.

Definition num_eqb (a b : num) : bool :=
  match a, b with
  | Some x, Some y => x =? y
  | None, None => true
  | _, _ => false
  end.

(** [Number.prototype.toString] prints the fewest decimal digits that read
    back as the same double, followed by zeros.  [shortest_from m x] looks
    for that integer among the multiples of 10^m, then of 10^(m-1), ...,
    around the double [x]: the first power of ten with a multiple that
    rounds to [x] gives the fewest digits, and of two such multiples the
    nearer one is printed (the even one on a tie). *)
Fixpoint shortest_from (m : nat) (x : Z) : Z :=
  let p := 10 ^ Z.of_nat m in
  let lo := x / p * p in
  let hi := lo + p in
  let oklo := (0 <? lo) && num_eqb (to_double lo) (Some x) in
  let okhi := num_eqb (to_double hi) (Some x) in
  if oklo && okhi then
    if x - lo <? hi - x then lo
    else if hi - x <? x - lo then hi
    else if Z.even (lo / p) then lo else hi
  else if oklo then lo
  else if okhi then hi
  else match m with
       | O => x
       | S m' => shortest_from m' x
       end.

(** The integer whose decimal digits are the significant digits and the
    zeros [String(x)] prints for the double [x >= 0]; an integer below 2^53
    prints its own digits. *)
Definition printed (x : Z) : Z :=
  if x <? 2 ^ 53 then x else shortest_from (Z.to_nat (Z.log2 x)) x.

(** The first decimal digit of [v > 0]. *)
Fixpoint leading (fuel : nat) (v : Z) : Z :=
  match fuel with
  | O => v
  | S f => if v <? 10 then v else leading f (v / 10)
  end.

(** [parseInt(x)] for a number [x], which is first converted to a string.
    [NaN] and [Infinity] have no digit.  A number below 10^21 prints all
    its digits and zeros, and reads back.  From 10^21 on the string is in
    exponent notation, [d.ddde+NN], and [parseInt] stops after the first
    digit. *)
Definition parseInt_num (x : num) : num :=
  match x with
  | None => None
  | Some z =>
      let v := printed (Z.abs z) in
      if v <? 10 ^ 21 then to_double (Z.sgn z * v)
      else Some (Z.sgn z * leading (Z.to_nat (Z.log2 v)) v)
  end.

(** String literals of the source file are UTF-8 text; [lit] decodes the
    bytes of a literal into its code points. *)
Fixpoint utf8_decode (bs : list N) : jsstring :=
  match bs with
  | [] => []
  | b :: r =>
      if (b <? 128)%N then b :: utf8_decode r
      else if (b <? 224)%N then
        match r with
        | c1 :: r' => ((b - 192) * 64 + (c1 - 128))%N :: utf8_decode r'
        | _ => []
        end
      else if (b <? 240)%N then
        match r with
        | c1 :: c2 :: r' =>
            ((b - 224) * 4096 + (c1 - 128) * 64 + (c2 - 128))%N
              :: utf8_decode r'
        | _ => []
        end
      else
        match r with
        | c1 :: c2 :: c3 :: r' =>
            ((b - 240) * 262144 + (c1 - 128) * 4096
             + (c2 - 128) * 64 + (c3 - 128))%N :: utf8_decode r'
        | _ => []
        end
  end.

Definition lit (s : string) : jsstring :=
  utf8_decode (map N_of_ascii (list_ascii_of_string s)).

(** The class [\s] of a regular expression, which is also the set of
    characters [String.prototype.trim] strips (WhiteSpace and
    LineTerminator): TAB, LF, VT, FF, CR, SP, NBSP, U+1680, U+2000..U+200A,
    U+2028, U+2029, U+202F, U+205F, U+3000 and U+FEFF. *)
Definition is_space (c : codepoint) : bool :=
  ((9 <=? c) && (c <=? 13) || (c =? 32) || (c =? 160) || (c =? 5760)
   || (8192 <=? c) && (c <=? 8202) || (c =? 8232) || (c =? 8233)
   || (c =? 8239) || (c =? 8287) || (c =? 12288) || (c =? 65279))%N.

Fixpoint trimStart (s : jsstring) : jsstring :=
  match s with
  | c :: r => if is_space c then trimStart r else s
  | [] => []
  end.

Definition trimEnd (s : jsstring) : jsstring := rev (trimStart (rev s)).

(** [s.trim()] *)
Definition trim (s : jsstring) : jsstring := trimEnd (trimStart s).

(** Truthiness of an optional string: [null], [undefined] and [''] are
    falsy. *)
Definition truthy (v : option jsstring) : bool :=
  match v with
  | Some (_ :: _) => true
  | _ => false
  end.

(** [v || null] *)
Definition or_null (v : option jsstring) : option jsstring :=
  if truthy v then v else None.

(** [v || d] for a string literal [d] *)
Definition or_else (v : option jsstring) (d : jsstring) : jsstring :=
  match v with
  | Some (c :: r) => c :: r
  | _ => d
  end.

(** [s || d] for a string [s] *)
Definition str_or (s d : jsstring) : jsstring :=
  match s with
  | [] => d
  | _ => s
  end.

(** [n || 0] for an optional integer: [null] and [0] are falsy. *)
Definition num_or_0 (n : option Z) : Z :=
  match n with
  | Some v => v
  | None => 0
  end.

(** [Array.prototype.join]: [null] and [undefined] elements print as the
    empty string. *)
Fixpoint join (sep : jsstring) (l : list (option jsstring)) : jsstring :=
  match l with
  | [] => []
  | [x] => or_else x []
  | x :: r => or_else x [] ++ sep ++ join sep r
  end.

(** Value of a decimal or hexadecimal digit, if [c] is one. *)
Definition digit_val (radix : N) (c : codepoint) : option N :=
  let d :=
    if ((48 <=? c) && (c <=? 57))%N then Some (c - 48)%N
    else if ((97 <=? c) && (c <=? 122))%N then Some (c - 87)%N
    else if ((65 <=? c) && (c <=? 90))%N then Some (c - 55)%N
    else None in
  match d with
  | Some v => if (v <? radix)%N then Some v else None
  | None => None
  end.

(** The longest prefix of digits, accumulated left to right; [None] when
    the prefix is empty. *)
Fixpoint digits (radix : N) (acc : option N) (s : jsstring) : option N :=
  match s with
  | [] => acc
  | c :: r =>
      match digit_val radix c with
      | Some v =>
          digits radix
            (Some (match acc with Some a => a * radix + v | None => v end)%N)
            r
      | None => acc
      end
  end.

(** [parseInt(s)] without a radix argument: leading white space skipped,
    an optional sign, an optional [0x]/[0X] prefix selecting radix 16, then
    the longest run of digits; [NaN] when there is none, and otherwise the
    Number value for the integer the digits write. *)
Definition parseInt_str (s : jsstring) : num :=
  let s := trimStart s in
  let '(sign, s) :=
    match s with
    | 45%N :: r => (-1, r)
    | 43%N :: r => (1, r)
    | _ => (1, s)
    end in
  let '(radix, s) :=
    match s with
    | 48%N :: 120%N :: r => (16%N, r)
    | 48%N :: 88%N :: r => (16%N, r)
    | _ => (10%N, s)
    end in
  match digits radix None s with
  | Some n => to_double (sign * Z.of_N n)
  | None => None
  end.

(** A parameter of [req.query]: absent, a string, or (when the key is
    repeated in the URL) an array of strings. *)
Inductive qparam :=
| QMissing
| QStr (s : jsstring)
| QArr (l : list jsstring).

(** A destructured parameter after its default has been applied
    ([const { page = 1 } = req.query]). *)
Inductive qvalue :=
| VNum (n : Z)
| VStr (s : jsstring)
| VArr (l : list jsstring).

Definition with_default (p : qparam) (d : Z) : qvalue :=
  match p with
  | QMissing => VNum d
  | QStr s => VStr s
  | QArr l => VArr l
  end.

(** [parseInt(v)]: the argument is first converted to a string. *)
Definition parseInt (v : qvalue) : num :=
  match v with
  | VNum n => parseInt_num (to_double n)
  | VStr s => parseInt_str s
  | VArr l => parseInt_str (join [44%N] (map Some l))
  end.

(** [a - b] and [a * b]: the exact result rounded to a double.  A number
    that is not finite gives a number that is not finite ([Infinity * 0]
    is [NaN]). *)
Definition num_sub (a b : num) : num :=
  match a, b with
  | Some x, Some y => to_double (x - y)
  | _, _ => None
  end.

Definition num_mul (a b : num) : num :=
  match a, b with
  | Some x, Some y => to_double (x * y)
  | _, _ => None
  end.

End JS.
Import JS.

(* ================================================================== *)
(** * Data model                                                        *)
(* ================================================================== *)

(** ** The AniList payload, as selected by [gqlQuery] and
    [gqlQueryWithEpisodes]

    A field is optional exactly where the routes guard it with [?.] or
    [||]; the objects they dereference unguarded ([anime.title], the
    entries of [streamingEpisodes]) are records. *)

Module MediaTitle.
Record t := { romaji : option jsstring;
              english : option jsstring;
              native : option jsstring }.
End MediaTitle.

Module StreamingEpisode.
Record t := { title : option jsstring;
              thumbnail : option jsstring }.
End StreamingEpisode.

Module CoverImage.
Record t := { extraLarge : option jsstring }.
End CoverImage.

Module Media.
Record t := { id : Z;
              title : MediaTitle.t;
              description : option jsstring;
              genres : option (list (option jsstring));
              episodes : option Z;
              coverImage : option CoverImage.t;
              bannerImage : option jsstring;
              streamingEpisodes : option (list StreamingEpisode.t) }.
End Media.

(** ** The two MySQL tables, by the columns the statements name *)

Module Animes.
Record row := { id : Z;
                title_romaji : option jsstring;
                title_english : option jsstring;
                title_native : option jsstring;
                description : option jsstring;
                genres : option jsstring;
                cover_image : option jsstring;
                banner_image : option jsstring;
                episodes : option Z }.
End Animes.

Module AnimeEpisodes.
Record row := { anime_id : Z;
                episode_number : Z;
                title_romaji : option jsstring;
                title_translated : option jsstring;
                thumbnail_image : option jsstring }.
End AnimeEpisodes.

(** A table is the list of its rows in storage order. *)
Record Db := { animes : list Animes.row;
               anime_episodes : list AnimeEpisodes.row }.

(** ** Rows and objects the routes build *)

(** [id, title_romaji, title_english, title_native]: the projection of
    [/anime/search-titles], the value tuples and the summaries of
    [/anime/search-api]. *)
Record Titles := { t_id : Z;
                   t_title_romaji : option jsstring;
                   t_title_english : option jsstring;
                   t_title_native : option jsstring }.

(** The projection of the episode query of [/anime/name]. *)
Record EpisodeView := { v_episode_number : Z;
                        v_title_romaji : option jsstring;
                        v_title_translated : option jsstring;
                        v_thumbnail_image : option jsstring }.

(** The [anime] and [episodes] objects of the [source: 'api'] answer. *)
Record ApiAnime := { r_id : Z;
                     r_title : MediaTitle.t;
                     r_description : jsstring;
                     r_genres : option (list (option jsstring));
                     r_episodes : option Z;
                     r_coverImage : option jsstring;
                     r_bannerImage : option jsstring }.

Record ApiEpisode := { r_number : Z;
                       r_title_romaji : option jsstring;
                       r_title_translated : option jsstring;
                       r_thumbnail : option jsstring }.

Inductive NameResult :=
| DbResult (anime : Animes.row) (episodes : list EpisodeView)
| ApiResult (anime : ApiAnime) (episodes : list ApiEpisode).

Inductive Source := database | api.

Inductive Body :=
| BodyError (error : jsstring)
| BodyTitles (source : Source) (results : list Titles)
             (message : option jsstring)
| BodyName (source : Source) (results : list NameResult)
           (page limit : num).

Record Response := { status : Z; body : Body }.

(** [req.query] *)
Record Request := { query : qparam;
                    page : qparam;
                    perPage : qparam;
                    limit : qparam }.

(* ================================================================== *)
(** * Effects                                                           *)
(* ================================================================== *)

(** Statements sent through [pool.query], with their bound values. The
    three [LIKE] patterns of a search are the same string
    [%sanitizedQuery%]; the statement records [sanitizedQuery]. *)
Inductive DbOp :=
| SelectTitles (sanitizedQuery : jsstring)
| SelectAnimes (sanitizedQuery : jsstring) (limit offset : num)
| SelectEpisodes (anime_id : Z)
| UpsertTitles (animeValues : list Titles)
| UpsertEpisodes (episodeValues : list AnimeEpisodes.row)
| UpsertAnime (values : Animes.row).

(** Every call that leaves the process. *)
Inductive Event :=
| PoolQuery (op : DbOp)
| GraphqlPage (search : jsstring) (page perPage : num)
| GraphqlMedia (search : jsstring)
| Fetch (text target_lang : jsstring).

Definition is_http (e : Event) : bool :=
  match e with
  | PoolQuery _ => false
  | _ => true
  end.

(** What [await response.json()] of DeepL yields. *)
Inductive JsonBody :=
| JsonInvalid                                  (* [json()] rejects *)
| JsonNoTranslations                           (* [data.translations] is not an array *)
| JsonTranslations (l : list (option jsstring)). (* the [text] of each entry *)

Inductive FetchOutcome :=
| FetchRejected                                (* transport failure *)
| FetchResponse (ok : bool) (json : JsonBody).

(** The outside world: which database statements fail, and what AniList
    and DeepL answer ([None]: the request rejects). *)
Record Env := {
  db_fault : DbOp -> Db -> bool;
  anilist_page : jsstring -> num -> num -> option (option (list Media.t));
  anilist_media : jsstring -> option (option Media.t);
  deepl : jsstring -> jsstring -> FetchOutcome }.

Record World := { db : Db; trace : list Event }.

Inductive result (A : Type) :=
| Ok (a : A)
| Throw.
Arguments Ok {A} a.
Arguments Throw {A}.

Definition M (A : Type) : Type := World -> result A * World.

Definition ret {A} (a : A) : M A := fun w => (Ok a, w).

Definition bind {A B} (m : M A) (k : A -> M B) : M B :=
  fun w =>
    match m w with
    | (Ok a, w') => k a w'
    | (Throw, w') => (Throw, w')
    end.

Definition throw {A} : M A := fun w => (Throw, w).

(** [try { m } catch (error) { h }] *)
Definition try_catch {A} (m h : M A) : M A :=
  fun w =>
    match m w with
    | (Ok a, w') => (Ok a, w')
    | (Throw, w') => h w'
    end.

Definition emit (e : Event) : M unit :=
  fun w => (Ok tt, {| db := db w; trace := trace w ++ [e] |}).

Declare Scope m_scope.
Delimit Scope m_scope with M.
Notation "x <- m ;; k" := (bind m (fun x => k))
  (at level 61, m at next level, right associativity) : m_scope.
Notation "m ;;; k" := (bind m (fun _ => k))
  (at level 61, right associativity) : m_scope.

(** [await Promise.all(l.map(async x => f x))]: every task is started, in
    listing order, whether or not an earlier one rejects; the whole rejects
    when one does. *)
Fixpoint promise_all {A B} (f : A -> M B) (l : list A) : M (list B) :=
  fun w =>
    match l with
    | [] => (Ok [], w)
    | x :: r =>
        let (rx, w1) := f x w in
        let (rr, w2) := promise_all f r w1 in
        (match rx, rr with
         | Ok b, Ok bs => Ok (b :: bs)
         | _, _ => Throw
         end, w2)
    end.

(** [l.map((x, index) => f index x)] *)
Fixpoint mapi_from {A B} (i : nat) (f : nat -> A -> B) (l : list A)
  : list B :=
  match l with
  | [] => []
  | x :: r => f i x :: mapi_from (S i) f r
  end.

Definition mapi {A B} (f : nat -> A -> B) (l : list A) : list B :=
  mapi_from 0 f l.

(* ================================================================== *)
(** * A sample deployment                                               *)
(* ================================================================== *)

(** Concrete stand-ins for what the server takes from outside, on which
    the routes can be run: character classes for Basic Latin and Latin-1,
    a tag stripper, exact substring search, one anime of AniList and a few
    ways the outside world can behave. *)
Module Sample.

Definition isL (c : codepoint) : bool :=
  ((65 <=? c) && (c <=? 90) || (97 <=? c) && (c <=? 122)
   || (192 <=? c) && (c <=? 255) && negb (c =? 215) && negb (c =? 247))%N.

Definition isN (c : codepoint) : bool := ((48 <=? c) && (c <=? 57))%N.

(** Drops everything from a [<] to the next [>]. *)
Fixpoint strip (in_tag : bool) (s : jsstring) : jsstring :=
  match s with
  | [] => []
  | c :: r =>
      if (c =? 60)%N then strip true r
      else if (c =? 62)%N then (if in_tag then strip false r else c :: strip false r)
      else if in_tag then strip true r
      else c :: strip false r
  end.

Definition sanitizeHtml (s : jsstring) : jsstring := strip false s.

Fixpoint starts_with (q v : jsstring) : bool :=
  match q, v with
  | [], _ => true
  | a :: q', b :: v' => (a =? b)%N && starts_with q' v'
  | _ :: _, [] => false
  end.

Fixpoint contains (q v : jsstring) : bool :=
  starts_with q v
  || match v with
     | [] => false
     | _ :: v' => contains q v'
     end.

Definition column_default : Animes.row :=
  {| Animes.id := 0;
     Animes.title_romaji := None;
     Animes.title_english := None;
     Animes.title_native := None;
     Animes.description := None;
     Animes.genres := None;
     Animes.cover_image := None;
     Animes.banner_image := None;
     Animes.episodes := None |}.

Definition naruto : Media.t :=
  {| Media.id := 20;
     Media.title :=
       {| MediaTitle.romaji := Some (lit "NARUTO");
          MediaTitle.english := None;
          MediaTitle.native := None |};
     Media.description := Some (lit "<i>Ninja</i> story");
     Media.genres := Some [Some (lit "Action"); Some (lit "Comedy")];
     Media.episodes := Some 220;
     Media.coverImage := Some {| CoverImage.extraLarge := Some (lit "c.png") |};
     Media.bannerImage := None;
     Media.streamingEpisodes :=
       Some [ {| StreamingEpisode.title := Some (lit "Enter Naruto");
                 StreamingEpisode.thumbnail := Some (lit "1.png") |};
              {| StreamingEpisode.title := None;
                 StreamingEpisode.thumbnail := None |} ] |}.

(** DeepL answers with the text itself. *)
Definition echo (text target_lang : jsstring) : FetchOutcome :=
  FetchResponse true (JsonTranslations [Some text]).

(** DeepL answers 503. *)
Definition unavailable (text target_lang : jsstring) : FetchOutcome :=
  FetchResponse false JsonInvalid.

Definition no_fault (op : DbOp) (d : Db) : bool := false.

Definition episodes_fault (op : DbOp) (d : Db) : bool :=
  match op with
  | UpsertEpisodes _ => true
  | _ => false
  end.

Definition world (fault : DbOp -> Db -> bool)
    (deepl : jsstring -> jsstring -> FetchOutcome) : Env :=
  {| db_fault := fault;
     anilist_page := fun _ _ _ => Some (Some [naruto]);
     anilist_media := fun _ => Some (Some naruto);
     deepl := deepl |}.

Definition empty : World :=
  {| db := {| animes := []; anime_episodes := [] |}; trace := [] |}.

(** [?query=Naruto!&page=5&limit=7&perPage=3] *)
Definition request : Request :=
  {| query := QStr (lit "Naruto!");
     page := QStr (lit "5");
     perPage := QStr (lit "3");
     limit := QStr (lit "7") |}.

(** [?page=5] *)
Definition no_query : Request :=
  {| query := QMissing;
     page := QStr (lit "5");
     perPage := QMissing;
     limit := QMissing |}.

(** A row of [animes] with every column set, and a second submission of
    the same identifier. *)
Definition row1 : Animes.row :=
  {| Animes.id := 20;
     Animes.title_romaji := Some (lit "Naruto");
     Animes.title_english := Some (lit "N/A");
     Animes.title_native := None;
     Animes.description := Some (lit "old");
     Animes.genres := Some (lit "Action");
     Animes.cover_image := Some (lit "c.png");
     Animes.banner_image := None;
     Animes.episodes := Some 220 |}.

Definition row2 : Animes.row :=
  {| Animes.id := 20;
     Animes.title_romaji := Some (lit "NARUTO");
     Animes.title_english := Some (lit "Naruto");
     Animes.title_native := None;
     Animes.description := Some (lit "new");
     Animes.genres := Some (lit "Action, Comedy");
     Animes.cover_image := None;
     Animes.banner_image := Some (lit "b.png");
     Animes.episodes := Some 221 |}.

(** A database whose [animes] holds [row1]; its titles do not contain
    [Bleach]. *)
Definition cached : World :=
  {| db := {| animes := [row1]; anime_episodes := [] |}; trace := [] |}.

Definition bleach : Request :=
  {| query := QStr (lit "Bleach");
     page := QMissing;
     perPage := QMissing;
     limit := QMissing |}.

(** [?query=Naruto] and [?query=Naruto&limit=abc] *)
Definition first_page : Request :=
  {| query := QStr (lit "Naruto");
     page := QMissing;
     perPage := QMissing;
     limit := QMissing |}.

Definition bad_limit : Request :=
  {| query := QStr (lit "Naruto");
     page := QMissing;
     perPage := QMissing;
     limit := QStr (lit "abc") |}.

End Sample.

(* ================================================================== *)
(** * The earlier server kept in [src/db.js]: data and effects          *)
(* ================================================================== *)

(** After the pool, [src/db.js] holds an earlier version of the server:
    one route, [GET /search], and a [translateText] without [try]/[catch].
    Its statements and answers differ from those of [src/server.js], so it
    has its own events, world and answers. *)

Inductive SearchOp :=
| SelectLike (query : jsstring)
| InsertAnime (values : Animes.row).

Inductive SearchEvent :=
| SearchQuery (op : SearchOp)
| SearchGraphql (search : qparam)
| SearchFetch (text target_lang : jsstring).

Record SearchWorld := { s_db : Db; s_trace : list SearchEvent }.

(** The outside world of the earlier route: which statements fail, what
    AniList answers for the [search] variable it is given (the raw [query],
    a string or an array) and what DeepL answers. *)
Record SearchEnv := {
  s_fault : SearchOp -> Db -> bool;
  s_anilist : qparam -> option (option Media.t);
  s_deepl : jsstring -> jsstring -> FetchOutcome }.

Record SearchResult := { s_id : Z;
                         s_title : MediaTitle.t;
                         s_description : option jsstring;
                         s_genres : list (option jsstring);
                         s_coverImage : option jsstring;
                         s_bannerImage : option jsstring }.

Inductive SearchBody :=
| SearchError (error : jsstring)
| SearchRows (results : list Animes.row)       (* [source: 'database'] *)
| SearchApi (results : list SearchResult).     (* [source: 'api'] *)

Record SearchResponse := { s_status : Z; s_body : SearchBody }.

(* ================================================================== *)
(** * Further sample cases                                              *)
(* ================================================================== *)

(** More ways the outside world can behave, more requests, and a sample
    deployment of the earlier server. *)
Module Cases.

(** An anime without streaming episodes. *)
Definition bleach : Media.t :=
  {| Media.id := 269;
     Media.title :=
       {| MediaTitle.romaji := Some (lit "BLEACH");
          MediaTitle.english := Some (lit "Bleach");
          MediaTitle.native := None |};
     Media.description := None;
     Media.genres := None;
     Media.episodes := None;
     Media.coverImage := None;
     Media.bannerImage := None;
     Media.streamingEpisodes := None |}.

(** AniList finds nothing; AniList is down; AniList answers [bleach]. *)
Definition nothing (fault : DbOp -> Db -> bool) : Env :=
  {| db_fault := fault;
     anilist_page := fun _ _ _ => Some (Some []);
     anilist_media := fun _ => Some None;
     deepl := Sample.echo |}.

Definition anilist_down (fault : DbOp -> Db -> bool) : Env :=
  {| db_fault := fault;
     anilist_page := fun _ _ _ => None;
     anilist_media := fun _ => None;
     deepl := Sample.echo |}.

Definition bleach_world : Env :=
  {| db_fault := Sample.no_fault;
     anilist_page := fun _ _ _ => Some (Some [bleach]);
     anilist_media := fun _ => Some (Some bleach);
     deepl := Sample.echo |}.

(** Statements that fail. *)
Definition titles_fault (op : DbOp) (d : Db) : bool :=
  match op with
  | UpsertTitles _ => true
  | SelectTitles _ => true
  | _ => false
  end.

Definition select_episodes_fault (op : DbOp) (d : Db) : bool :=
  match op with
  | SelectEpisodes _ => true
  | _ => false
  end.

(** [?query=Naruto&page=0], [?query=Naruto&limit=0], [?query=!!!] and
    [?query=NARUTO] *)
Definition page_zero : Request :=
  {| query := QStr (lit "Naruto");
     page := QStr (lit "0");
     perPage := QMissing;
     limit := QMissing |}.

Definition limit_zero : Request :=
  {| query := QStr (lit "Naruto");
     page := QMissing;
     perPage := QMissing;
     limit := QStr (lit "0") |}.

(** [?query=Naruto&page=1&limit=7], [?query=Naruto&page=abc&limit=0],
    [?query=Naruto&limit=9007199254740993] and
    [?query=Naruto&page=100000000000&limit=100000000000] *)
Definition paged : Request :=
  {| query := QStr (lit "Naruto");
     page := QStr (lit "1");
     perPage := QMissing;
     limit := QStr (lit "7") |}.

Definition limit_zero_page_abc : Request :=
  {| query := QStr (lit "Naruto");
     page := QStr (lit "abc");
     perPage := QMissing;
     limit := QStr (lit "0") |}.

Definition big_limit : Request :=
  {| query := QStr (lit "Naruto");
     page := QMissing;
     perPage := QMissing;
     limit := QStr (lit "9007199254740993") |}.

Definition far_page : Request :=
  {| query := QStr (lit "Naruto");
     page := QStr (lit "100000000000");
     perPage := QMissing;
     limit := QStr (lit "100000000000") |}.

Definition punctuation : Request :=
  {| query := QStr (lit "!!!");
     page := QMissing;
     perPage := QMissing;
     limit := QMissing |}.

Definition upper : Request :=
  {| query := QStr (lit "NARUTO");
     page := QMissing;
     perPage := QMissing;
     limit := QMissing |}.

(** The earlier server: DeepL echoing the text, DeepL down, and a
    database holding [Sample.row1]. *)
Definition search_world (deepl : jsstring -> jsstring -> FetchOutcome)
  : SearchEnv :=
  {| s_fault := fun _ _ => false;
     s_anilist := fun _ => Some (Some Sample.naruto);
     s_deepl := deepl |}.

Definition search_nothing : SearchEnv :=
  {| s_fault := fun _ _ => false;
     s_anilist := fun _ => Some None;
     s_deepl := Sample.echo |}.

Definition rejected (text target_lang : jsstring) : FetchOutcome :=
  FetchRejected.

Definition search_empty : SearchWorld :=
  {| s_db := {| animes := []; anime_episodes := [] |}; s_trace := [] |}.

Definition search_cached : SearchWorld :=
  {| s_db := {| animes := [Sample.row1]; anime_episodes := [] |};
     s_trace := [] |}.

End Cases.

(* ================================================================== *)
(** * The server                                                        *)
(* ================================================================== *)

Section Server.

(** The Unicode general categories [\p{L}] and [\p{N}] (tables of the
    JavaScript engine). *)
Variable isL : codepoint -> bool.
Variable isN : codepoint -> bool.

(** [sanitizeHtml(s, { allowedTags: [], allowedAttributes: {} })] of the
    sanitize-html package. *)
Variable sanitizeHtml : jsstring -> jsstring.

(** [column LIKE '%q%'] on a non-NULL column, for a [q] without wildcard:
    whether the value contains [q] under the collation of the column. *)
Variable sql_contains : jsstring -> jsstring -> bool.

(** The DEFAULT of every column of [animes] (the table definitions are
    not in the source), taken by the columns an [INSERT] does not list. *)
Variable column_default : Animes.row.

(** Modelled from the spec: the table definitions are not in the source;
    the persisted schema of the specification, [animes(id PK, ...)], gives
    the duplicate key of [INSERT INTO animes ... ON DUPLICATE KEY UPDATE]. *)
Definition animes_key (x : Animes.row) : Z := Animes.id x.

(** Modelled from the spec: the table definitions are not in the source;
    [anime_episodes(..., UNIQUE(anime_id, episode_number))] gives the
    duplicate key of [INSERT INTO anime_episodes ... ON DUPLICATE KEY UPDATE]. *)
Definition anime_episodes_key (x : AnimeEpisodes.row) : Z * Z :=
  (AnimeEpisodes.anime_id x, AnimeEpisodes.episode_number x).

Definition key_eqb (a b : Z * Z) : bool :=
  (fst a =? fst b) && (snd a =? snd b).

(** ** The SQL statements *)

(** [col LIKE ?]; [NULL LIKE ?] is not true. *)
Definition like (col : option jsstring) (q : jsstring) : bool :=
  match col with
  | Some v => sql_contains q v
  | None => false
  end.

(** [WHERE title_romaji LIKE ? OR title_english LIKE ? OR title_native LIKE ?] *)
Definition where_titles_like (q : jsstring) (x : Animes.row) : bool :=
  like (Animes.title_romaji x) q || like (Animes.title_english x) q
  || like (Animes.title_native x) q.

Definition titles_of_row (x : Animes.row) : Titles :=
  {| t_id := Animes.id x;
     t_title_romaji := Animes.title_romaji x;
     t_title_english := Animes.title_english x;
     t_title_native := Animes.title_native x |}.

(** [SELECT id, title_romaji, title_english, title_native FROM animes WHERE ...] *)
Definition sql_select_titles (q : jsstring) (d : Db) : list Titles :=
  map titles_of_row (filter (where_titles_like q) (animes d)).

(** [SELECT * FROM animes WHERE ... LIMIT ? OFFSET ?].  mysql2 writes each
    bound into the statement as [String] prints it, and MySQL takes an
    unsigned integer literal of at most 64 bits there: the statement is
    rejected when a bound is not finite, negative, or printed as an
    integer beyond 2^64 - 1 or in exponent notation. *)
Definition sql_select_animes (q : jsstring) (limit offset : num) (d : Db)
  : option (list Animes.row) :=
  match limit, offset with
  | Some l, Some o =>
      if (l <? 0) || (o <? 0) then None
      else if (2 ^ 64 <=? printed l) || (2 ^ 64 <=? printed o) then None
      else Some (firstn (Z.to_nat (printed l))
                   (skipn (Z.to_nat (printed o))
                      (filter (where_titles_like q) (animes d))))
  | _, _ => None
  end.

Definition view_of_row (x : AnimeEpisodes.row) : EpisodeView :=
  {| v_episode_number := AnimeEpisodes.episode_number x;
     v_title_romaji := AnimeEpisodes.title_romaji x;
     v_title_translated := AnimeEpisodes.title_translated x;
     v_thumbnail_image := AnimeEpisodes.thumbnail_image x |}.

(** [SELECT episode_number, title_romaji, title_translated, thumbnail_image
     FROM anime_episodes WHERE anime_id = ?] *)
Definition sql_select_episodes (anime_id : Z) (d : Db) : list EpisodeView :=
  map view_of_row
    (filter (fun x => AnimeEpisodes.anime_id x =? anime_id)
       (anime_episodes d)).

(** [INSERT INTO animes (id, title_romaji, title_english, title_native)
     VALUES v ON DUPLICATE KEY UPDATE title_romaji = VALUES(title_romaji),
     title_english = VALUES(title_english),
     title_native = VALUES(title_native)], one value tuple. *)
Fixpoint insert_titles (v : Titles) (t : list Animes.row)
  : list Animes.row :=
  match t with
  | [] =>
      [ {| Animes.id := t_id v;
           Animes.title_romaji := t_title_romaji v;
           Animes.title_english := t_title_english v;
           Animes.title_native := t_title_native v;
           Animes.description := Animes.description column_default;
           Animes.genres := Animes.genres column_default;
           Animes.cover_image := Animes.cover_image column_default;
           Animes.banner_image := Animes.banner_image column_default;
           Animes.episodes := Animes.episodes column_default |} ]
  | x :: t' =>
      if animes_key x =? t_id v then
        {| Animes.id := Animes.id x;
           Animes.title_romaji := t_title_romaji v;
           Animes.title_english := t_title_english v;
           Animes.title_native := t_title_native v;
           Animes.description := Animes.description x;
           Animes.genres := Animes.genres x;
           Animes.cover_image := Animes.cover_image x;
           Animes.banner_image := Animes.banner_image x;
           Animes.episodes := Animes.episodes x |} :: t'
      else x :: insert_titles v t'
  end.

(** The same statement with [VALUES ?] bound to a list of tuples: the
    tuples are inserted one after the other. *)
Definition sql_upsert_titles (vs : list Titles) (d : Db) : Db :=
  {| animes := fold_left (fun t v => insert_titles v t) vs (animes d);
     anime_episodes := anime_episodes d |}.

(** [INSERT INTO anime_episodes (anime_id, episode_number, title_romaji,
     title_translated, thumbnail_image) VALUES v ON DUPLICATE KEY UPDATE
     title_romaji = ..., title_translated = ..., thumbnail_image = ...] *)
Fixpoint insert_episode (v : AnimeEpisodes.row) (t : list AnimeEpisodes.row)
  : list AnimeEpisodes.row :=
  match t with
  | [] => [v]
  | x :: t' =>
      if key_eqb (anime_episodes_key x) (anime_episodes_key v) then
        {| AnimeEpisodes.anime_id := AnimeEpisodes.anime_id x;
           AnimeEpisodes.episode_number := AnimeEpisodes.episode_number x;
           AnimeEpisodes.title_romaji := AnimeEpisodes.title_romaji v;
           AnimeEpisodes.title_translated := AnimeEpisodes.title_translated v;
           AnimeEpisodes.thumbnail_image := AnimeEpisodes.thumbnail_image v |}
          :: t'
      else x :: insert_episode v t'
  end.

Definition sql_upsert_episodes (vs : list AnimeEpisodes.row) (d : Db) : Db :=
  {| animes := animes d;
     anime_episodes :=
       fold_left (fun t v => insert_episode v t) vs (anime_episodes d) |}.

(** [INSERT INTO animes (id, title_romaji, title_english, title_native,
     description, genres, cover_image, banner_image, episodes)
     VALUES (?, ?, ?, ?, ?, ?, ?, ?, ?) ON DUPLICATE KEY UPDATE] every
    column but [id] [= VALUES(column)]. *)
Fixpoint insert_anime (v : Animes.row) (t : list Animes.row)
  : list Animes.row :=
  match t with
  | [] => [v]
  | x :: t' =>
      if animes_key x =? animes_key v then
        {| Animes.id := Animes.id x;
           Animes.title_romaji := Animes.title_romaji v;
           Animes.title_english := Animes.title_english v;
           Animes.title_native := Animes.title_native v;
           Animes.description := Animes.description v;
           Animes.genres := Animes.genres v;
           Animes.cover_image := Animes.cover_image v;
           Animes.banner_image := Animes.banner_image v;
           Animes.episodes := Animes.episodes v |} :: t'
      else x :: insert_anime v t'
  end.

Definition sql_upsert_anime (v : Animes.row) (d : Db) : Db :=
  {| animes := insert_anime v (animes d);
     anime_episodes := anime_episodes d |}.

(** ** Outbound calls *)

Variable env : Env.

(** [await pool.query(op)]: the statement is sent, then either fails
    (leaving the tables as they were) or runs. *)
Definition pool_query {A} (op : DbOp) (exec : Db -> option (A * Db)) : M A :=
  (emit (PoolQuery op) ;;;
   fun w =>
     if db_fault env op (db w) then (Throw, w)
     else match exec (db w) with
          | Some (a, d') => (Ok a, {| db := d'; trace := trace w |})
          | None => (Throw, w)
          end)%M.

Definition select_titles (q : jsstring) : M (list Titles) :=
  pool_query (SelectTitles q) (fun d => Some (sql_select_titles q d, d)).

Definition select_animes (q : jsstring) (limit offset : num)
  : M (list Animes.row) :=
  pool_query (SelectAnimes q limit offset)
    (fun d => match sql_select_animes q limit offset d with
              | Some rows => Some (rows, d)
              | None => None
              end).

Definition select_episodes (anime_id : Z) : M (list EpisodeView) :=
  pool_query (SelectEpisodes anime_id)
    (fun d => Some (sql_select_episodes anime_id d, d)).

Definition upsert_titles (vs : list Titles) : M unit :=
  pool_query (UpsertTitles vs) (fun d => Some (tt, sql_upsert_titles vs d)).

Definition upsert_episodes (vs : list AnimeEpisodes.row) : M unit :=
  pool_query (UpsertEpisodes vs)
    (fun d => Some (tt, sql_upsert_episodes vs d)).

Definition upsert_anime (v : Animes.row) : M unit :=
  pool_query (UpsertAnime v) (fun d => Some (tt, sql_upsert_anime v d)).

(** [await graphqlClient.request(gqlQuery, variables)], then
    [response.Page.media] *)
Definition request_page (search : jsstring) (page perPage : num)
  : M (option (list Media.t)) :=
  (emit (GraphqlPage search page perPage) ;;;
   match anilist_page env search page perPage with
   | Some r => ret r
   | None => throw
   end)%M.

(** [await graphqlClient.request(gqlQueryWithEpisodes, variables)], then
    [response.Media] *)
Definition request_media (search : jsstring) : M (option Media.t) :=
  (emit (GraphqlMedia search) ;;;
   match anilist_media env search with
   | Some r => ret r
   | None => throw
   end)%M.

(** [await fetch('https://api-free.deepl.com/v2/translate', ...)] *)
Definition fetch (text targetLang : jsstring) : M (bool * JsonBody) :=
  (emit (Fetch text targetLang) ;;;
   match deepl env text targetLang with
   | FetchResponse ok json => ret (ok, json)
   | FetchRejected => throw
   end)%M.

(** [(await response.json()).translations[0]?.text] *)
Definition translations_0_text (json : JsonBody) : M (option jsstring) :=
  match json with
  | JsonTranslations (t :: _) => ret t
  | JsonTranslations [] => ret None
  | JsonNoTranslations => throw
  | JsonInvalid => throw
  end.

(** ** [translateText] *)

Definition translation_unavailable : jsstring := lit "Tradução indisponível".

Definition translateText (text targetLang : jsstring) : M jsstring :=
  try_catch
    (response <- fetch text targetLang ;;
     if negb (fst response) then throw
     else
       text <- translations_0_text (snd response) ;;
       ret (or_else text translation_unavailable))%M
    (ret translation_unavailable).

(** ** The routes *)

Definition reply (status : Z) (body : Body) : M Response :=
  ret {| status := status; body := body |}.

Definition bad_query : Body :=
  BodyError (lit "A consulta deve ser uma string não vazia.").

Definition internal_error : Body :=
  BodyError (lit "Erro interno do servidor.").

(** [query.replace(/[^\p{L}\p{N}\s]/gu, '').trim()] *)
Definition sanitizedQuery (query : jsstring) : jsstring :=
  trim (filter (fun c => isL c || isN c || is_space c) query).

Definition is_empty {A} (l : list A) : bool :=
  match l with
  | [] => true
  | _ => false
  end.

(** [fastify.get('/anime/search-titles', ...)] *)
Definition search_titles (req : Request) : M Response :=
  match query req with
  | QStr query =>
      if is_empty (trim query) then reply 400 bad_query
      else
        let sanitizedQuery := sanitizedQuery query in
        try_catch
          (rows <- select_titles sanitizedQuery ;;
           if negb (is_empty rows) then
             reply 200 (BodyTitles database rows None)
           else
             reply 200
               (BodyTitles database []
                  (Some (lit "Nenhum título encontrado no banco. Tente buscar na API AniList."))))%M
          (reply 500 internal_error)
  | _ => reply 400 bad_query
  end.

(** The value tuple of one anime in [animeValues]. *)
Definition title_values (anime : Media.t) : Titles :=
  {| t_id := Media.id anime;
     t_title_romaji := or_null (MediaTitle.romaji (Media.title anime));
     t_title_english :=
       Some (or_else (MediaTitle.english (Media.title anime)) (lit "N/A"));
     t_title_native := or_null (MediaTitle.native (Media.title anime)) |}.

(** The summary of one anime in the answer of [/anime/search-api]. *)
Definition title_summary (anime : Media.t) : Titles :=
  {| t_id := Media.id anime;
     t_title_romaji := MediaTitle.romaji (Media.title anime);
     t_title_english := MediaTitle.english (Media.title anime);
     t_title_native := MediaTitle.native (Media.title anime) |}.

(** [fastify.get('/anime/search-api', ...)] *)
Definition search_api (req : Request) : M Response :=
  let page := with_default (page req) 1 in
  let perPage := with_default (perPage req) 10 in
  match query req with
  | QStr query =>
      if is_empty (trim query) then reply 400 bad_query
      else
        let sanitizedQuery := sanitizedQuery query in
        try_catch
          (animes <- request_page sanitizedQuery
                       (parseInt page) (parseInt perPage) ;;
           match animes with
           | None | Some [] =>
               reply 404 (BodyError (lit "Nenhum anime encontrado na API."))
           | Some animes =>
               let animeValues := map title_values animes in
               upsert_titles animeValues ;;;
               reply 200 (BodyTitles api (map title_summary animes) None)
           end)%M
          (reply 500 internal_error)
  | _ => reply 400 bad_query
  end.

Definition PT_BR : jsstring := lit "PT-BR".

(** [anime.streamingEpisodes?.map((ep, index) => ({...})) || []];
    [title_translated] is not set yet. *)
Definition episodes_of (anime : Media.t) : list AnimeEpisodes.row :=
  match Media.streamingEpisodes anime with
  | Some l =>
      mapi (fun index ep =>
              {| AnimeEpisodes.anime_id := Media.id anime;
                 AnimeEpisodes.episode_number := Z.of_nat index + 1;
                 AnimeEpisodes.title_romaji :=
                   or_null (StreamingEpisode.title ep);
                 AnimeEpisodes.title_translated := None;
                 AnimeEpisodes.thumbnail_image :=
                   or_null (StreamingEpisode.thumbnail ep) |}) l
  | None => []
  end.

(** The task of one episode in [translatedTitles]. *)
Definition translate_title (ep : AnimeEpisodes.row) : M jsstring :=
  (translatedTitle <-
     translateText (or_else (AnimeEpisodes.title_romaji ep) []) PT_BR ;;
   ret (str_or (sanitizeHtml translatedTitle) (lit "Sem título")))%M.

(** [episodes.forEach((ep, index) =>
      { ep.title_translated = translatedTitles[index]; })] *)
Definition set_translated (translatedTitles : list jsstring)
    (episodes : list AnimeEpisodes.row) : list AnimeEpisodes.row :=
  mapi (fun index ep =>
          {| AnimeEpisodes.anime_id := AnimeEpisodes.anime_id ep;
             AnimeEpisodes.episode_number := AnimeEpisodes.episode_number ep;
             AnimeEpisodes.title_romaji := AnimeEpisodes.title_romaji ep;
             AnimeEpisodes.title_translated := nth_error translatedTitles index;
             AnimeEpisodes.thumbnail_image := AnimeEpisodes.thumbnail_image ep |})
    episodes.

(** [anime.coverImage?.extraLarge] *)
Definition coverImage_extraLarge (anime : Media.t) : option jsstring :=
  match Media.coverImage anime with
  | Some c => CoverImage.extraLarge c
  | None => None
  end.

(** The nine values bound by the [INSERT INTO animes] of [/anime/name]. *)
Definition anime_values (anime : Media.t) (cleanDescription : jsstring)
  : Animes.row :=
  {| Animes.id := Media.id anime;
     Animes.title_romaji := or_null (MediaTitle.romaji (Media.title anime));
     Animes.title_english :=
       Some (or_else (MediaTitle.english (Media.title anime)) (lit "N/A"));
     Animes.title_native := or_null (MediaTitle.native (Media.title anime));
     Animes.description := Some (str_or cleanDescription (lit "Sem descrição"));
     Animes.genres :=
       Some (or_else
               (match Media.genres anime with
                | Some g => Some (join (lit ", ") g)
                | None => None
                end)
               (lit "Gêneros desconhecidos"));
     Animes.cover_image := or_null (coverImage_extraLarge anime);
     Animes.banner_image := or_null (Media.bannerImage anime);
     Animes.episodes := Some (num_or_0 (Media.episodes anime)) |}.

Definition api_anime (anime : Media.t) (cleanDescription : jsstring)
  : ApiAnime :=
  {| r_id := Media.id anime;
     r_title := Media.title anime;
     r_description := cleanDescription;
     r_genres := Media.genres anime;
     r_episodes := Media.episodes anime;
     r_coverImage := coverImage_extraLarge anime;
     r_bannerImage := Media.bannerImage anime |}.

Definition api_episode (ep : AnimeEpisodes.row) : ApiEpisode :=
  {| r_number := AnimeEpisodes.episode_number ep;
     r_title_romaji := AnimeEpisodes.title_romaji ep;
     r_title_translated := AnimeEpisodes.title_translated ep;
     r_thumbnail := AnimeEpisodes.thumbnail_image ep |}.

(** The cache-miss branch of [/anime/name], from the AniList request on. *)
Definition name_from_api (sanitizedQuery : jsstring) : M Response :=
  (anime <- request_media sanitizedQuery ;;
   match anime with
   | None =>
       reply 404 (BodyError (lit "Anime não encontrado na AniList API."))
   | Some anime =>
       descriptionPt <-
         translateText (or_else (Media.description anime) []) PT_BR ;;
       let cleanDescription := sanitizeHtml descriptionPt in
       let episodes := episodes_of anime in
       translatedTitles <- promise_all translate_title episodes ;;
       let episodes := set_translated translatedTitles episodes in
       (if negb (is_empty episodes) then upsert_episodes episodes
        else ret tt) ;;;
       upsert_anime (anime_values anime cleanDescription) ;;;
       reply 200
         (BodyName api
            [ApiResult (api_anime anime cleanDescription)
               (map api_episode episodes)]
            (Some 1) (Some 1))
   end)%M.

(** [fastify.get('/anime/name', ...)] *)
Definition anime_name (req : Request) : M Response :=
  let page := with_default (page req) 1 in
  let limit := with_default (limit req) 10 in
  match query req with
  | QStr query =>
      if is_empty (trim query) then reply 400 bad_query
      else
        let sanitizedQuery := sanitizedQuery query in
        let offset :=
          num_mul (num_sub (parseInt page) (Some 1)) (parseInt limit) in
        try_catch
          (rows <- select_animes sanitizedQuery (parseInt limit)
                     (parseInt_num offset) ;;
           if negb (is_empty rows) then
             animeResults <-
               promise_all
                 (fun anime =>
                    episodes <- select_episodes (Animes.id anime) ;;
                    ret (DbResult anime episodes))
                 rows ;;
             reply 200
               (BodyName database animeResults
                  (parseInt page) (parseInt limit))
           else name_from_api sanitizedQuery)%M
          (reply 500 internal_error)
  | _ => reply 400 bad_query
  end.

(* ================================================================== *)
(** * Vocabulary of the properties                                      *)
(* ================================================================== *)

(** The world after [evs] has been appended to the trace. *)
Definition logged (w : World) (evs : list Event) : World :=
  {| db := db w; trace := trace w ++ evs |}.

(** What [translateText] resolves to. *)
Definition translated (text targetLang : jsstring) : jsstring :=
  match deepl env text targetLang with
  | FetchResponse true (JsonTranslations (t :: _)) =>
      or_else t translation_unavailable
  | _ => translation_unavailable
  end.

(** A transport failure or a non-success response of DeepL. *)
Definition translation_fails (text targetLang : jsstring) : Prop :=
  deepl env text targetLang = FetchRejected
  \/ exists json, deepl env text targetLang = FetchResponse false json.

(** The text [/anime/name] sends for the title of an episode, and the
    translated title it keeps. *)
Definition title_text (ep : AnimeEpisodes.row) : jsstring :=
  or_else (AnimeEpisodes.title_romaji ep) [].

Definition title_kept (ep : AnimeEpisodes.row) : jsstring :=
  str_or (sanitizeHtml (translated (title_text ep) PT_BR)) (lit "Sem título").

(** On a cache miss answered by AniList with [anime]: the description
    once translated and sanitized, the episodes once their translated
    titles are set, and the calls made before the first [INSERT]. *)
Definition description_text (anime : Media.t) : jsstring :=
  or_else (Media.description anime) [].

Definition clean_description (anime : Media.t) : jsstring :=
  sanitizeHtml (translated (description_text anime) PT_BR).

Definition final_episodes (anime : Media.t) : list AnimeEpisodes.row :=
  set_translated (map title_kept (episodes_of anime)) (episodes_of anime).

Definition api_calls (q : jsstring) (anime : Media.t) : list Event :=
  GraphqlMedia q :: Fetch (description_text anime) PT_BR
    :: map (fun ep => Fetch (title_text ep) PT_BR) (episodes_of anime).

Definition api_response (anime : Media.t) : Response :=
  {| status := 200;
     body := BodyName api
               [ApiResult (api_anime anime (clean_description anime))
                  (map api_episode (final_episodes anime))]
               (Some 1) (Some 1) |}.

(** The first statement of [/anime/name]. *)
Definition name_select (req : Request) (q : jsstring) : DbOp :=
  SelectAnimes (sanitizedQuery q)
    (parseInt (with_default (limit req) 10))
    (parseInt_num
       (num_mul (num_sub (parseInt (with_default (page req) 1)) (Some 1))
          (parseInt (with_default (limit req) 10)))).

(** The request passes validation with query string [q]. *)
Definition valid_query (req : Request) (q : jsstring) : Prop :=
  query req = QStr q /\ is_empty (trim q) = false.

(** The query parameter is missing, not a string, or empty once trimmed. *)
Definition invalid_query (req : Request) : Prop :=
  match query req with
  | QStr q => trim q = []
  | _ => True
  end.

(** [/anime/name] misses the cache in [w] and AniList answers [anime]. *)
Definition cache_miss (req : Request) (q : jsstring) (w : World)
    (anime : Media.t) : Prop :=
  valid_query req q
  /\ db_fault env (name_select req q) (db w) = false
  /\ sql_select_animes (sanitizedQuery q)
       (parseInt (with_default (limit req) 10))
       (parseInt_num
          (num_mul (num_sub (parseInt (with_default (page req) 1)) (Some 1))
             (parseInt (with_default (limit req) 10)))) (db w) = Some []
  /\ anilist_media env (sanitizedQuery q) = Some (Some anime).

(** [SELECT * FROM animes WHERE id = ?] and its analogue on the episode
    key, used to read a table back. *)
Definition find_anime (id : Z) (t : list Animes.row) : option Animes.row :=
  find (fun x => animes_key x =? id) t.

Definition find_episode (k : Z * Z) (t : list AnimeEpisodes.row)
  : option AnimeEpisodes.row :=
  find (fun x => key_eqb (anime_episodes_key x) k) t.



(** An event that searches (a [SELECT] on the titles, a request to
    AniList) searches for [s]. *)
Definition searches_with (s : jsstring) (e : Event) : Prop :=
  match e with
  | PoolQuery (SelectTitles x) => x = s
  | PoolQuery (SelectAnimes x _ _) => x = s
  | GraphqlPage x _ _ => x = s
  | GraphqlMedia x => x = s
  | _ => True
  end.

Definition all_space (s : jsstring) : Prop :=
  Forall (fun c => is_space c = true) s.

(** The database after the episode statement of a cache miss, which is
    sent only for a non-empty list. *)
Definition after_episodes (eps : list AnimeEpisodes.row) (d : Db) : Db :=
  if is_empty eps then d else sql_upsert_episodes eps d.

Definition episode_statement (eps : list AnimeEpisodes.row) : list Event :=
  if is_empty eps then [] else [PoolQuery (UpsertEpisodes eps)].

(** The row [/anime/name] builds for the entry [ep] at position [index]
    of [streamingEpisodes], before and after its translated title is set. *)
Definition episode_row (anime : Media.t) (index : nat)
    (ep : StreamingEpisode.t) : AnimeEpisodes.row :=
  {| AnimeEpisodes.anime_id := Media.id anime;
     AnimeEpisodes.episode_number := Z.of_nat index + 1;
     AnimeEpisodes.title_romaji := or_null (StreamingEpisode.title ep);
     AnimeEpisodes.title_translated := None;
     AnimeEpisodes.thumbnail_image := or_null (StreamingEpisode.thumbnail ep) |}.

Definition final_row (anime : Media.t) (index : nat)
    (ep : StreamingEpisode.t) : AnimeEpisodes.row :=
  {| AnimeEpisodes.anime_id := Media.id anime;
     AnimeEpisodes.episode_number := Z.of_nat index + 1;
     AnimeEpisodes.title_romaji := or_null (StreamingEpisode.title ep);
     AnimeEpisodes.title_translated :=
       Some (title_kept (episode_row anime index ep));
     AnimeEpisodes.thumbnail_image := or_null (StreamingEpisode.thumbnail ep) |}.

(** The episode numbers of an answer of [/anime/name] from AniList. *)
Definition api_numbers (r : Response) : list Z :=
  match body r with
  | BodyName api [ApiResult _ episodes] _ _ => map r_number episodes
  | _ => []
  end.

(** No statement fails. *)
Definition healthy : Prop := forall op d, db_fault env op d = false.

(** ** Vocabulary of the further properties *)

(** The second bound of the first statement of [/anime/name]:
    [parseInt(offset)]. *)
Definition name_offset (req : Request) : num :=
  parseInt_num
    (num_mul (num_sub (parseInt (with_default (page req) 1)) (Some 1))
       (parseInt (with_default (limit req) 10))).

(** Bounds MySQL rejects in [LIMIT ? OFFSET ?]: a number that is not
    finite ([NaN], [Infinity]) or a negative number. *)
Definition bad_bounds (limit offset : num) : Prop :=
  match limit, offset with
  | Some l, Some o => l < 0 \/ o < 0
  | _, _ => True
  end.

(** The WHERE clause of the title searches, read on a value tuple. *)
Definition titles_like (q : jsstring) (t : Titles) : bool :=
  like (t_title_romaji t) q || like (t_title_english t) q
  || like (t_title_native t) q.

(** On a cache hit of [/anime/name] with [rows]: the episode statements,
    whether one of them fails, and the results of the answer. *)
Definition episode_selects (rows : list Animes.row) : list Event :=
  map (fun x => PoolQuery (SelectEpisodes (Animes.id x))) rows.

Definition episode_select_fails (rows : list Animes.row) (d : Db) : bool :=
  existsb (fun x => db_fault env (SelectEpisodes (Animes.id x)) d) rows.

Definition hit_results (rows : list Animes.row) (d : Db) : list NameResult :=
  map (fun x => DbResult x (sql_select_episodes (Animes.id x) d)) rows.

(** The task of one row in [animeResults]. *)
Definition episodes_task (anime : Animes.row) : M NameResult :=
  (episodes <- select_episodes (Animes.id anime) ;;
   ret (DbResult anime episodes))%M.

(** The text [/anime/name] sends to DeepL for a streaming episode. *)
Definition episode_text (ep : StreamingEpisode.t) : jsstring :=
  or_else (or_null (StreamingEpisode.title ep)) [].

(** The streaming episodes of an anime, none when the field is null. *)
Definition streaming (anime : Media.t) : list StreamingEpisode.t :=
  match Media.streamingEpisodes anime with
  | Some l => l
  | None => []
  end.

(** Invariants of the tables. *)
Definition english_set (d : Db) : Prop :=
  Forall (fun x => truthy (Animes.title_english x) = true) (animes d).

Definition keys_unique (d : Db) : Prop :=
  NoDup (map animes_key (animes d))
  /\ NoDup (map anime_episodes_key (anime_episodes d)).

Definition episode_ok (e : AnimeEpisodes.row) : Prop :=
  1 <= AnimeEpisodes.episode_number e
  /\ truthy (AnimeEpisodes.title_translated e) = true.

Definition episodes_ok (d : Db) : Prop :=
  Forall episode_ok (anime_episodes d).

(** A row of [animes] with at least one title that is not NULL. *)
Definition has_title (x : Animes.row) : bool :=
  match Animes.title_romaji x, Animes.title_english x,
        Animes.title_native x with
  | None, None, None => false
  | _, _, _ => true
  end.

(** An event that writes to the database. *)
Definition is_write (e : Event) : bool :=
  match e with
  | PoolQuery (UpsertTitles _) => true
  | PoolQuery (UpsertEpisodes _) => true
  | PoolQuery (UpsertAnime _) => true
  | _ => false
  end.

(** [/anime/name] passes validation and its first statement returns no
    row. *)
Definition misses (req : Request) (q : jsstring) (w : World) : Prop :=
  valid_query req q
  /\ db_fault env (name_select req q) (db w) = false
  /\ sql_select_animes (sanitizedQuery q)
       (parseInt (with_default (limit req) 10)) (name_offset req) (db w)
     = Some [].

(** The page of [animes] that [LIMIT l OFFSET o] cuts out of the rows
    matching [s]; no row when MySQL rejects the bounds. *)
Definition page_of (s : jsstring) (l o : Z) (d : Db) : list Animes.row :=
  match sql_select_animes s (Some l) (Some o) d with
  | Some rows => rows
  | None => []
  end.

(** The title columns of the row [r] are those the upserts bind for
    [anime]: a title that is present as it is, a missing (null or empty)
    English title as ['N/A'], a missing romanized or native title as
    [NULL]. *)
Definition titles_stored (anime : Media.t) (r : Animes.row) : Prop :=
  (truthy (MediaTitle.english (Media.title anime)) = false ->
   Animes.title_english r = Some (lit "N/A"))
  /\ (truthy (MediaTitle.english (Media.title anime)) = true ->
      Animes.title_english r = MediaTitle.english (Media.title anime))
  /\ (truthy (MediaTitle.romaji (Media.title anime)) = false ->
      Animes.title_romaji r = None)
  /\ (truthy (MediaTitle.romaji (Media.title anime)) = true ->
      Animes.title_romaji r = MediaTitle.romaji (Media.title anime))
  /\ (truthy (MediaTitle.native (Media.title anime)) = false ->
      Animes.title_native r = None)
  /\ (truthy (MediaTitle.native (Media.title anime)) = true ->
      Animes.title_native r = MediaTitle.native (Media.title anime)).

(* ================================================================== *)
(** * The earlier server kept in [src/db.js]                            *)
(* ================================================================== *)

(** [col LIKE '%s%'] on a non-NULL column for an arbitrary [s], whose [%]
    and [_] are wildcards: the earlier route does not sanitize the query. *)
Variable sql_like_raw : jsstring -> jsstring -> bool.

Variable senv : SearchEnv.

Definition SM (A : Type) : Type := SearchWorld -> result A * SearchWorld.

Definition s_ret {A} (a : A) : SM A := fun w => (Ok a, w).

Definition s_bind {A B} (m : SM A) (k : A -> SM B) : SM B :=
  fun w =>
    match m w with
    | (Ok a, w') => k a w'
    | (Throw, w') => (Throw, w')
    end.

Definition s_throw {A} : SM A := fun w => (Throw, w).

Definition s_try {A} (m h : SM A) : SM A :=
  fun w =>
    match m w with
    | (Ok a, w') => (Ok a, w')
    | (Throw, w') => h w'
    end.

Definition s_emit (e : SearchEvent) : SM unit :=
  fun w => (Ok tt, {| s_db := s_db w; s_trace := s_trace w ++ [e] |}).

(** [String(query)] inside the template [`%${query}%`]. *)
Definition template_text (query : qparam) : jsstring :=
  match query with
  | QStr s => s
  | QArr l => join [44%N] (map Some l)
  | QMissing => lit "undefined"
  end.

(** [!query]: [undefined] and [''] are falsy, an array never is. *)
Definition falsy_query (query : qparam) : bool :=
  match query with
  | QMissing => true
  | QStr [] => true
  | _ => false
  end.

(** [WHERE title_romaji LIKE ? OR description LIKE ?] *)
Definition where_search (s : jsstring) (x : Animes.row) : bool :=
  match Animes.title_romaji x with
  | Some v => sql_like_raw s v
  | None => false
  end
  || match Animes.description x with
     | Some v => sql_like_raw s v
     | None => false
     end.

(** [INSERT INTO animes (id, title_romaji, title_english, title_native,
     description, genres, cover_image, banner_image) VALUES (...)], with no
    [ON DUPLICATE KEY UPDATE]: the statement is rejected when the key is
    taken. *)
Definition sql_insert_anime (v : Animes.row) (d : Db) : option Db :=
  if existsb (fun x => animes_key x =? animes_key v) (animes d) then None
  else Some {| animes := animes d ++ [v];
               anime_episodes := anime_episodes d |}.

Definition s_query {A} (op : SearchOp) (exec : Db -> option (A * Db)) : SM A :=
  s_bind (s_emit (SearchQuery op))
    (fun _ w =>
       if s_fault senv op (s_db w) then (Throw, w)
       else match exec (s_db w) with
            | Some (a, d') => (Ok a, {| s_db := d'; s_trace := s_trace w |})
            | None => (Throw, w)
            end).

(** The [text] entry of [new URLSearchParams({ text, target_lang })]:
    [null] is sent as the string [null]. *)
Definition form_text (text : option jsstring) : jsstring :=
  match text with
  | Some s => s
  | None => lit "null"
  end.

(** The earlier [translateText]: no test of [response.ok], no [?.], no
    fallback, nothing caught. *)
Definition search_translateText (text : option jsstring)
    (targetLang : jsstring) : SM (option jsstring) :=
  s_bind (s_emit (SearchFetch (form_text text) targetLang))
    (fun _ =>
       match s_deepl senv (form_text text) targetLang with
       | FetchRejected => s_throw
       | FetchResponse _ JsonInvalid => s_throw
       | FetchResponse _ JsonNoTranslations => s_throw
       | FetchResponse _ (JsonTranslations []) => s_throw
       | FetchResponse _ (JsonTranslations (t :: _)) => s_ret t
       end).

Definition s_reply (status : Z) (body : SearchBody) : SM SearchResponse :=
  s_ret {| s_status := status; s_body := body |}.

(** The values of the [INSERT], bound once [anime.genres.join] and
    [anime.coverImage.extraLarge] have been evaluated; [episodes], which
    the statement does not list, takes its default. *)
Definition search_values (anime : Media.t) (descriptionPt : option jsstring)
    (genres : list (option jsstring)) (cover : CoverImage.t) : Animes.row :=
  {| Animes.id := Media.id anime;
     Animes.title_romaji := or_null (MediaTitle.romaji (Media.title anime));
     Animes.title_english := or_null (MediaTitle.english (Media.title anime));
     Animes.title_native := or_null (MediaTitle.native (Media.title anime));
     Animes.description := descriptionPt;
     Animes.genres := Some (join (lit ", ") genres);
     Animes.cover_image := CoverImage.extraLarge cover;
     Animes.banner_image := Media.bannerImage anime;
     Animes.episodes := Animes.episodes column_default |}.

(** [fastify.get('/search', ...)] *)
Definition search (query : qparam) : SM SearchResponse :=
  if falsy_query query then
    s_reply 400 (SearchError (lit "Query é obrigatória."))
  else
    s_try
      (s_bind
         (s_query (SelectLike (template_text query))
            (fun d =>
               Some (filter (where_search (template_text query)) (animes d),
                     d)))
         (fun rows =>
            if negb (is_empty rows) then s_reply 200 (SearchRows rows)
            else
              s_bind
                (s_bind (s_emit (SearchGraphql query))
                   (fun _ =>
                      match s_anilist senv query with
                      | Some r => s_ret r
                      | None => s_throw
                      end))
                (fun response =>
                   match response with
                   | None => s_throw      (* [anime.description] of [null] *)
                   | Some anime =>
                       s_bind
                         (search_translateText (Media.description anime)
                            (lit "PT"))
                         (fun descriptionPt =>
                            match Media.genres anime,
                                  Media.coverImage anime with
                            | Some genres, Some cover =>
                                s_bind
                                  (s_query
                                     (InsertAnime
                                        (search_values anime descriptionPt
                                           genres cover))
                                     (fun d =>
                                        match
                                          sql_insert_anime
                                            (search_values anime
                                               descriptionPt genres cover) d
                                        with
                                        | Some d' => Some (tt, d')
                                        | None => None
                                        end))
                                  (fun _ =>
                                     s_reply 200
                                       (SearchApi
                                          [ {| s_id := Media.id anime;
                                               s_title := Media.title anime;
                                               s_description := descriptionPt;
                                               s_genres := genres;
                                               s_coverImage :=
                                                 CoverImage.extraLarge cover;
                                               s_bannerImage :=
                                                 Media.bannerImage anime |} ]))
                            | _, _ => s_throw  (* [join] or [extraLarge] of [null] *)
                            end)
                   end)))
      (s_reply 500 (SearchError (lit "Erro interno do servidor."))).

(** The world of the earlier route after [evs] has been appended to the
    trace. *)
Definition s_logged (w : SearchWorld) (evs : list SearchEvent)
  : SearchWorld :=
  {| s_db := s_db w; s_trace := s_trace w ++ evs |}.

(** [/search] passes validation and its [SELECT] returns no row. *)
Definition search_misses (query : qparam) (w : SearchWorld) : Prop :=
  falsy_query query = false
  /\ s_fault senv (SelectLike (template_text query)) (s_db w) = false
  /\ filter (where_search (template_text query)) (animes (s_db w)) = [].

(** DeepL gives the earlier [translateText] nothing it can return: the
    request is rejected, the body is not JSON, or [translations] is
    empty. *)
Definition no_translation (text targetLang : jsstring) : Prop :=
  s_deepl senv text targetLang = FetchRejected
  \/ (exists ok, s_deepl senv text targetLang = FetchResponse ok JsonInvalid)
  \/ (exists ok,
        s_deepl senv text targetLang
        = FetchResponse ok (JsonTranslations [])).

Definition search_error : SearchResponse :=
  {| s_status := 500;
     s_body := SearchError (lit "Erro interno do servidor.") |}.

(* ================================================================== *)
(** * Running the computations                                          *)
(* ================================================================== *)

Lemma logged_nil (w : World) : logged w [] = w.
Proof. destruct w; unfold logged; simpl. now rewrite app_nil_r. Qed.

Lemma logged_app (w : World) (a b : list Event) :
  logged (logged w a) b = logged w (a ++ b).
Proof. unfold logged; simpl. now rewrite app_assoc. Qed.

Lemma emit_run (e : Event) (w : World) : emit e w = (Ok tt, logged w [e]).
Proof. reflexivity. Qed.

Lemma translateText_run (text targetLang : jsstring) (w : World) :
  translateText text targetLang w
  = (Ok (translated text targetLang), logged w [Fetch text targetLang]).
Proof.
  unfold translateText, try_catch, bind, fetch, translated, emit; simpl.
  destruct (deepl env text targetLang) as [|ok json]; simpl; [reflexivity|].
  destruct ok; simpl; [|reflexivity].
  destruct json as [| |[|t l]]; reflexivity.
Qed.

Lemma translate_title_run (ep : AnimeEpisodes.row) (w : World) :
  translate_title ep w
  = (Ok (title_kept ep), logged w [Fetch (title_text ep) PT_BR]).
Proof.
  unfold translate_title, bind. now rewrite translateText_run.
Qed.

Lemma promise_all_titles (eps : list AnimeEpisodes.row) (w : World) :
  promise_all translate_title eps w
  = (Ok (map title_kept eps),
     logged w (map (fun ep => Fetch (title_text ep) PT_BR) eps)).
Proof.
  revert w; induction eps as [|ep eps IH]; intro w; simpl.
  - now rewrite logged_nil.
  - rewrite translate_title_run, IH, logged_app. reflexivity.
Qed.

Lemma pool_query_fault {A} (op : DbOp) (exec : Db -> option (A * Db))
    (w : World) :
  db_fault env op (db w) = true ->
  pool_query op exec w = (Throw, logged w [PoolQuery op]).
Proof.
  intro H. unfold pool_query, bind, emit; simpl. now rewrite H.
Qed.

Lemma pool_query_ok {A} (op : DbOp) (exec : Db -> option (A * Db))
    (w : World) (a : A) (d : Db) :
  db_fault env op (db w) = false -> exec (db w) = Some (a, d) ->
  pool_query op exec w
  = (Ok a, {| db := d; trace := trace w ++ [PoolQuery op] |}).
Proof.
  intros H E. unfold pool_query, bind, emit; simpl. now rewrite H, E.
Qed.

Lemma pool_query_trace {A} (op : DbOp) (exec : Db -> option (A * Db))
    (w : World) :
  trace (snd (pool_query op exec w)) = trace w ++ [PoolQuery op].
Proof.
  unfold pool_query, bind, emit; simpl.
  destruct (db_fault env op (db w)); [reflexivity|].
  destruct (exec (db w)) as [[a d]|]; reflexivity.
Qed.

Lemma sql_upsert_episodes_nil (d : Db) : sql_upsert_episodes [] d = d.
Proof. now destruct d. Qed.

Lemma after_episodes_eq (eps : list AnimeEpisodes.row) (d : Db) :
  after_episodes eps d = sql_upsert_episodes eps d.
Proof.
  unfold after_episodes. destruct eps; simpl; [|reflexivity].
  now rewrite sql_upsert_episodes_nil.
Qed.

(** The whole cache-miss branch, statement by statement. *)
Lemma name_from_api_run (q : jsstring) (anime : Media.t) (w : World) :
  anilist_media env q = Some (Some anime) ->
  let eps := final_episodes anime in
  let v := anime_values anime (clean_description anime) in
  let w1 := logged w (api_calls q anime) in
  name_from_api q w =
    if negb (is_empty eps) && db_fault env (UpsertEpisodes eps) (db w) then
      (Throw, logged w1 [PoolQuery (UpsertEpisodes eps)])
    else if db_fault env (UpsertAnime v) (after_episodes eps (db w)) then
      (Throw,
       {| db := after_episodes eps (db w);
          trace := trace w1 ++ episode_statement eps ++ [PoolQuery (UpsertAnime v)] |})
    else
      (Ok (api_response anime),
       {| db := sql_upsert_anime v (after_episodes eps (db w));
          trace := trace w1 ++ episode_statement eps ++ [PoolQuery (UpsertAnime v)] |}).
Proof.
  intros H eps v w1.
  unfold name_from_api, request_media, bind at 1 2. rewrite emit_run, H.
  unfold ret at 1. unfold bind at 1. rewrite translateText_run.
  unfold bind at 1. rewrite promise_all_titles.
  fold (description_text anime). fold (clean_description anime).
  fold (final_episodes anime). fold eps. fold v.
  rewrite !logged_app. simpl app. fold (api_calls q anime). fold w1.
  unfold after_episodes, episode_statement.
  destruct (is_empty eps) eqn:E; simpl negb; cbv iota; simpl andb.
  - unfold bind at 1, ret at 1. unfold bind, upsert_anime.
    destruct (db_fault env (UpsertAnime v) (db w)) eqn:F.
    + rewrite pool_query_fault by exact F. reflexivity.
    + erewrite pool_query_ok by (try exact F; reflexivity). reflexivity.
  - unfold bind at 1, upsert_episodes.
    destruct (db_fault env (UpsertEpisodes eps) (db w)) eqn:F1.
    + rewrite pool_query_fault by exact F1. reflexivity.
    + erewrite pool_query_ok by (try exact F1; reflexivity).
      unfold bind, upsert_anime.
      destruct (db_fault env (UpsertAnime v) (sql_upsert_episodes eps (db w)))
        eqn:F2.
      * rewrite pool_query_fault by exact F2.
        unfold logged; simpl. now rewrite <- app_assoc.
      * erewrite pool_query_ok by (try exact F2; reflexivity).
        unfold reply, ret; simpl. now rewrite <- app_assoc.
Qed.

(** A cache miss hands over to [name_from_api]; what it throws becomes
    the 500 answer. *)
Lemma anime_name_miss (req : Request) (q : jsstring) (w : World)
    (anime : Media.t) :
  cache_miss req q w anime ->
  anime_name req w =
    match name_from_api (sanitizedQuery q)
            (logged w [PoolQuery (name_select req q)]) with
    | (Ok r, w') => (Ok r, w')
    | (Throw, w') => (Ok {| status := 500; body := internal_error |}, w')
    end.
Proof.
  intros [[Hq Ht] [Hf [Hs _]]].
  unfold anime_name. rewrite Hq, Ht.
  unfold try_catch, bind at 1, select_animes.
  erewrite pool_query_ok; [| exact Hf | rewrite Hs; reflexivity ].
  simpl is_empty. simpl negb. cbv iota.
  fold (name_select req q). reflexivity.
Qed.

(* ================================================================== *)
(** * The tables under [INSERT ... ON DUPLICATE KEY UPDATE]               *)
(* ================================================================== *)

Lemma key_eqb_eq (a b : Z * Z) : key_eqb a b = true <-> a = b.
Proof.
  destruct a as [a1 a2], b as [b1 b2]; unfold key_eqb; simpl.
  rewrite andb_true_iff, !Z.eqb_eq. split.
  - intros [-> ->]; reflexivity.
  - intro H; inversion H; auto.
Qed.

Lemma key_eqb_refl (a : Z * Z) : key_eqb a a = true.
Proof. now apply key_eqb_eq. Qed.

Lemma key_eqb_neq (a b : Z * Z) : a <> b -> key_eqb a b = false.
Proof.
  intro H. destruct (key_eqb a b) eqn:E; [|reflexivity].
  apply key_eqb_eq in E. contradiction.
Qed.

(** *** [animes], the nine-column statement *)

Lemma find_insert_anime (v : Animes.row) (t : list Animes.row) :
  find_anime (Animes.id v) (insert_anime v t) = Some v.
Proof.
  unfold find_anime, animes_key.
  induction t as [|x t IH]; simpl.
  - rewrite Z.eqb_refl. reflexivity.
  - unfold animes_key.
    destruct (Animes.id x =? Animes.id v) eqn:E; cbn [find Animes.id];
      rewrite E.
    + apply Z.eqb_eq in E. destruct v; simpl in *. now rewrite E.
    + exact IH.
Qed.

Lemma ids_insert_anime (v : Animes.row) (t : list Animes.row) :
  map Animes.id (insert_anime v t)
  = if existsb (fun x => animes_key x =? animes_key v) t
    then map Animes.id t
    else map Animes.id t ++ [Animes.id v].
Proof.
  induction t as [|x t IH]; simpl; [reflexivity|].
  destruct (animes_key x =? animes_key v) eqn:E; simpl; [reflexivity|].
  rewrite IH. now destruct (existsb _ t).
Qed.

Lemma existsb_key_false (k : Z) (t : list Animes.row) :
  existsb (fun x => animes_key x =? k) t = false ->
  ~ In k (map Animes.id t).
Proof.
  induction t as [|x t IH]; simpl; [tauto|].
  rewrite orb_false_iff. intros [E1 E2] [H|H].
  - unfold animes_key in E1. rewrite H, Z.eqb_refl in E1. discriminate.
  - now apply IH.
Qed.

(** The primary key stays a key. *)
Lemma insert_anime_key (v : Animes.row) (t : list Animes.row) :
  NoDup (map Animes.id t) -> NoDup (map Animes.id (insert_anime v t)).
Proof.
  intro H. rewrite ids_insert_anime.
  destruct (existsb _ t) eqn:E; [exact H|].
  apply existsb_key_false in E.
  apply NoDup_app; [ exact H | repeat constructor; simpl; tauto | ].
  intros a Ha [<-|[]]. contradiction.
Qed.

Lemma filter_absent (k : Z) (t : list Animes.row) :
  ~ In k (map Animes.id t) ->
  filter (fun x => animes_key x =? k) t = [].
Proof.
  induction t as [|x t IH]; simpl; [reflexivity|].
  intro H. destruct (Z.eqb_spec (animes_key x) k) as [E|E].
  - exfalso. apply H. now left.
  - apply IH. tauto.
Qed.

Lemma rows_insert_anime (v : Animes.row) (t : list Animes.row) :
  NoDup (map Animes.id t) ->
  filter (fun x => animes_key x =? Animes.id v) (insert_anime v t) = [v].
Proof.
  unfold animes_key.
  induction t as [|x t IH]; cbn [insert_anime map]; intro H.
  - cbn [filter]. now rewrite Z.eqb_refl.
  - inversion H as [|? ? Hx Ht]; subst. unfold animes_key.
    destruct (Animes.id x =? Animes.id v) eqn:E; cbn [filter Animes.id];
      rewrite E.
    + apply Z.eqb_eq in E.
      pose proof (filter_absent (Animes.id v) t) as F.
      unfold animes_key in F. rewrite F by (now rewrite <- E).
      destruct v; simpl in *. now rewrite E.
    + now apply IH.
Qed.

(** *** [animes], the four-column statement *)








Lemma find_insert_titles (v : Titles) (t : list Animes.row) :
  exists r, find_anime (t_id v) (insert_titles v t) = Some r
            /\ titles_of_row r = v.
Proof.
  unfold find_anime, animes_key.
  induction t as [|x t IH]; cbn [insert_titles].
  - eexists. cbn [find Animes.id]. rewrite Z.eqb_refl.
    split; [reflexivity|]. now destruct v.
  - unfold animes_key.
    destruct (Animes.id x =? t_id v) eqn:E; cbn [find Animes.id]; rewrite E.
    + eexists. split; [reflexivity|].
      apply Z.eqb_eq in E. destruct v; unfold titles_of_row; simpl in *.
      now rewrite E.
    + exact IH.
Qed.

(** *** [anime_episodes] *)

Lemma find_insert_episode (v : AnimeEpisodes.row)
    (t : list AnimeEpisodes.row) :
  find_episode (anime_episodes_key v) (insert_episode v t) = Some v.
Proof.
  unfold find_episode.
  induction t as [|x t IH]; cbn [insert_episode].
  - cbn [find]. now rewrite key_eqb_refl.
  - destruct (key_eqb (anime_episodes_key x) (anime_episodes_key v)) eqn:E.
    + cbn [find]. unfold anime_episodes_key at 1. cbn [AnimeEpisodes.anime_id
        AnimeEpisodes.episode_number].
      fold (anime_episodes_key x). rewrite E.
      apply key_eqb_eq in E. unfold anime_episodes_key in E.
      inversion E as [[E1 E2]]. destruct v; simpl in *. now rewrite E1, E2.
    + cbn [find]. rewrite E. exact IH.
Qed.

Lemma find_insert_episode_other (k : Z * Z) (v : AnimeEpisodes.row)
    (t : list AnimeEpisodes.row) :
  k <> anime_episodes_key v ->
  find_episode k (insert_episode v t) = find_episode k t.
Proof.
  intro N. unfold find_episode.
  induction t as [|x t IH]; cbn [insert_episode].
  - cbn [find]. rewrite key_eqb_neq; [reflexivity | congruence].
  - destruct (key_eqb (anime_episodes_key x) (anime_episodes_key v)) eqn:E.
    + apply key_eqb_eq in E. cbn [find].
      unfold anime_episodes_key at 1. cbn [AnimeEpisodes.anime_id
        AnimeEpisodes.episode_number]. fold (anime_episodes_key x).
      rewrite (key_eqb_neq (anime_episodes_key x) k) by congruence.
      reflexivity.
    + cbn [find]. now rewrite IH.
Qed.

Lemma find_upsert_episodes_other (k : Z * Z) (vs : list AnimeEpisodes.row)
    (t : list AnimeEpisodes.row) :
  ~ In k (map anime_episodes_key vs) ->
  find_episode k (fold_left (fun t v => insert_episode v t) vs t)
  = find_episode k t.
Proof.
  revert t; induction vs as [|v vs IH]; intros t N; simpl; [reflexivity|].
  simpl in N. rewrite IH by tauto.
  apply find_insert_episode_other. intro E. apply N. now left.
Qed.

Lemma find_upsert_episodes (v : AnimeEpisodes.row)
    (vs : list AnimeEpisodes.row) (t : list AnimeEpisodes.row) :
  NoDup (map anime_episodes_key vs) -> In v vs ->
  find_episode (anime_episodes_key v)
    (fold_left (fun t v => insert_episode v t) vs t) = Some v.
Proof.
  revert t; induction vs as [|x vs IH]; intros t D I; simpl; [destruct I|].
  inversion D as [|? ? Dx Dvs]; subst.
  destruct I as [->|I].
  - rewrite find_upsert_episodes_other by exact Dx.
    apply find_insert_episode.
  - now apply IH.
Qed.

(** ** Indexed maps *)

Lemma length_mapi_from {A B} (f : nat -> A -> B) (l : list A) (i : nat) :
  List.length (mapi_from i f l) = List.length l.
Proof. revert i; induction l; intro i; simpl; auto. Qed.

Lemma map_mapi_from {A B C} (g : B -> C) (f : nat -> A -> B) (l : list A)
    (i : nat) :
  map g (mapi_from i f l) = mapi_from i (fun n x => g (f n x)) l.
Proof. revert i; induction l; intro i; simpl; [|rewrite IHl]; auto. Qed.

Lemma mapi_from_mapi_from {A B C} (g : nat -> B -> C) (f : nat -> A -> B)
    (l : list A) (i : nat) :
  mapi_from i g (mapi_from i f l) = mapi_from i (fun n x => g n (f n x)) l.
Proof. revert i; induction l; intro i; simpl; [|rewrite IHl]; auto. Qed.

Lemma mapi_from_index {A B} (h : nat -> B) (l : list A) (i : nat) :
  mapi_from i (fun n _ => h n) l = map h (seq i (List.length l)).
Proof. revert i; induction l; intro i; simpl; [|rewrite IHl]; auto. Qed.

Lemma mapi_from_ext {A B} (f g : nat -> A -> B) (l : list A) (i : nat) :
  (forall n x, nth_error l n = Some x -> f (i + n)%nat x = g (i + n)%nat x) ->
  mapi_from i f l = mapi_from i g l.
Proof.
  revert i; induction l as [|a l IH]; intros i H; simpl; [reflexivity|].
  f_equal.
  - specialize (H 0%nat a eq_refl). now rewrite Nat.add_0_r in H.
  - apply IH. intros n x Hn. specialize (H (S n) x Hn).
    now rewrite Nat.add_succ_r in H.
Qed.

Lemma nth_error_mapi_from {A B} (f : nat -> A -> B) (l : list A)
    (i k : nat) :
  nth_error (mapi_from i f l) k
  = match nth_error l k with
    | Some x => Some (f (i + k)%nat x)
    | None => None
    end.
Proof.
  revert i k; induction l as [|a l IH]; intros i [|k]; simpl; auto.
  - now rewrite Nat.add_0_r.
  - rewrite IH. now rewrite Nat.add_succ_r.
Qed.

(* ================================================================== *)
(** * Properties of the routes                                          *)
(* ================================================================== *)

Lemma final_episodes_rows (anime : Media.t) (l : list StreamingEpisode.t) :
  Media.streamingEpisodes anime = Some l ->
  final_episodes anime = mapi (final_row anime) l.
Proof.
  intro H. unfold final_episodes, set_translated, episodes_of. rewrite H.
  fold (episode_row anime). unfold mapi. rewrite mapi_from_mapi_from.
  apply mapi_from_ext. intros n ep Hn. simpl.
  unfold final_row. f_equal.
  rewrite nth_error_map, nth_error_mapi_from, Hn. reflexivity.
Qed.

Lemma final_episodes_none (anime : Media.t) :
  Media.streamingEpisodes anime = None -> final_episodes anime = [].
Proof.
  intro H. unfold final_episodes, set_translated, episodes_of. now rewrite H.
Qed.

(** What the cache-miss branch can answer. *)
Lemma name_from_api_answer (q : jsstring) (w w' : World) (r : Response) :
  name_from_api q w = (Ok r, w') ->
  (exists e, r = {| status := 404; body := BodyError e |})
  \/ (exists results,
        r = {| status := 200;
               body := BodyName api results (Some 1) (Some 1) |}).
Proof.
  unfold name_from_api, request_media, bind at 1 2. rewrite emit_run.
  destruct (anilist_media env q) as [[anime|]|]; cbn beta iota.
  - unfold ret at 1. unfold bind at 1. rewrite translateText_run.
    unfold bind at 1. rewrite promise_all_titles.
    unfold bind at 1.
    match goal with |- context [ (if ?c then ?a else ?b) ?x ] =>
      destruct ((if c then a else b) x) as [[u|] w1] end;
      [|discriminate].
    unfold bind at 1.
    match goal with |- context [ upsert_anime ?v ?x ] =>
      destruct (upsert_anime v x) as [[u2|] w2] end;
      [|discriminate].
    unfold reply, ret. intro E. inversion E. right. eauto.
  - unfold reply, ret. intro E. inversion E. left. eauto.
  - unfold throw. discriminate.
Qed.

(** C7. A request whose [query] parameter is missing, is not a string, or
    is empty once trimmed is answered 400 with an [{error}] body by each of
    the three routes, and the world is left as it was: no statement has
    been sent to the database and no request to AniList or DeepL. *)
Theorem invalid_query_rejected (req : Request) (w : World) :
  invalid_query req ->
  search_titles req w = (Ok {| status := 400; body := bad_query |}, w)
  /\ search_api req w = (Ok {| status := 400; body := bad_query |}, w)
  /\ anime_name req w = (Ok {| status := 400; body := bad_query |}, w).
Proof.
  unfold invalid_query, search_titles, search_api, anime_name.
  destruct (query req) as [|q|l]; intro H;
    try rewrite H; repeat split; reflexivity.
Qed.

(** C6. [/anime/search-titles] makes no outbound HTTP call on any path:
    whatever the request, the events it adds to the trace are database
    statements only. With a valid query, a working database and no
    matching row, it answers 200 with [source: 'database'], an empty result
    list and the informational message, having sent its one [SELECT] and
    nothing to AniList. *)
Theorem search_titles_stays_local (req : Request) (w : World) :
  (exists evs,
     trace (snd (search_titles req w)) = trace w ++ evs
     /\ Forall (fun e => is_http e = false) evs)
  /\ (forall q,
        valid_query req q ->
        db_fault env (SelectTitles (sanitizedQuery q)) (db w) = false ->
        sql_select_titles (sanitizedQuery q) (db w) = [] ->
        search_titles req w
        = (Ok {| status := 200;
                 body := BodyTitles database []
                           (Some (lit "Nenhum título encontrado no banco. Tente buscar na API AniList.")) |},
           logged w [PoolQuery (SelectTitles (sanitizedQuery q))])).
Proof.
  split.
  - unfold search_titles.
    destruct (query req) as [|q|l];
      try (exists []; split; [simpl; now rewrite app_nil_r | constructor]).
    destruct (is_empty (trim q));
      [exists []; split; [simpl; now rewrite app_nil_r | constructor]|].
    exists [PoolQuery (SelectTitles (sanitizedQuery q))].
    split; [|repeat constructor].
    unfold try_catch, bind, select_titles.
    pose proof (pool_query_trace (SelectTitles (sanitizedQuery q))
                  (fun d => Some (sql_select_titles (sanitizedQuery q) d, d)) w)
      as T.
    destruct (pool_query _ _ w) as [[rows|] w1]; simpl in T |- *.
    + destruct (negb (is_empty rows)); exact T.
    + exact T.
  - intros q [Hq Ht] Hf Hs. unfold search_titles. rewrite Hq, Ht.
    unfold try_catch, bind, select_titles.
    erewrite pool_query_ok; [| exact Hf | reflexivity].
    rewrite Hs. reflexivity.
Qed.

Lemma insert_anime_twice (v1 v2 : Animes.row) (t : list Animes.row) :
  Animes.id v1 = Animes.id v2 ->
  insert_anime v2 (insert_anime v1 t) = insert_anime v2 t.
Proof.
  intro E. induction t as [|x t IH]; cbn [insert_anime]; unfold animes_key.
  - rewrite E, Z.eqb_refl. now destruct v2.
  - rewrite E. destruct (Animes.id x =? Animes.id v2) eqn:X;
      cbn [insert_anime]; unfold animes_key; cbn [Animes.id]; rewrite X.
    + reflexivity.
    + now rewrite IH.
Qed.

Lemma find_some_id (k : Z) (t : list Animes.row) (r : Animes.row) :
  find_anime k t = Some r -> In k (map Animes.id t).
Proof.
  unfold find_anime. intro H. apply find_some in H as [I E].
  unfold animes_key in E. apply Z.eqb_eq in E. subst k. now apply in_map.
Qed.

Lemma length_insert_anime (v : Animes.row) (t : list Animes.row) :
  In (Animes.id v) (map Animes.id t) ->
  List.length (insert_anime v t) = List.length t.
Proof.
  induction t as [|x t IH]; cbn [insert_anime map]; [intros []|].
  unfold animes_key. intros [E|I].
  - rewrite E, Z.eqb_refl. reflexivity.
  - destruct (Animes.id x =? Animes.id v); [reflexivity|].
    cbn [List.length]. now rewrite IH.
Qed.

(** C4. The nine-column upsert of [animes] is keyed on [id]: in a table
    where [id] is a key, submitting two rows with the same identifier one
    after the other leaves exactly one row with that identifier, and it is
    the second submission; the second submission adds no row, and the
    table is the one the second submission alone would have left. *)
Theorem anime_upsert_in_place (v1 v2 : Animes.row) (d : Db) :
  NoDup (map Animes.id (animes d)) ->
  Animes.id v1 = Animes.id v2 ->
  let d1 := sql_upsert_anime v1 d in
  let d2 := sql_upsert_anime v2 d1 in
  filter (fun x => Animes.id x =? Animes.id v2) (animes d2) = [v2]
  /\ List.length (animes d2) = List.length (animes d1)
  /\ d2 = sql_upsert_anime v2 d
  /\ NoDup (map Animes.id (animes d2)).
Proof.
  intros K E d1 d2. unfold d2, d1, sql_upsert_anime. cbn [animes anime_episodes].
  rewrite (insert_anime_twice v1 v2 (animes d) E).
  repeat split.
  - apply (rows_insert_anime v2), K.
  - rewrite <- (insert_anime_twice v1 v2 (animes d) E).
    apply length_insert_anime. rewrite <- E.
    apply (find_some_id (Animes.id v1) _ v1), find_insert_anime.
  - now apply insert_anime_key.
Qed.

(** C1, as the code has it. On a cache miss of [/anime/name] the episode
    rows are upserted first (one batch statement, sent only when there is
    at least one episode) and the anime row after them. If the episode
    statement fails the request is answered 500 and neither table has
    changed: no anime row has been written. If the anime statement fails
    the request is answered 500 and the episode rows stay committed. If
    both pass, the answer is the assembled anime and both tables are
    written. *)
Theorem name_persists_episodes_then_anime (req : Request) (q : jsstring)
    (w : World) (anime : Media.t) :
  cache_miss req q w anime ->
  let eps := final_episodes anime in
  let v := anime_values anime (clean_description anime) in
  let calls :=
    PoolQuery (name_select req q) :: api_calls (sanitizedQuery q) anime in
  (is_empty eps = false ->
   db_fault env (UpsertEpisodes eps) (db w) = true ->
   anime_name req w
   = (Ok {| status := 500; body := internal_error |},
      {| db := db w;
         trace := trace w ++ calls ++ [PoolQuery (UpsertEpisodes eps)] |}))
  /\ (is_empty eps = true
        \/ db_fault env (UpsertEpisodes eps) (db w) = false ->
      db_fault env (UpsertAnime v) (sql_upsert_episodes eps (db w)) = true ->
      anime_name req w
      = (Ok {| status := 500; body := internal_error |},
         {| db := sql_upsert_episodes eps (db w);
            trace := trace w ++ calls ++ episode_statement eps
                       ++ [PoolQuery (UpsertAnime v)] |}))
  /\ (is_empty eps = true
        \/ db_fault env (UpsertEpisodes eps) (db w) = false ->
      db_fault env (UpsertAnime v) (sql_upsert_episodes eps (db w)) = false ->
      anime_name req w
      = (Ok (api_response anime),
         {| db := sql_upsert_anime v (sql_upsert_episodes eps (db w));
            trace := trace w ++ calls ++ episode_statement eps
                       ++ [PoolQuery (UpsertAnime v)] |})).
Proof.
  intros M eps v calls.
  rewrite (anime_name_miss req q w anime M).
  destruct M as (_ & _ & _ & A).
  rewrite (name_from_api_run _ anime _ A).
  fold eps; fold v. cbn [db logged trace]. unfold calls.
  rewrite after_episodes_eq.
  repeat split.
  - intros E F. rewrite E, F. cbn [negb andb]. unfold logged; cbn [db trace].
    now rewrite <- !app_assoc.
  - intros EF F. replace (negb (is_empty eps) && _) with false
      by (destruct EF as [-> | ->]; [reflexivity | now rewrite andb_false_r]).
    rewrite F. now rewrite <- !app_assoc.
  - intros EF F. replace (negb (is_empty eps) && _) with false
      by (destruct EF as [-> | ->]; [reflexivity | now rewrite andb_false_r]).
    rewrite F. now rewrite <- !app_assoc.
Qed.

Lemma translated_fallback (text targetLang : jsstring) :
  translation_fails text targetLang ->
  translated text targetLang = translation_unavailable.
Proof.
  unfold translated. intros [H|[json H]]; now rewrite H.
Qed.

(** A cache miss on a working database. *)
Lemma anime_name_miss_ok (req : Request) (q : jsstring) (w : World)
    (anime : Media.t) :
  cache_miss req q w anime -> healthy ->
  anime_name req w
  = (Ok (api_response anime),
     {| db := sql_upsert_anime (anime_values anime (clean_description anime))
                (sql_upsert_episodes (final_episodes anime) (db w));
        trace := trace w
                 ++ (PoolQuery (name_select req q)
                       :: api_calls (sanitizedQuery q) anime)
                 ++ episode_statement (final_episodes anime)
                 ++ [PoolQuery
                       (UpsertAnime
                          (anime_values anime (clean_description anime)))] |}).
Proof.
  intros M H.
  rewrite (anime_name_miss req q w anime M).
  destruct M as (_ & _ & _ & A).
  rewrite (name_from_api_run _ anime _ A), !H, andb_false_r.
  rewrite after_episodes_eq. cbn [db logged trace].
  now rewrite <- !app_assoc.
Qed.

(** C2. [translateText] never throws: whatever DeepL does, it resolves to
    a string, and to the fixed fallback ['Tradução indisponível'] on a
    transport failure or a non-success response. When that happens to the
    description on a cache miss of [/anime/name] (database working, and
    the sanitizer leaving the tag-free fallback as it is), the request is
    still answered 200 and the description returned and the description
    stored are both the fallback. *)
Theorem translation_failure_is_absorbed :
  (forall text targetLang w,
     translateText text targetLang w
     = (Ok (translated text targetLang), logged w [Fetch text targetLang]))
  /\ (forall text targetLang,
        translation_fails text targetLang ->
        translated text targetLang = translation_unavailable)
  /\ (forall req q w anime,
        cache_miss req q w anime ->
        healthy ->
        translation_fails (description_text anime) PT_BR ->
        sanitizeHtml translation_unavailable = translation_unavailable ->
        exists r w' stored,
          anime_name req w = (Ok r, w')
          /\ status r = 200
          /\ body r
             = BodyName api
                 [ApiResult (api_anime anime translation_unavailable)
                    (map api_episode (final_episodes anime))]
                 (Some 1) (Some 1)
          /\ r_description (api_anime anime translation_unavailable)
             = translation_unavailable
          /\ find_anime (Media.id anime) (animes (db w')) = Some stored
          /\ Animes.description stored = Some translation_unavailable).
Proof.
  split; [exact translateText_run|].
  split; [exact translated_fallback|].
  intros req q w anime M H F S.
  assert (C : clean_description anime = translation_unavailable)
    by (unfold clean_description; now rewrite translated_fallback).
  exists (api_response anime). eexists. eexists.
  split; [apply (anime_name_miss_ok req q w anime M H)|].
  split; [reflexivity|].
  split; [unfold api_response; cbn [body]; now rewrite C|].
  split; [reflexivity|].
  cbn [db animes sql_upsert_anime].
  split; [apply (find_insert_anime (anime_values anime (clean_description anime)))|].
  rewrite C. reflexivity.
Qed.

Lemma final_keys_NoDup (anime : Media.t) :
  NoDup (map anime_episodes_key (final_episodes anime)).
Proof.
  destruct (Media.streamingEpisodes anime) as [l|] eqn:E.
  - rewrite (final_episodes_rows anime l E). unfold mapi.
    rewrite map_mapi_from. unfold anime_episodes_key, final_row.
    cbn [AnimeEpisodes.anime_id AnimeEpisodes.episode_number].
    rewrite (mapi_from_index (fun n => (Media.id anime, Z.of_nat n + 1))).
    apply Injective_map_NoDup; [|apply seq_NoDup].
    intros a b H. inversion H. lia.
  - rewrite (final_episodes_none anime E). constructor.
Qed.

Lemma final_numbers (anime : Media.t) (l : list StreamingEpisode.t) :
  Media.streamingEpisodes anime = Some l ->
  map AnimeEpisodes.episode_number (final_episodes anime)
  = map Z.of_nat (seq 1 (List.length l)).
Proof.
  intro E. rewrite (final_episodes_rows anime l E). unfold mapi.
  rewrite map_mapi_from. unfold final_row.
  cbn [AnimeEpisodes.episode_number].
  rewrite (mapi_from_index (fun n => Z.of_nat n + 1)).
  rewrite <- seq_shift, map_map. apply map_ext. intro n. lia.
Qed.

(** C3. On a cache miss of [/anime/name] answered with [N] streaming
    episodes (database working), the request succeeds; the rows it builds
    are those of the entries in listing order, the row of the entry at
    position [k] (from 0) carrying number [k + 1]; the numbers bound by
    the batch statement and the numbers of the answer are exactly
    [1..N]; after the request the row stored under [(id, k + 1)] is the
    row of entry [k], and no other key of [anime_episodes] has changed. *)
Theorem episodes_numbered_by_position (req : Request) (q : jsstring)
    (w : World) (anime : Media.t) (l : list StreamingEpisode.t) :
  cache_miss req q w anime ->
  healthy ->
  Media.streamingEpisodes anime = Some l ->
  exists r w',
    anime_name req w = (Ok r, w')
    /\ status r = 200
    /\ final_episodes anime = mapi (final_row anime) l
    /\ map AnimeEpisodes.episode_number (final_episodes anime)
       = map Z.of_nat (seq 1 (List.length l))
    /\ api_numbers r = map Z.of_nat (seq 1 (List.length l))
    /\ (is_empty l = false ->
        In (PoolQuery (UpsertEpisodes (final_episodes anime))) (trace w'))
    /\ (forall k ep,
          nth_error l k = Some ep ->
          find_episode (Media.id anime, Z.of_nat k + 1)
            (anime_episodes (db w')) = Some (final_row anime k ep))
    /\ (forall key,
          ~ In key (map anime_episodes_key (final_episodes anime)) ->
          find_episode key (anime_episodes (db w'))
          = find_episode key (anime_episodes (db w))).
Proof.
  intros M H E.
  exists (api_response anime). eexists.
  split; [apply (anime_name_miss_ok req q w anime M H)|].
  split; [reflexivity|].
  split; [apply (final_episodes_rows anime l E)|].
  split; [apply (final_numbers anime l E)|].
  split.
  { unfold api_numbers, api_response. cbn [body].
    rewrite map_map. cbn [api_episode r_number].
    apply (final_numbers anime l E). }
  cbn [db trace animes anime_episodes sql_upsert_anime sql_upsert_episodes].
  split.
  { intro N. apply in_or_app; right. apply in_or_app; right.
    apply in_or_app; left. unfold episode_statement.
    rewrite (final_episodes_rows anime l E).
    destruct l; [discriminate | now left]. }
  split.
  - intros k ep K.
    change (Media.id anime, Z.of_nat k + 1)
      with (anime_episodes_key (final_row anime k ep)).
    apply find_upsert_episodes; [apply final_keys_NoDup|].
    rewrite (final_episodes_rows anime l E). unfold mapi.
    apply (nth_error_In _ k). now rewrite nth_error_mapi_from, K.
  - intros key K. now apply find_upsert_episodes_other.
Qed.

Lemma ids_insert_titles (v : Titles) (t : list Animes.row) :
  map Animes.id (insert_titles v t)
  = if existsb (fun x => animes_key x =? t_id v) t
    then map Animes.id t
    else map Animes.id t ++ [t_id v].
Proof.
  induction t as [|x t IH]; simpl; [reflexivity|].
  destruct (animes_key x =? t_id v) eqn:E; simpl; [reflexivity|].
  rewrite IH. now destruct (existsb _ t).
Qed.

(** The four-column statement keeps the primary key a key as well. *)
Lemma insert_titles_key (v : Titles) (t : list Animes.row) :
  NoDup (map Animes.id t) -> NoDup (map Animes.id (insert_titles v t)).
Proof.
  intro H. rewrite ids_insert_titles.
  destruct (existsb _ t) eqn:E; [exact H|].
  apply existsb_key_false in E.
  apply NoDup_app; [ exact H | repeat constructor; simpl; tauto | ].
  intros a Ha [<-|[]]. contradiction.
Qed.

Lemma find_insert_titles_other (k : Z) (v : Titles) (t : list Animes.row) :
  k <> t_id v ->
  find_anime k (insert_titles v t) = find_anime k t.
Proof.
  intro N. unfold find_anime, animes_key.
  induction t as [|x t IH]; cbn [insert_titles find Animes.id].
  - apply Z.eqb_neq in N. rewrite Z.eqb_sym in N. now rewrite N.
  - unfold animes_key.
    destruct (Animes.id x =? t_id v) eqn:E; cbn [find Animes.id].
    + apply Z.eqb_eq in E. rewrite E.
      assert (F : (t_id v =? k) = false) by (apply Z.eqb_neq; congruence).
      now rewrite F.
    + now rewrite IH.
Qed.

Lemma find_upsert_titles_other (k : Z) (vs : list Titles)
    (t : list Animes.row) :
  ~ In k (map t_id vs) ->
  find_anime k (fold_left (fun t v => insert_titles v t) vs t)
  = find_anime k t.
Proof.
  revert t; induction vs as [|v vs IH]; intros t N; simpl; [reflexivity|].
  simpl in N. rewrite IH by tauto.
  apply find_insert_titles_other. intro E. apply N. now left.
Qed.

(** After the batch, the row of an identifier of the batch holds the
    titles of a tuple of the batch with that identifier. *)
Lemma find_upsert_titles (k : Z) (vs : list Titles) (t : list Animes.row) :
  In k (map t_id vs) ->
  exists r v',
    find_anime k (fold_left (fun t v => insert_titles v t) vs t) = Some r
    /\ In v' vs /\ t_id v' = k /\ titles_of_row r = v'.
Proof.
  revert t; induction vs as [|x vs IH]; intros t I; [destruct I|].
  cbn [fold_left].
  destruct (in_dec Z.eq_dec k (map t_id vs)) as [L|L].
  - destruct (IH (insert_titles x t) L) as (r & v' & F & Iv & Ev & T).
    exists r, v'. repeat split; auto. now right.
  - destruct I as [E|I]; [|contradiction].
    rewrite find_upsert_titles_other by exact L.
    destruct (find_insert_titles x t) as (r & F & T).
    exists r, x. rewrite <- E. repeat split; auto. now left.
Qed.


(** ** Trimming *)

Lemma trimStart_split (s : jsstring) :
  exists pre, s = pre ++ trimStart s /\ all_space pre.
Proof.
  induction s as [|c s (pre & E & A)]; simpl.
  - exists []. split; [reflexivity | constructor].
  - destruct (is_space c) eqn:C.
    + exists (c :: pre). split; [simpl; now rewrite <- E | now constructor].
    + exists []. split; [reflexivity | constructor].
Qed.

Lemma trimStart_head (s : jsstring) (c : codepoint) :
  hd_error (trimStart s) = Some c -> is_space c = false.
Proof.
  induction s as [|a s IH]; simpl; [discriminate|].
  destruct (is_space a) eqn:A; [exact IH|].
  simpl. intro E. inversion E; subst. exact A.
Qed.

Lemma all_space_rev (s : jsstring) : all_space s -> all_space (rev s).
Proof.
  unfold all_space. rewrite !Forall_forall. intros H c I.
  apply H. now apply in_rev.
Qed.

Lemma trimEnd_split (s : jsstring) :
  exists post, s = trimEnd s ++ post /\ all_space post.
Proof.
  unfold trimEnd. destruct (trimStart_split (rev s)) as (pre & E & A).
  exists (rev pre). split; [|now apply all_space_rev].
  rewrite <- rev_app_distr, <- E. now rewrite rev_involutive.
Qed.

Lemma trim_split (s : jsstring) :
  exists pre post,
    s = pre ++ trim s ++ post /\ all_space pre /\ all_space post.
Proof.
  destruct (trimStart_split s) as (pre & E & A).
  destruct (trimEnd_split (trimStart s)) as (post & E' & A').
  exists pre, post. unfold trim. rewrite <- E'. auto.
Qed.

Lemma trim_head (s : jsstring) (c : codepoint) :
  hd_error (trim s) = Some c -> is_space c = false.
Proof.
  unfold trim. destruct (trimEnd_split (trimStart s)) as (post & E & _).
  intro H. apply (trimStart_head s). rewrite E.
  destruct (trimEnd (trimStart s)); [discriminate | exact H].
Qed.

Lemma trim_last (s : jsstring) (c : codepoint) :
  hd_error (rev (trim s)) = Some c -> is_space c = false.
Proof.
  unfold trim, trimEnd. rewrite rev_involutive. apply trimStart_head.
Qed.

(** ** What the routes search for *)

Lemma promise_all_trace {A B} (P : Event -> Prop) (f : A -> M B) :
  (forall x w, exists evs,
      trace (snd (f x w)) = trace w ++ evs /\ Forall P evs) ->
  forall l w, exists evs,
      trace (snd (promise_all f l w)) = trace w ++ evs /\ Forall P evs.
Proof.
  intros H l. induction l as [|x l IH]; intro w; simpl.
  - exists []. split; [now rewrite app_nil_r | constructor].
  - destruct (H x w) as (e1 & T1 & F1).
    destruct (f x w) as [rx w1]. simpl in T1.
    destruct (IH w1) as (e2 & T2 & F2).
    destruct (promise_all f l w1) as [rr w2]. simpl in T2 |- *.
    exists (e1 ++ e2). split.
    + now rewrite T2, T1, app_assoc.
    + apply Forall_app; auto.
Qed.

Lemma name_from_api_trace (s : jsstring) (w : World) :
  exists evs,
    trace (snd (name_from_api s w)) = trace w ++ evs
    /\ Forall (searches_with s) evs.
Proof.
  destruct (anilist_media env s) as [[anime|]|] eqn:A.
  - rewrite (name_from_api_run s anime w A).
    assert (C : Forall (searches_with s) (api_calls s anime)).
    { unfold api_calls. constructor; [reflexivity|].
      constructor; [exact I|].
      apply Forall_forall. intros e Ie.
      apply in_map_iff in Ie as (ep & <- & _). exact I. }
    assert (E : Forall (searches_with s)
                  (episode_statement (final_episodes anime))).
    { unfold episode_statement. destruct (is_empty _); repeat constructor. }
    destruct (negb _ && _).
    + eexists. cbn [snd trace logged]. rewrite <- app_assoc.
      split; [reflexivity|].
      apply Forall_app; split; [exact C | repeat constructor].
    + destruct (db_fault env (UpsertAnime _) _);
        (eexists; cbn [snd trace logged]; rewrite <- app_assoc;
         split; [reflexivity|];
         apply Forall_app; split; [exact C|];
         apply Forall_app; split; [exact E | repeat constructor]).
  - unfold name_from_api, request_media, bind at 1 2.
    rewrite emit_run, A. exists [GraphqlMedia s].
    split; [reflexivity | repeat constructor].
  - unfold name_from_api, request_media, bind at 1 2.
    rewrite emit_run, A. exists [GraphqlMedia s].
    split; [reflexivity | repeat constructor].
Qed.

Lemma anime_name_trace (req : Request) (q : jsstring) (w : World) :
  valid_query req q ->
  exists rest,
    trace (snd (anime_name req w))
    = trace w ++ PoolQuery (name_select req q) :: rest
    /\ Forall (searches_with (sanitizedQuery q)) rest.
Proof.
  intros [Hq Ht]. unfold anime_name. rewrite Hq, Ht.
  unfold try_catch, bind at 1, select_animes.
  fold (name_select req q).
  match goal with |- context [pool_query ?op ?exec w] =>
    pose proof (pool_query_trace op exec w) as T;
    destruct (pool_query op exec w) as [[rows|] w1] end;
    cbn [snd] in T.
  - destruct (negb (is_empty rows)).
    + unfold bind.
      match goal with |- context [promise_all ?f rows w1] =>
        destruct (promise_all_trace (searches_with (sanitizedQuery q)) f)
          with (l := rows) (w := w1) as (evs & T2 & F2);
        [| destruct (promise_all f rows w1) as [[res|] w2] ] end.
      * intros x w0. unfold select_episodes.
        match goal with |- context [pool_query ?op ?exec w0] =>
          pose proof (pool_query_trace op exec w0) as T0;
          destruct (pool_query op exec w0) as [[eps|] w3] end;
          cbn [snd] in T0 |- *;
          (eexists; split; [exact T0 | repeat constructor]).
      * cbn [snd] in T2 |- *. unfold reply, ret. cbn [snd].
        exists evs. rewrite T2, T, <- app_assoc. auto.
      * cbn [snd] in T2 |- *. unfold reply, ret. cbn [snd].
        exists evs. rewrite T2, T, <- app_assoc. auto.
    + destruct (name_from_api_trace (sanitizedQuery q) w1) as (evs & T2 & F2).
      destruct (name_from_api (sanitizedQuery q) w1) as [[r|] w2];
        cbn [snd] in T2 |- *; unfold reply, ret; cbn [snd];
        exists evs; rewrite T2, T, <- app_assoc; auto.
  - unfold reply, ret. cbn [snd]. exists []. rewrite T. auto.
Qed.

Lemma search_api_trace (req : Request) (q : jsstring) (w : World) :
  valid_query req q ->
  exists rest,
    trace (snd (search_api req w))
    = trace w
      ++ GraphqlPage (sanitizedQuery q)
           (parseInt (with_default (page req) 1))
           (parseInt (with_default (perPage req) 10)) :: rest
    /\ Forall (searches_with (sanitizedQuery q)) rest.
Proof.
  intros [Hq Ht]. unfold search_api. rewrite Hq, Ht.
  unfold try_catch, bind at 1, request_page, bind at 1. rewrite emit_run.
  destruct (anilist_page env _ _ _) as [[[|a media]|]|];
    try (exists []; split; [reflexivity | constructor]).
  unfold ret at 1. unfold bind, upsert_titles.
  match goal with |- context [pool_query ?op ?exec ?x] =>
    pose proof (pool_query_trace op exec x) as T;
    destruct (pool_query op exec x) as [[u|] w1] end;
    cbn [snd trace logged] in T |- *; unfold reply, ret; cbn [snd];
    (eexists; rewrite T, <- app_assoc; split;
     [reflexivity | repeat constructor]).
Qed.

Lemma search_titles_trace (req : Request) (q : jsstring) (w : World) :
  valid_query req q ->
  trace (snd (search_titles req w))
  = trace w ++ [PoolQuery (SelectTitles (sanitizedQuery q))].
Proof.
  intros [Hq Ht]. unfold search_titles. rewrite Hq, Ht.
  unfold try_catch, bind, select_titles.
  match goal with |- context [pool_query ?op ?exec w] =>
    pose proof (pool_query_trace op exec w) as T;
    destruct (pool_query op exec w) as [[rows|] w1] end;
    cbn [snd] in T |- *.
  - destruct (negb (is_empty rows)); exact T.
  - exact T.
Qed.

(** C8. The string the routes search with, [sanitizedQuery q], is made of
    letters, numbers and white space only; it is what is left of [q] once
    every character outside these classes is removed, without the white
    space at its two ends; and it neither starts nor ends with white space.
    Each route, once the query is validated, starts with a search for that
    string ([SELECT] for [/anime/search-titles] and [/anime/name], the
    AniList request for [/anime/search-api]) and never searches for
    anything else. *)
Theorem query_normalized (req : Request) (q : jsstring) (w : World) :
  valid_query req q ->
  Forall (fun c => isL c || isN c || is_space c = true) (sanitizedQuery q)
  /\ (exists pre post,
        filter (fun c => isL c || isN c || is_space c) q
        = pre ++ sanitizedQuery q ++ post
        /\ all_space pre /\ all_space post)
  /\ (forall c,
        hd_error (sanitizedQuery q) = Some c
        \/ hd_error (rev (sanitizedQuery q)) = Some c ->
        is_space c = false)
  /\ trace (snd (search_titles req w))
     = trace w ++ [PoolQuery (SelectTitles (sanitizedQuery q))]
  /\ (exists rest,
        trace (snd (search_api req w))
        = trace w
          ++ GraphqlPage (sanitizedQuery q)
               (parseInt (with_default (page req) 1))
               (parseInt (with_default (perPage req) 10)) :: rest
        /\ Forall (searches_with (sanitizedQuery q)) rest)
  /\ (exists rest,
        trace (snd (anime_name req w))
        = trace w ++ PoolQuery (name_select req q) :: rest
        /\ Forall (searches_with (sanitizedQuery q)) rest).
Proof.
  intro V.
  destruct (trim_split (filter (fun c => isL c || isN c || is_space c) q))
    as (pre & post & E & A1 & A2).
  fold (sanitizedQuery q) in E.
  split.
  { assert (K : Forall (fun c => isL c || isN c || is_space c = true)
                  (filter (fun c => isL c || isN c || is_space c) q)).
    { apply Forall_forall. intros c Ic. now apply filter_In in Ic. }
    rewrite E in K. apply Forall_app in K as [_ K].
    now apply Forall_app in K as [K _]. }
  split; [exists pre, post; auto|].
  split.
  { intros c [H|H]; [now apply trim_head in H | now apply trim_last in H]. }
  split; [now apply search_titles_trace|].
  split; [now apply search_api_trace | now apply anime_name_trace].
Qed.

(* ================================================================== *)
(** * Further properties of [src/server.js]                             *)
(* ================================================================== *)

(** X1. [translateText] makes exactly one request to DeepL and leaves the
    tables alone. It resolves to the first translation's text when the
    response is a success carrying a non-empty one, and to the fallback
    ['Tradução indisponível'] when the successful response carries no
    translation, a first translation without text or with an empty text,
    or a body that is not the expected JSON. *)
Theorem translateText_result (text targetLang : jsstring) (w : World) :
  exists s,
    translateText text targetLang w
    = (Ok s, logged w [Fetch text targetLang])
    /\ (forall c t rest,
          deepl env text targetLang
          = FetchResponse true (JsonTranslations (Some (c :: t) :: rest)) ->
          s = c :: t)
    /\ (deepl env text targetLang = FetchResponse true (JsonTranslations []) ->
        s = translation_unavailable)
    /\ (forall rest,
          deepl env text targetLang
          = FetchResponse true (JsonTranslations (None :: rest))
          \/ deepl env text targetLang
             = FetchResponse true (JsonTranslations (Some [] :: rest)) ->
          s = translation_unavailable)
    /\ (deepl env text targetLang = FetchResponse true JsonInvalid
        \/ deepl env text targetLang = FetchResponse true JsonNoTranslations ->
        s = translation_unavailable).
Proof.
  exists (translated text targetLang).
  split; [apply translateText_run|].
  unfold translated. repeat split.
  - intros c t rest H. now rewrite H.
  - intro H. now rewrite H.
  - intros rest [H|H]; now rewrite H.
  - intros [H|H]; now rewrite H.
Qed.

Lemma in_select_titles (s : jsstring) (d : Db) (t : Titles) :
  In t (sql_select_titles s d)
  <-> exists x, In x (animes d) /\ titles_of_row x = t
                /\ where_titles_like s x = true.
Proof.
  unfold sql_select_titles. rewrite in_map_iff. split.
  - intros (x & E & I). apply filter_In in I as [I W]. eauto.
  - intros (x & I & E & W). exists x. split; [exact E|].
    apply filter_In. auto.
Qed.

(** X2. [/anime/search-titles] with a valid query, a working database and
    at least one matching row answers 200 with [source: 'database'], no
    message, and the identifier and three titles of every row of [animes]
    one of whose titles matches the sanitized query, in storage order,
    and of no other row. *)
Theorem search_titles_hit (req : Request) (q : jsstring) (w : World) :
  valid_query req q ->
  db_fault env (SelectTitles (sanitizedQuery q)) (db w) = false ->
  is_empty (sql_select_titles (sanitizedQuery q) (db w)) = false ->
  search_titles req w
  = (Ok {| status := 200;
           body := BodyTitles database
                     (map titles_of_row
                        (filter (where_titles_like (sanitizedQuery q))
                           (animes (db w))))
                     None |},
     logged w [PoolQuery (SelectTitles (sanitizedQuery q))])
  /\ (forall t,
        In t (map titles_of_row
                (filter (where_titles_like (sanitizedQuery q))
                   (animes (db w))))
        <-> exists x, In x (animes (db w)) /\ titles_of_row x = t
                      /\ where_titles_like (sanitizedQuery q) x = true).
Proof.
  intros [Hq Ht] Hf Hn. split.
  - unfold search_titles. rewrite Hq, Ht.
    unfold try_catch, bind, select_titles.
    erewrite pool_query_ok; [| exact Hf | reflexivity].
    rewrite Hn. reflexivity.
  - intro t. apply (in_select_titles (sanitizedQuery q) (db w) t).
Qed.

(** X3. [/anime/search-titles] never writes: on every path the two tables
    are after the request what they were before. When its [SELECT] fails
    it answers 500 with the generic error body. *)
Theorem search_titles_read_only (req : Request) (w : World) :
  db (snd (search_titles req w)) = db w
  /\ (forall q,
        valid_query req q ->
        db_fault env (SelectTitles (sanitizedQuery q)) (db w) = true ->
        search_titles req w
        = (Ok {| status := 500; body := internal_error |},
           logged w [PoolQuery (SelectTitles (sanitizedQuery q))])).
Proof.
  split.
  - unfold search_titles.
    destruct (query req) as [|q|l]; try reflexivity.
    destruct (is_empty (trim q)); [reflexivity|].
    unfold try_catch, bind, select_titles, pool_query, bind, emit.
    cbn [db logged].
    destruct (db_fault env _ (db w)); [reflexivity|].
    cbn [db]. destruct (negb _); reflexivity.
  - intros q [Hq Ht] Hf. unfold search_titles. rewrite Hq, Ht.
    unfold try_catch, bind, select_titles.
    rewrite pool_query_fault by exact Hf. reflexivity.
Qed.

(** X4. [/anime/search-api] answers 404 when AniList returns no page or an
    empty page: the one outbound call is the AniList request, no statement
    is sent and the tables are unchanged. *)
Theorem search_api_not_found (req : Request) (q : jsstring) (w : World) :
  valid_query req q ->
  anilist_page env (sanitizedQuery q)
    (parseInt (with_default (page req) 1))
    (parseInt (with_default (perPage req) 10)) = Some None
  \/ anilist_page env (sanitizedQuery q)
       (parseInt (with_default (page req) 1))
       (parseInt (with_default (perPage req) 10)) = Some (Some []) ->
  search_api req w
  = (Ok {| status := 404;
           body := BodyError (lit "Nenhum anime encontrado na API.") |},
     logged w [GraphqlPage (sanitizedQuery q)
                 (parseInt (with_default (page req) 1))
                 (parseInt (with_default (perPage req) 10))]).
Proof.
  intros [Hq Ht] A. unfold search_api. rewrite Hq, Ht.
  unfold try_catch, bind at 1, request_page, bind at 1. rewrite emit_run.
  destruct A as [A|A]; rewrite A; reflexivity.
Qed.

(** X5. [/anime/search-api] answers 500 when the AniList request rejects,
    without sending any statement, and 500 when the upsert of the titles
    fails, in which case both tables are unchanged. *)
Theorem search_api_failure (req : Request) (q : jsstring) (w : World) :
  valid_query req q ->
  (anilist_page env (sanitizedQuery q)
     (parseInt (with_default (page req) 1))
     (parseInt (with_default (perPage req) 10)) = None ->
   search_api req w
   = (Ok {| status := 500; body := internal_error |},
      logged w [GraphqlPage (sanitizedQuery q)
                  (parseInt (with_default (page req) 1))
                  (parseInt (with_default (perPage req) 10))]))
  /\ (forall media,
        anilist_page env (sanitizedQuery q)
          (parseInt (with_default (page req) 1))
          (parseInt (with_default (perPage req) 10)) = Some (Some media) ->
        is_empty media = false ->
        db_fault env (UpsertTitles (map title_values media)) (db w) = true ->
        search_api req w
        = (Ok {| status := 500; body := internal_error |},
           logged w [GraphqlPage (sanitizedQuery q)
                       (parseInt (with_default (page req) 1))
                       (parseInt (with_default (perPage req) 10));
                     PoolQuery (UpsertTitles (map title_values media))])).
Proof.
  intros [Hq Ht]. split.
  - intro A. unfold search_api. rewrite Hq, Ht.
    unfold try_catch, bind at 1, request_page, bind at 1.
    rewrite emit_run, A. reflexivity.
  - intros media A N F. unfold search_api. rewrite Hq, Ht.
    unfold try_catch, bind at 1, request_page, bind at 1.
    rewrite emit_run, A. unfold ret at 1.
    destruct media as [|a media]; [discriminate|].
    unfold bind, upsert_titles.
    rewrite pool_query_fault by exact F.
    unfold reply, ret. now rewrite logged_app.
Qed.

(** ** [/anime/name]: the cache hit and the failures before any write *)

Lemma episodes_task_run (x : Animes.row) (w : World) :
  episodes_task x w
  = (if db_fault env (SelectEpisodes (Animes.id x)) (db w) then Throw
     else Ok (DbResult x (sql_select_episodes (Animes.id x) (db w))),
     logged w [PoolQuery (SelectEpisodes (Animes.id x))]).
Proof.
  unfold episodes_task, bind, select_episodes.
  destruct (db_fault env (SelectEpisodes (Animes.id x)) (db w)) eqn:F.
  - now rewrite pool_query_fault by exact F.
  - erewrite pool_query_ok; [| exact F | reflexivity]. reflexivity.
Qed.

Lemma promise_all_episodes (rows : list Animes.row) (w : World) :
  promise_all episodes_task rows w
  = (if episode_select_fails rows (db w) then Throw
     else Ok (hit_results rows (db w)),
     logged w (episode_selects rows)).
Proof.
  revert w; induction rows as [|x rows IH]; intro w.
  - cbn. now rewrite logged_nil.
  - cbn [promise_all]. rewrite episodes_task_run, IH, logged_app.
    cbn [db logged episode_select_fails existsb hit_results map
         episode_selects app].
    fold (episode_select_fails rows (db w)). fold (hit_results rows (db w)).
    destruct (db_fault env (SelectEpisodes (Animes.id x)) (db w));
      destruct (episode_select_fails rows (db w)); reflexivity.
Qed.

(** Once the first statement has returned [rows]. *)
Lemma anime_name_selected (req : Request) (q : jsstring) (w : World)
    (rows : list Animes.row) :
  valid_query req q ->
  db_fault env (name_select req q) (db w) = false ->
  sql_select_animes (sanitizedQuery q)
    (parseInt (with_default (limit req) 10)) (name_offset req) (db w)
  = Some rows ->
  anime_name req w =
    match
      (if negb (is_empty rows) then
         (animeResults <- promise_all episodes_task rows ;;
          reply 200
            (BodyName database animeResults
               (parseInt (with_default (page req) 1))
               (parseInt (with_default (limit req) 10))))%M
       else name_from_api (sanitizedQuery q))
        (logged w [PoolQuery (name_select req q)])
    with
    | (Ok r, w') => (Ok r, w')
    | (Throw, w') => (Ok {| status := 500; body := internal_error |}, w')
    end.
Proof.
  intros [Hq Ht] Hf Hs.
  unfold anime_name. rewrite Hq, Ht.
  unfold try_catch, bind at 1, select_animes.
  erewrite pool_query_ok;
    [| exact Hf | unfold name_offset in Hs; rewrite Hs; reflexivity ].
  fold (name_select req q). reflexivity.
Qed.

Lemma select_animes_page (s : jsstring) (l o : Z) (d : Db) :
  is_empty (page_of s l o d) = false ->
  sql_select_animes s (Some l) (Some o) d = Some (page_of s l o d).
Proof.
  unfold page_of.
  destruct (sql_select_animes s (Some l) (Some o) d); [reflexivity|].
  discriminate.
Qed.

(** X6. A cache hit of [/anime/name]: when the page cut out of the rows
    matching the sanitized query by the bounds the code computes, the
    double [parseInt(limit)] and [parseInt(offset)] for the double
    [offset = (parseInt(page) - 1) * parseInt(limit)], is not empty and
    every statement runs, the answer is 200 with [source: 'database'], the
    rows of that page in storage order, each with the rows of
    [anime_episodes] of its identifier in storage order, and [page] and
    [limit] as [parseInt] reads them. The request sends one episode
    [SELECT] per row after the first statement, contacts neither AniList
    nor DeepL and leaves the tables as they were. *)
Theorem name_hit_answer (req : Request) (q : jsstring) (w : World)
    (l o : Z) :
  valid_query req q ->
  parseInt (with_default (limit req) 10) = Some l ->
  name_offset req = Some o ->
  0 <= l -> 0 <= o ->
  is_empty (page_of (sanitizedQuery q) l o (db w)) = false ->
  db_fault env (name_select req q) (db w) = false ->
  episode_select_fails (page_of (sanitizedQuery q) l o (db w)) (db w)
  = false ->
  anime_name req w
  = (Ok {| status := 200;
           body := BodyName database
                     (map (fun x =>
                             DbResult x
                               (map view_of_row
                                  (filter
                                     (fun e => AnimeEpisodes.anime_id e
                                               =? Animes.id x)
                                     (anime_episodes (db w)))))
                        (page_of (sanitizedQuery q) l o (db w)))
                     (parseInt (with_default (page req) 1)) (Some l) |},
     {| db := db w;
        trace := trace w
                 ++ PoolQuery (name_select req q)
                    :: map (fun x => PoolQuery (SelectEpisodes (Animes.id x)))
                         (page_of (sanitizedQuery q) l o (db w)) |}).
Proof.
  intros V Hl Ho L O N F E.
  rewrite (anime_name_selected req q w (page_of (sanitizedQuery q) l o (db w)) V F)
    by (rewrite Hl, Ho; now apply select_animes_page).
  rewrite N. cbn [negb]. unfold bind.
  rewrite promise_all_episodes. cbn [db logged]. rewrite E.
  unfold reply, ret. rewrite Hl, logged_app. reflexivity.
Qed.

(** X7. On a cache hit of [/anime/name], if the episode [SELECT] of any
    row of the page fails the answer is 500 with the generic error body
    and no results at all, although the episode [SELECT] of every row has
    been sent; the tables are as they were. *)
Theorem name_hit_episode_failure (req : Request) (q : jsstring) (w : World)
    (l o : Z) :
  valid_query req q ->
  parseInt (with_default (limit req) 10) = Some l ->
  name_offset req = Some o ->
  0 <= l -> 0 <= o ->
  is_empty (page_of (sanitizedQuery q) l o (db w)) = false ->
  db_fault env (name_select req q) (db w) = false ->
  existsb (fun x => db_fault env (SelectEpisodes (Animes.id x)) (db w))
    (page_of (sanitizedQuery q) l o (db w)) = true ->
  anime_name req w
  = (Ok {| status := 500; body := internal_error |},
     {| db := db w;
        trace := trace w
                 ++ PoolQuery (name_select req q)
                    :: map (fun x => PoolQuery (SelectEpisodes (Animes.id x)))
                         (page_of (sanitizedQuery q) l o (db w)) |}).
Proof.
  intros V Hl Ho L O N F E.
  rewrite (anime_name_selected req q w (page_of (sanitizedQuery q) l o (db w)) V F)
    by (rewrite Hl, Ho; now apply select_animes_page).
  rewrite N. cbn [negb]. unfold bind.
  rewrite promise_all_episodes. cbn [db logged].
  unfold episode_select_fails. rewrite E, logged_app. reflexivity.
Qed.

Lemma anime_name_misses (req : Request) (q : jsstring) (w : World) :
  misses req q w ->
  anime_name req w =
    match name_from_api (sanitizedQuery q)
            (logged w [PoolQuery (name_select req q)]) with
    | (Ok r, w') => (Ok r, w')
    | (Throw, w') => (Ok {| status := 500; body := internal_error |}, w')
    end.
Proof.
  intros (V & F & S). now rewrite (anime_name_selected req q w [] V F S).
Qed.

(** X8. On a cache miss of [/anime/name], when AniList finds no anime the
    answer is 404, and when the AniList request rejects the answer is
    500; in both cases DeepL is not contacted, no statement but the first
    [SELECT] is sent and the tables are as they were. *)
Theorem name_miss_without_anime (req : Request) (q : jsstring) (w : World) :
  misses req q w ->
  (anilist_media env (sanitizedQuery q) = Some None ->
   anime_name req w
   = (Ok {| status := 404;
            body := BodyError (lit "Anime não encontrado na AniList API.") |},
      logged w [PoolQuery (name_select req q);
                GraphqlMedia (sanitizedQuery q)]))
  /\ (anilist_media env (sanitizedQuery q) = None ->
      anime_name req w
      = (Ok {| status := 500; body := internal_error |},
         logged w [PoolQuery (name_select req q);
                   GraphqlMedia (sanitizedQuery q)])).
Proof.
  intro M. rewrite (anime_name_misses req q w M).
  split; intro A;
    unfold name_from_api, request_media, bind at 1 2;
    rewrite emit_run, A; [unfold ret at 1 | unfold throw];
    cbn beta iota; unfold reply, ret; f_equal;
    apply (logged_app w [PoolQuery (name_select req q)]
             [GraphqlMedia (sanitizedQuery q)]).
Qed.

Lemma select_animes_bad (s : jsstring) (limit offset : num) (d : Db) :
  bad_bounds limit offset -> sql_select_animes s limit offset d = None.
Proof.
  unfold bad_bounds, sql_select_animes.
  destruct limit as [l|], offset as [o|]; try reflexivity.
  intros [H|H].
  - apply Z.ltb_lt in H. now rewrite H.
  - apply Z.ltb_lt in H. rewrite H. now rewrite orb_true_r.
Qed.

(** X9. [/anime/name] with a valid query whose [limit] or [page] does not
    parse to a number, or whose [limit] or offset [(page - 1) * limit] is
    negative (as for [page=0]), is answered 500, not 400: the first
    [SELECT] is rejected, AniList is not contacted and nothing is written. *)
Theorem name_bad_pagination (req : Request) (q : jsstring) (w : World) :
  valid_query req q ->
  bad_bounds (parseInt (with_default (limit req) 10)) (name_offset req) ->
  anime_name req w
  = (Ok {| status := 500; body := internal_error |},
     logged w [PoolQuery (name_select req q)]).
Proof.
  intros [Hq Ht] B. unfold anime_name. rewrite Hq, Ht.
  unfold try_catch, bind at 1, select_animes, pool_query, bind, emit.
  cbn [db logged trace].
  fold (name_offset req). fold (name_select req q).
  rewrite (select_animes_bad _ _ _ (db w) B).
  destruct (db_fault env _ (db w)); reflexivity.
Qed.

Lemma name_from_api_first (s : jsstring) (w : World) :
  exists rest,
    trace (snd (name_from_api s w)) = trace w ++ GraphqlMedia s :: rest.
Proof.
  destruct (anilist_media env s) as [[anime|]|] eqn:A.
  - rewrite (name_from_api_run s anime w A).
    destruct (negb _ && _); [|destruct (db_fault env (UpsertAnime _) _)];
      cbn [snd trace logged]; unfold api_calls;
      rewrite <- ?app_assoc; cbn [app]; eexists; reflexivity.
  - unfold name_from_api, request_media, bind at 1 2.
    rewrite emit_run, A. exists []. reflexivity.
  - unfold name_from_api, request_media, bind at 1 2.
    rewrite emit_run, A. exists []. reflexivity.
Qed.

Lemma anime_name_rejected (req : Request) (q : jsstring) (w : World) :
  valid_query req q ->
  sql_select_animes (sanitizedQuery q)
    (parseInt (with_default (limit req) 10)) (name_offset req) (db w)
  = None ->
  anime_name req w
  = (Ok {| status := 500; body := internal_error |},
     logged w [PoolQuery (name_select req q)]).
Proof.
  intros [Hq Ht] B. unfold anime_name. rewrite Hq, Ht.
  unfold try_catch, bind at 1, select_animes, pool_query, bind, emit.
  cbn [db logged trace].
  fold (name_offset req). fold (name_select req q).
  rewrite B.
  destruct (db_fault env _ (db w)); reflexivity.
Qed.

(** What [parseInt(offset)] is under [limit=0]: [0] when [page - 1] is
    finite, and not a number otherwise ([Infinity * 0] and [NaN * 0] are
    [NaN]). *)
Lemma name_offset_limit_zero (req : Request) :
  parseInt (with_default (limit req) 10) = Some 0 ->
  name_offset req
  = match num_sub (parseInt (with_default (page req) 1)) (Some 1) with
    | Some _ => Some 0
    | None => None
    end.
Proof.
  intro Hl. unfold name_offset. rewrite Hl.
  destruct (num_sub _ _) as [p1|]; [|reflexivity].
  cbn [num_mul]. rewrite Z.mul_0_r. reflexivity.
Qed.

(** X10. [/anime/name] with [limit=0] never answers from the database:
    [LIMIT 0] returns no row whatever [animes] holds.  With a valid query,
    when [parseInt(page) - 1] is a finite number and the first statement
    runs, the request goes on to AniList; when [page] does not parse to a
    finite number ([page=abc], or a run of 400 digits, which parses to
    [Infinity]) the offset is [NaN], the statement is rejected and the
    answer is 500 without any call to AniList. *)
Theorem name_limit_zero (req : Request) (q : jsstring) (w : World) :
  valid_query req q ->
  parseInt (with_default (limit req) 10) = Some 0 ->
  (forall r results pg lm,
     fst (anime_name req w) = Ok r ->
     body r <> BodyName database results pg lm)
  /\ (forall p1,
        num_sub (parseInt (with_default (page req) 1)) (Some 1) = Some p1 ->
        db_fault env (name_select req q) (db w) = false ->
        exists rest,
          trace (snd (anime_name req w))
          = trace w ++ PoolQuery (name_select req q)
              :: GraphqlMedia (sanitizedQuery q) :: rest)
  /\ (num_sub (parseInt (with_default (page req) 1)) (Some 1) = None ->
      anime_name req w
      = (Ok {| status := 500; body := internal_error |},
         logged w [PoolQuery (name_select req q)])).
Proof.
  intros V Hl.
  pose proof (name_offset_limit_zero req Hl) as O.
  assert (S : forall p1,
             num_sub (parseInt (with_default (page req) 1)) (Some 1)
             = Some p1 ->
             sql_select_animes (sanitizedQuery q)
               (parseInt (with_default (limit req) 10)) (name_offset req)
               (db w) = Some []).
  { intros p1 P. rewrite O, P, Hl. reflexivity. }
  assert (R : num_sub (parseInt (with_default (page req) 1)) (Some 1) = None ->
              sql_select_animes (sanitizedQuery q)
                (parseInt (with_default (limit req) 10)) (name_offset req)
                (db w) = None).
  { intro P. rewrite O, P, Hl. reflexivity. }
  assert (D : forall r results pg lm,
             fst (match name_from_api (sanitizedQuery q)
                          (logged w [PoolQuery (name_select req q)]) with
                  | (Ok r, w') => (Ok r, w')
                  | (Throw, w') =>
                      (Ok {| status := 500; body := internal_error |}, w')
                  end) = Ok r ->
             body r <> BodyName database results pg lm).
  { intros r results pg lm.
    destruct (name_from_api (sanitizedQuery q)
                (logged w [PoolQuery (name_select req q)]))
      as [[r0|] w'] eqn:N; cbn [fst]; intro E; inversion E; subst r.
    - apply name_from_api_answer in N as [[e ->]|[res ->]];
        cbn [body]; discriminate.
    - cbn [body]. unfold internal_error. discriminate. }
  split; [|split].
  - intros r results pg lm.
    destruct (num_sub (parseInt (with_default (page req) 1)) (Some 1))
      as [p1|] eqn:P.
    + destruct (db_fault env (name_select req q) (db w)) eqn:F.
      * destruct V as [Hq Ht]. unfold anime_name. rewrite Hq, Ht.
        unfold try_catch, bind at 1, select_animes.
        rewrite pool_query_fault
          by (fold (name_offset req); fold (name_select req q); exact F).
        cbn [fst]. intro E; inversion E; subst r.
        cbn [body]. unfold internal_error. discriminate.
      * rewrite (anime_name_misses req q w
                   (conj V (conj F (S p1 eq_refl)))).
        apply D.
    + rewrite (anime_name_rejected req q w V (R eq_refl)).
      cbn [fst]. intro E; inversion E; subst r.
      cbn [body]. unfold internal_error. discriminate.
  - intros p1 P F.
    rewrite (anime_name_misses req q w (conj V (conj F (S p1 P)))).
    destruct (name_from_api_first (sanitizedQuery q)
                (logged w [PoolQuery (name_select req q)])) as (rest & T).
    exists rest.
    destruct (name_from_api (sanitizedQuery q)
                (logged w [PoolQuery (name_select req q)]))
      as [[r|] w'] eqn:N; cbn [snd] in T |- *;
      rewrite T; cbn [trace logged]; now rewrite <- app_assoc.
  - intro P. exact (anime_name_rejected req q w V (R P)).
Qed.

Lemma mapi_from_const {A B} (h : A -> B) (l : list A) (i : nat) :
  mapi_from i (fun _ x => h x) l = map h l.
Proof. revert i; induction l; intro i; simpl; [|rewrite IHl]; auto. Qed.

Lemma title_fetches (anime : Media.t) :
  map (fun ep => Fetch (title_text ep) PT_BR) (episodes_of anime)
  = map (fun ep => Fetch (episode_text ep) PT_BR) (streaming anime).
Proof.
  unfold episodes_of, streaming.
  destruct (Media.streamingEpisodes anime) as [l|]; [|reflexivity].
  unfold mapi. rewrite map_mapi_from.
  apply (mapi_from_const (fun ep => Fetch (episode_text ep) PT_BR)).
Qed.

Lemma final_episodes_streaming (anime : Media.t) :
  final_episodes anime = mapi (final_row anime) (streaming anime).
Proof.
  unfold streaming.
  destruct (Media.streamingEpisodes anime) as [l|] eqn:E.
  - apply (final_episodes_rows anime l E).
  - apply (final_episodes_none anime E).
Qed.

(** X11. On a cache miss of [/anime/name] answered by AniList with an
    anime of [N] streaming episodes, the request makes exactly [1 + N]
    requests to DeepL, the description first (the empty text when it is
    null) and then the title of every episode in listing order (the empty
    text for an episode without title), all with target [PT-BR] and all
    before any write; after them come at most two statements, both writes.
    This holds whether or not a write then fails. *)
Theorem name_miss_translations (req : Request) (q : jsstring) (w : World)
    (anime : Media.t) :
  cache_miss req q w anime ->
  exists tail,
    trace (snd (anime_name req w))
    = trace w
      ++ PoolQuery (name_select req q)
         :: GraphqlMedia (sanitizedQuery q)
         :: Fetch (or_else (Media.description anime) []) PT_BR
         :: map (fun ep => Fetch (episode_text ep) PT_BR) (streaming anime)
      ++ tail
    /\ Forall (fun e => is_write e = true) tail
    /\ (List.length tail <= 2)%nat.
Proof.
  intro M. rewrite (anime_name_miss req q w anime M).
  destruct M as (_ & _ & _ & A).
  rewrite (name_from_api_run _ anime _ A).
  unfold api_calls, description_text. rewrite title_fetches.
  assert (E : Forall (fun e => is_write e = true)
                (episode_statement (final_episodes anime))
              /\ (List.length (episode_statement (final_episodes anime)) <= 1)%nat).
  { unfold episode_statement. destruct (is_empty _); cbn; split;
      repeat constructor. }
  destruct E as [E1 E2].
  destruct (negb _ && _).
  - exists [PoolQuery (UpsertEpisodes (final_episodes anime))].
    cbn [snd trace logged]. rewrite <- !app_assoc. cbn [app].
    split; [reflexivity|]. split; [repeat constructor | cbn; lia].
  - destruct (db_fault env (UpsertAnime _) _);
      (exists (episode_statement (final_episodes anime)
               ++ [PoolQuery (UpsertAnime
                                (anime_values anime (clean_description anime)))]);
       cbn [snd trace logged]; rewrite <- !app_assoc; cbn [app];
       split; [reflexivity|]; split;
       [apply Forall_app; split; [exact E1 | repeat constructor]
       | rewrite length_app; cbn; lia]).
Qed.

(** X12. On a cache miss of [/anime/name] answered with an anime whose
    [streamingEpisodes] is null or empty, no episode statement is sent:
    the only write is the upsert of the anime row, [anime_episodes] is left
    as it was (rows stored earlier for that anime included) and the answer
    has an empty episode list. *)
Theorem name_miss_no_episodes (req : Request) (q : jsstring) (w : World)
    (anime : Media.t) :
  cache_miss req q w anime ->
  streaming anime = [] ->
  db_fault env (UpsertAnime (anime_values anime (clean_description anime)))
    (db w) = false ->
  anime_name req w
  = (Ok {| status := 200;
           body := BodyName api
                     [ApiResult (api_anime anime (clean_description anime)) []]
                     (Some 1) (Some 1) |},
     {| db := {| animes :=
                   insert_anime (anime_values anime (clean_description anime))
                     (animes (db w));
                 anime_episodes := anime_episodes (db w) |};
        trace := trace w
                 ++ [PoolQuery (name_select req q);
                     GraphqlMedia (sanitizedQuery q);
                     Fetch (or_else (Media.description anime) []) PT_BR;
                     PoolQuery
                       (UpsertAnime
                          (anime_values anime (clean_description anime)))] |}).
Proof.
  intros M S F. rewrite (anime_name_miss req q w anime M).
  destruct M as (_ & _ & _ & A).
  rewrite (name_from_api_run _ anime _ A).
  assert (E : final_episodes anime = [])
    by (rewrite final_episodes_streaming, S; reflexivity).
  unfold api_response, api_calls. rewrite title_fetches, S, E.
  cbn [is_empty negb andb after_episodes episode_statement map db logged
       trace app].
  rewrite F. unfold sql_upsert_anime, description_text.
  rewrite <- !app_assoc. reflexivity.
Qed.

(** ** How the routes compose *)

Lemma search_api_run (req : Request) (q : jsstring) (w : World)
    (media : list Media.t) :
  valid_query req q ->
  anilist_page env (sanitizedQuery q)
    (parseInt (with_default (page req) 1))
    (parseInt (with_default (perPage req) 10)) = Some (Some media) ->
  is_empty media = false ->
  db_fault env (UpsertTitles (map title_values media)) (db w) = false ->
  search_api req w
  = (Ok {| status := 200;
           body := BodyTitles api (map title_summary media) None |},
     {| db := sql_upsert_titles (map title_values media) (db w);
        trace := trace w
                 ++ [GraphqlPage (sanitizedQuery q)
                       (parseInt (with_default (page req) 1))
                       (parseInt (with_default (perPage req) 10));
                     PoolQuery (UpsertTitles (map title_values media))] |}).
Proof.
  intros [Hq Ht] A N F. unfold search_api. rewrite Hq, Ht.
  unfold try_catch, bind at 1, request_page, bind at 1.
  rewrite emit_run, A. unfold ret at 1.
  destruct media as [|a media]; [discriminate|].
  unfold bind, upsert_titles.
  erewrite pool_query_ok; [| exact F | reflexivity].
  unfold reply, ret. cbn [logged db trace]. now rewrite <- app_assoc.
Qed.

Lemma anime_name_hit_run (req : Request) (q : jsstring) (w : World)
    (rows : list Animes.row) :
  valid_query req q ->
  db_fault env (name_select req q) (db w) = false ->
  sql_select_animes (sanitizedQuery q)
    (parseInt (with_default (limit req) 10)) (name_offset req) (db w)
  = Some rows ->
  is_empty rows = false ->
  episode_select_fails rows (db w) = false ->
  anime_name req w
  = (Ok {| status := 200;
           body := BodyName database (hit_results rows (db w))
                     (parseInt (with_default (page req) 1))
                     (parseInt (with_default (limit req) 10)) |},
     logged w (PoolQuery (name_select req q) :: episode_selects rows)).
Proof.
  intros V F S N E.
  rewrite (anime_name_selected req q w rows V F S).
  rewrite N. cbn [negb]. unfold bind.
  rewrite promise_all_episodes. cbn [db logged]. rewrite E.
  unfold reply, ret. now rewrite logged_app.
Qed.

Lemma healthy_selects (rows : list Animes.row) (d : Db) :
  healthy -> episode_select_fails rows d = false.
Proof.
  intro H. unfold episode_select_fails.
  induction rows as [|x rows IH]; cbn; [reflexivity|].
  now rewrite H, IH.
Qed.

Lemma firstn_not_empty {A} (n : nat) (l : list A) :
  (0 < n)%nat -> is_empty l = false -> is_empty (firstn n l) = false.
Proof. destruct n, l; cbn; auto; lia. Qed.

Lemma filter_not_empty {A} (f : A -> bool) (l : list A) (x : A) :
  In x l -> f x = true -> is_empty (filter f l) = false.
Proof.
  intros I F. assert (K : In x (filter f l)) by (apply filter_In; auto).
  destruct (filter f l); [destruct K | reflexivity].
Qed.

(** X13. After a successful [/anime/search-api] on a cache with no
    episode, a [/anime/name] request sent without [page] and [limit] whose
    sanitized query matches the titles stored for every record of the
    AniList page is a cache hit: it answers 200 with [source: 'database'],
    page 1, limit 10 and rows whose episode lists are all empty, sends only
    [SELECT] statements, and contacts neither AniList nor DeepL, so that
    request does not fetch the episodes of the titles it returns.  (A
    request with another pagination can still miss, and then completes the
    row.) *)
Theorem search_api_then_name_hits (req1 req2 : Request) (q1 q2 : jsstring)
    (w : World) (media : list Media.t) :
  valid_query req1 q1 ->
  anilist_page env (sanitizedQuery q1)
    (parseInt (with_default (page req1) 1))
    (parseInt (with_default (perPage req1) 10)) = Some (Some media) ->
  is_empty media = false ->
  healthy ->
  anime_episodes (db w) = [] ->
  valid_query req2 q2 ->
  page req2 = QMissing ->
  limit req2 = QMissing ->
  (forall a, In a media ->
             titles_like (sanitizedQuery q2) (title_values a) = true) ->
  exists rows,
    is_empty rows = false
    /\ anime_name req2 (snd (search_api req1 w))
       = (Ok {| status := 200;
                body := BodyName database (map (fun x => DbResult x []) rows)
                          (Some 1) (Some 10) |},
          {| db := db (snd (search_api req1 w));
             trace := trace (snd (search_api req1 w))
                      ++ PoolQuery (name_select req2 q2)
                         :: map (fun x => PoolQuery (SelectEpisodes (Animes.id x)))
                              rows |}).
Proof.
  intros V1 A N H E V2 P L T.
  rewrite (search_api_run req1 q1 w media V1 A N (H _ _)).
  cbn [snd db trace].
  set (d1 := sql_upsert_titles (map title_values media) (db w)).
  set (w1 := {| db := d1; trace := _ |}).
  exists (page_of (sanitizedQuery q2) 10 0 d1).
  assert (Hl : parseInt (with_default (limit req2) 10) = Some 10)
    by (rewrite L; reflexivity).
  assert (Hp : parseInt (with_default (page req2) 1) = Some 1)
    by (rewrite P; reflexivity).
  assert (Ho : name_offset req2 = Some 0)
    by (unfold name_offset; rewrite Hl, Hp; reflexivity).
  assert (R : is_empty (page_of (sanitizedQuery q2) 10 0 d1) = false).
  { destruct media as [|a media]; [discriminate|].
    destruct (find_upsert_titles (Media.id a)
                (map title_values (a :: media)) (animes (db w)))
      as (r & v' & Fr & Iv & Ev & Tr); [now left|].
    apply in_map_iff in Iv as (a' & <- & Ia').
    apply find_some in Fr as [Ir _].
    change (page_of (sanitizedQuery q2) 10 0 d1)
      with (firstn 10 (filter (where_titles_like (sanitizedQuery q2))
                         (animes d1))).
    apply firstn_not_empty; [lia|].
    apply (filter_not_empty _ _ r); [exact Ir|].
    change (titles_like (sanitizedQuery q2) (titles_of_row r) = true).
    rewrite Tr. now apply T. }
  split; [exact R|].
  rewrite (anime_name_hit_run req2 q2 w1 (page_of (sanitizedQuery q2) 10 0 d1)
             V2 (H _ _)); [| | exact R | now apply healthy_selects].
  - rewrite Hl, Hp. unfold logged, w1. cbn [db trace].
    replace (hit_results (page_of (sanitizedQuery q2) 10 0 d1) d1)
      with (map (fun x : Animes.row => DbResult x [])
              (page_of (sanitizedQuery q2) 10 0 d1)); [reflexivity|].
    unfold hit_results. apply map_ext. intro x.
    unfold sql_select_episodes, d1. cbn [anime_episodes sql_upsert_titles].
    now rewrite E.
  - rewrite Hl, Ho. apply select_animes_page. exact R.
Qed.

(** ** The pagination fields and the stored titles *)

(** C9. The [page] and [limit] of the answers of [/anime/name].  A cache
    miss that AniList answers (database working) is answered 200 with
    [source: 'api'] and the constants [page: 1] and [limit: 1], whatever
    [page] and [limit] the request supplied.  A cache hit (the first
    statement returns rows and every episode [SELECT] runs) is answered 200
    with [source: 'database'] and the [page] and [limit] of the request as
    [parseInt] reads them.  And in any answer at all, [source: 'api'] comes
    with 1 and 1 and [source: 'database'] with the parsed [page] and
    [limit]. *)
Theorem name_page_limit (req : Request) (w : World) :
  (forall q anime,
     cache_miss req q w anime -> healthy ->
     exists w',
       anime_name req w
       = (Ok {| status := 200;
                body := BodyName api
                          [ApiResult
                             (api_anime anime (clean_description anime))
                             (map api_episode (final_episodes anime))]
                          (Some 1) (Some 1) |}, w'))
  /\ (forall q rows,
        valid_query req q ->
        db_fault env (name_select req q) (db w) = false ->
        sql_select_animes (sanitizedQuery q)
          (parseInt (with_default (limit req) 10)) (name_offset req) (db w)
        = Some rows ->
        is_empty rows = false ->
        episode_select_fails rows (db w) = false ->
        exists w',
          anime_name req w
          = (Ok {| status := 200;
                   body := BodyName database (hit_results rows (db w))
                             (parseInt (with_default (page req) 1))
                             (parseInt (with_default (limit req) 10)) |},
             w'))
  /\ (forall w' r source results p l,
        anime_name req w = (Ok r, w') ->
        body r = BodyName source results p l ->
        match source with
        | api => p = Some 1 /\ l = Some 1
        | database =>
            p = parseInt (with_default (page req) 1)
            /\ l = parseInt (with_default (limit req) 10)
        end).
Proof.
  split; [|split].
  - intros q anime M H. eexists.
    rewrite (anime_name_miss_ok req q w anime M H). reflexivity.
  - intros q rows V F S N E. eexists.
    rewrite (anime_name_hit_run req q w rows V F S N E). reflexivity.
  - intros w' r source results p l. unfold anime_name.
    destruct (query req) as [|q|ql];
      try (unfold reply, ret; intros E B; inversion E; subst; discriminate).
    destruct (is_empty (trim q));
      [unfold reply, ret; intros E B; inversion E; subst; discriminate|].
    unfold try_catch, bind at 1.
    destruct (select_animes _ _ _ w) as [[rows|] w1];
      [|unfold reply, ret; intros E B; inversion E; subst; discriminate].
    destruct (negb (is_empty rows)).
    + unfold bind. destruct (promise_all _ rows w1) as [[res|] w2];
        unfold reply, ret; intros E B; inversion E; subst;
        [|discriminate].
      simpl in B. inversion B; subst. split; reflexivity.
    + destruct (name_from_api (sanitizedQuery q) w1) as [[r1|] w2] eqn:N.
      * intros E B. inversion E; subst.
        apply name_from_api_answer in N as [[e ->]|[res ->]]; simpl in B.
        -- discriminate.
        -- inversion B; subst. split; reflexivity.
      * unfold reply, ret; intros E B; inversion E; subst; discriminate.
Qed.

Lemma NoDup_map_eq {A B} (f : A -> B) (l : list A) (x y : A) :
  NoDup (map f l) -> In x l -> In y l -> f x = f y -> x = y.
Proof.
  induction l as [|a l IH]; cbn [map]; intros N Ix Iy E; [destruct Ix|].
  inversion N as [|? ? Na Nl]; subst.
  destruct Ix as [->|Ix], Iy as [->|Iy]; auto.
  - exfalso. apply Na. rewrite E. now apply in_map.
  - exfalso. apply Na. rewrite <- E. now apply in_map.
Qed.

(** A row whose title columns are the bound values holds them. *)
Lemma titles_stored_row (anime : Media.t) (r : Animes.row) :
  titles_of_row r = title_values anime -> titles_stored anime r.
Proof.
  intro T.
  assert (E : Animes.title_english r = t_title_english (title_values anime))
    by (rewrite <- T; reflexivity).
  assert (R : Animes.title_romaji r = t_title_romaji (title_values anime))
    by (rewrite <- T; reflexivity).
  assert (N : Animes.title_native r = t_title_native (title_values anime))
    by (rewrite <- T; reflexivity).
  unfold titles_stored. rewrite E, R, N.
  cbn [title_values t_title_english t_title_romaji t_title_native].
  unfold or_null.
  repeat split; intro H; rewrite ?H; try reflexivity.
  - destruct (MediaTitle.english _) as [[|c s]|]; cbn in *;
      [reflexivity | discriminate | reflexivity].
  - destruct (MediaTitle.english _) as [[|c s]|]; cbn in *;
      [discriminate | reflexivity | discriminate].
Qed.

(** C10. On both upsert paths a missing (null or empty) English title is
    stored as the string ['N/A'], while a missing romanized or native title
    is stored as [NULL].  After [/anime/search-api] has stored a page of
    records with distinct identifiers, the row of every record of the page
    holds these values, and so does the row of the anime after a cache miss
    of [/anime/name] (database working); a title that is present is stored
    as it is. *)
Theorem missing_titles_stored (req : Request) (q : jsstring) (w : World) :
  (forall media a,
     valid_query req q ->
     anilist_page env (sanitizedQuery q)
       (parseInt (with_default (page req) 1))
       (parseInt (with_default (perPage req) 10)) = Some (Some media) ->
     db_fault env (UpsertTitles (map title_values media)) (db w) = false ->
     NoDup (map Media.id media) ->
     In a media ->
     exists r,
       find_anime (Media.id a) (animes (db (snd (search_api req w))))
       = Some r
       /\ titles_stored a r)
  /\ (forall anime,
        cache_miss req q w anime -> healthy ->
        exists r,
          find_anime (Media.id anime) (animes (db (snd (anime_name req w))))
          = Some r
          /\ titles_stored anime r).
Proof.
  split.
  - intros media a V A F D I.
    assert (N : is_empty media = false) by (destruct media; [destruct I|reflexivity]).
    rewrite (search_api_run req q w media V A N F).
    cbn [snd db sql_upsert_titles animes].
    destruct (find_upsert_titles (Media.id a) (map title_values media)
                (animes (db w))) as (r & v' & Fr & Iv & Ev & T).
    { rewrite map_map. cbn [title_values t_id].
      now apply (in_map Media.id). }
    exists r. split; [exact Fr|].
    apply in_map_iff in Iv as (a' & <- & Ia').
    cbn [title_values t_id] in Ev.
    rewrite (NoDup_map_eq Media.id media a' a D Ia' I Ev) in T.
    now apply titles_stored_row.
  - intros anime M H.
    rewrite (anime_name_miss_ok req q w anime M H).
    cbn [snd db sql_upsert_anime animes].
    exists (anime_values anime (clean_description anime)).
    split.
    + apply (find_insert_anime (anime_values anime (clean_description anime))).
    + now apply titles_stored_row.
Qed.

(** ** Repeating a population *)

Lemma in_ids_insert_titles (k : Z) (v : Titles) (t : list Animes.row) :
  k = t_id v \/ In k (map Animes.id t) ->
  In k (map Animes.id (insert_titles v t)).
Proof.
  induction t as [|x t IH]; cbn [insert_titles map].
  - intros [->|[]]. now left.
  - unfold animes_key.
    destruct (Z.eqb_spec (Animes.id x) (t_id v)) as [E|E]; cbn [map Animes.id].
    + intros [->|[<-|I]]; [left; exact E | now left | now right].
    + intros [->|[<-|I]]; [right; apply IH; now left | now left
                          | right; apply IH; now right].
Qed.

Lemma insert_titles_same (v : Titles) (t : list Animes.row) :
  insert_titles v (insert_titles v t) = insert_titles v t.
Proof.
  induction t as [|x t IH]; cbn [insert_titles]; unfold animes_key.
  - cbn [Animes.id]. now rewrite Z.eqb_refl.
  - destruct (Animes.id x =? t_id v) eqn:E; cbn [insert_titles];
      unfold animes_key; cbn [Animes.id]; rewrite E; [reflexivity|].
    now rewrite IH.
Qed.

Lemma insert_titles_comm (a b : Titles) (t : list Animes.row) :
  t_id a <> t_id b ->
  In (t_id a) (map Animes.id t) ->
  insert_titles a (insert_titles b t) = insert_titles b (insert_titles a t).
Proof.
  intros N. induction t as [|x t IH]; cbn [map]; [intros []|].
  intro I. cbn [insert_titles]. unfold animes_key.
  destruct (Z.eqb_spec (Animes.id x) (t_id a)) as [Ea|Ea];
    destruct (Z.eqb_spec (Animes.id x) (t_id b)) as [Eb|Eb];
    try congruence; cbn [insert_titles]; unfold animes_key; cbn [Animes.id].
  - destruct (Z.eqb_spec (Animes.id x) (t_id a)); [|contradiction].
    destruct (Z.eqb_spec (Animes.id x) (t_id b)); [contradiction|].
    reflexivity.
  - destruct (Z.eqb_spec (Animes.id x) (t_id a)); [contradiction|].
    destruct (Z.eqb_spec (Animes.id x) (t_id b)); [|contradiction].
    reflexivity.
  - destruct (Z.eqb_spec (Animes.id x) (t_id a)); [contradiction|].
    destruct (Z.eqb_spec (Animes.id x) (t_id b)); [contradiction|].
    rewrite IH; [reflexivity|]. destruct I as [I|I]; [congruence | exact I].
Qed.

Lemma insert_titles_over (v : Titles) (vs : list Titles)
    (t : list Animes.row) :
  ~ In (t_id v) (map t_id vs) ->
  In (t_id v) (map Animes.id t) ->
  insert_titles v (fold_left (fun t v => insert_titles v t) vs t)
  = fold_left (fun t v => insert_titles v t) vs (insert_titles v t).
Proof.
  revert t; induction vs as [|b vs IH]; intros t N I; cbn [fold_left];
    [reflexivity|].
  cbn [map] in N.
  rewrite IH; [| intro K; apply N; now right
              | apply in_ids_insert_titles; now right].
  rewrite insert_titles_comm; [reflexivity | | exact I].
  intro E. apply N. left. now symmetry.
Qed.

Lemma upsert_titles_twice (vs : list Titles) (t : list Animes.row) :
  NoDup (map t_id vs) ->
  fold_left (fun t v => insert_titles v t) vs
    (fold_left (fun t v => insert_titles v t) vs t)
  = fold_left (fun t v => insert_titles v t) vs t.
Proof.
  revert t; induction vs as [|v vs IH]; intros t D; cbn [fold_left];
    [reflexivity|].
  cbn [map] in D. inversion D as [|? ? Dv Dvs]; subst.
  rewrite insert_titles_over;
    [| exact Dv | apply in_ids_insert_titles; now left].
  rewrite insert_titles_same. now apply IH.
Qed.

(** X14. [/anime/search-api] is idempotent on the cache: when AniList
    answers the same page of records with distinct identifiers and the
    database works, running the request a second time leaves both tables
    exactly as the first run left them, row order included. *)
Theorem search_api_twice (req : Request) (q : jsstring) (w : World)
    (media : list Media.t) :
  valid_query req q ->
  anilist_page env (sanitizedQuery q)
    (parseInt (with_default (page req) 1))
    (parseInt (with_default (perPage req) 10)) = Some (Some media) ->
  is_empty media = false ->
  NoDup (map Media.id media) ->
  healthy ->
  db (snd (search_api req (snd (search_api req w))))
  = db (snd (search_api req w)).
Proof.
  intros V A N D H.
  rewrite (search_api_run req q w media V A N (H _ _)). cbn [snd].
  rewrite (search_api_run req q _ media V A N (H _ _)). cbn [snd db].
  unfold sql_upsert_titles. cbn [animes anime_episodes]. f_equal.
  apply upsert_titles_twice. rewrite map_map. exact D.
Qed.

Lemma in_keys_insert_episode (k : Z * Z) (v : AnimeEpisodes.row)
    (t : list AnimeEpisodes.row) :
  k = anime_episodes_key v \/ In k (map anime_episodes_key t) ->
  In k (map anime_episodes_key (insert_episode v t)).
Proof.
  induction t as [|x t IH]; cbn [insert_episode map].
  - intros [->|[]]. now left.
  - destruct (key_eqb (anime_episodes_key x) (anime_episodes_key v)) eqn:E;
      cbn [map].
    + apply key_eqb_eq in E.
      change (anime_episodes_key _ :: map anime_episodes_key t)
        with (anime_episodes_key x :: map anime_episodes_key t).
      intros [->|[<-|I]]; [left; exact E | now left | now right].
    + intros [->|[<-|I]]; [right; apply IH; now left | now left
                          | right; apply IH; now right].
Qed.

Lemma insert_episode_same (v : AnimeEpisodes.row)
    (t : list AnimeEpisodes.row) :
  insert_episode v (insert_episode v t) = insert_episode v t.
Proof.
  induction t as [|x t IH]; cbn [insert_episode].
  - rewrite key_eqb_refl. now destruct v.
  - destruct (key_eqb (anime_episodes_key x) (anime_episodes_key v)) eqn:E;
      cbn [insert_episode].
    + unfold anime_episodes_key at 1.
      cbn [AnimeEpisodes.anime_id AnimeEpisodes.episode_number].
      fold (anime_episodes_key x). now rewrite E.
    + rewrite E. now rewrite IH.
Qed.

Lemma insert_episode_comm (a b : AnimeEpisodes.row)
    (t : list AnimeEpisodes.row) :
  anime_episodes_key a <> anime_episodes_key b ->
  In (anime_episodes_key a) (map anime_episodes_key t) ->
  insert_episode a (insert_episode b t) = insert_episode b (insert_episode a t).
Proof.
  intros N. induction t as [|x t IH]; cbn [map]; [intros []|].
  intro I. cbn [insert_episode].
  destruct (key_eqb (anime_episodes_key x) (anime_episodes_key a)) eqn:Ea;
    destruct (key_eqb (anime_episodes_key x) (anime_episodes_key b)) eqn:Eb.
  - apply key_eqb_eq in Ea, Eb. congruence.
  - cbn [insert_episode]. unfold anime_episodes_key at 1 3.
    cbn [AnimeEpisodes.anime_id AnimeEpisodes.episode_number].
    fold (anime_episodes_key x). now rewrite Ea, Eb.
  - cbn [insert_episode]. unfold anime_episodes_key at 1 3.
    cbn [AnimeEpisodes.anime_id AnimeEpisodes.episode_number].
    fold (anime_episodes_key x). now rewrite Ea, Eb.
  - cbn [insert_episode]. rewrite Ea, Eb.
    rewrite IH; [reflexivity|]. destruct I as [I|I]; [|exact I].
    rewrite I, key_eqb_refl in Ea. discriminate.
Qed.

Lemma insert_episode_over (v : AnimeEpisodes.row)
    (vs t : list AnimeEpisodes.row) :
  ~ In (anime_episodes_key v) (map anime_episodes_key vs) ->
  In (anime_episodes_key v) (map anime_episodes_key t) ->
  insert_episode v (fold_left (fun t v => insert_episode v t) vs t)
  = fold_left (fun t v => insert_episode v t) vs (insert_episode v t).
Proof.
  revert t; induction vs as [|b vs IH]; intros t N I; cbn [fold_left];
    [reflexivity|].
  cbn [map] in N.
  rewrite IH; [| intro K; apply N; now right
              | apply in_keys_insert_episode; now right].
  rewrite insert_episode_comm; [reflexivity | | exact I].
  intro E. apply N. left. now symmetry.
Qed.

Lemma upsert_episodes_twice (vs t : list AnimeEpisodes.row) :
  NoDup (map anime_episodes_key vs) ->
  fold_left (fun t v => insert_episode v t) vs
    (fold_left (fun t v => insert_episode v t) vs t)
  = fold_left (fun t v => insert_episode v t) vs t.
Proof.
  revert t; induction vs as [|v vs IH]; intros t D; cbn [fold_left];
    [reflexivity|].
  cbn [map] in D. inversion D as [|? ? Dv Dvs]; subst.
  rewrite insert_episode_over;
    [| exact Dv | apply in_keys_insert_episode; now left].
  rewrite insert_episode_same. now apply IH.
Qed.

(** X15. The population of a cache miss of [/anime/name] is idempotent:
    when a second request misses the cache again (as with a page beyond
    the stored rows) and AniList and DeepL answer as before, the tables
    after the second run are exactly those after the first. *)
Theorem name_miss_twice (req : Request) (q : jsstring) (w : World)
    (anime : Media.t) :
  cache_miss req q w anime ->
  cache_miss req q (snd (anime_name req w)) anime ->
  healthy ->
  db (snd (anime_name req (snd (anime_name req w))))
  = db (snd (anime_name req w)).
Proof.
  intros M1 M2 H.
  rewrite (anime_name_miss_ok req q _ anime M2 H). cbn [snd db].
  rewrite (anime_name_miss_ok req q w anime M1 H). cbn [snd db].
  unfold sql_upsert_anime, sql_upsert_episodes. cbn [animes anime_episodes].
  f_equal.
  - now apply insert_anime_twice.
  - apply upsert_episodes_twice, final_keys_NoDup.
Qed.

(** ** What the routes keep true of the tables *)

Lemma search_titles_db (req : Request) (w : World) :
  db (snd (search_titles req w)) = db w.
Proof.
  unfold search_titles.
  destruct (query req) as [|q|l]; try reflexivity.
  destruct (is_empty (trim q)); [reflexivity|].
  unfold try_catch, bind, select_titles, pool_query, bind, emit.
  cbn [db logged].
  destruct (db_fault env _ (db w)); [reflexivity|].
  cbn [db]. destruct (negb _); reflexivity.
Qed.

Lemma search_api_fault_run (req : Request) (q : jsstring) (w : World)
    (media : list Media.t) :
  valid_query req q ->
  anilist_page env (sanitizedQuery q)
    (parseInt (with_default (page req) 1))
    (parseInt (with_default (perPage req) 10)) = Some (Some media) ->
  is_empty media = false ->
  db_fault env (UpsertTitles (map title_values media)) (db w) = true ->
  db (snd (search_api req w)) = db w.
Proof.
  intros [Hq Ht] A N F. unfold search_api. rewrite Hq, Ht.
  unfold try_catch, bind at 1, request_page, bind at 1.
  rewrite emit_run, A. unfold ret at 1.
  destruct media as [|a media]; [discriminate|].
  unfold bind, upsert_titles.
  rewrite pool_query_fault by exact F. reflexivity.
Qed.

Lemma search_api_db (req : Request) (w : World) :
  db (snd (search_api req w)) = db w
  \/ exists media,
       db (snd (search_api req w))
       = sql_upsert_titles (map title_values media) (db w).
Proof.
  destruct (query req) as [|q|l] eqn:Hq;
    try (left; unfold search_api; rewrite Hq; reflexivity).
  destruct (is_empty (trim q)) eqn:Ht;
    [left; unfold search_api; rewrite Hq, Ht; reflexivity|].
  destruct (anilist_page env (sanitizedQuery q)
              (parseInt (with_default (page req) 1))
              (parseInt (with_default (perPage req) 10)))
    as [[[|a media]|]|] eqn:A;
    try (left; unfold search_api; rewrite Hq, Ht;
         unfold try_catch, bind at 1, request_page, bind at 1;
         rewrite emit_run, A; reflexivity).
  destruct (db_fault env (UpsertTitles (map title_values (a :: media))) (db w))
    eqn:F.
  - left. now apply (search_api_fault_run req q w (a :: media)).
  - right. exists (a :: media).
    now rewrite (search_api_run req q w (a :: media) (conj Hq Ht) A eq_refl F).
Qed.

Lemma name_from_api_db (s : jsstring) (w : World) :
  db (snd (name_from_api s w)) = db w
  \/ exists anime,
       db (snd (name_from_api s w))
       = sql_upsert_episodes (final_episodes anime) (db w)
       \/ db (snd (name_from_api s w))
          = sql_upsert_anime (anime_values anime (clean_description anime))
              (sql_upsert_episodes (final_episodes anime) (db w)).
Proof.
  destruct (anilist_media env s) as [[anime|]|] eqn:A.
  - rewrite (name_from_api_run s anime w A), after_episodes_eq.
    destruct (negb _ && _); [left; reflexivity|].
    right. exists anime.
    destruct (db_fault env (UpsertAnime _) _); [left | right]; reflexivity.
  - left. unfold name_from_api, request_media, bind at 1 2.
    rewrite emit_run, A. reflexivity.
  - left. unfold name_from_api, request_media, bind at 1 2.
    rewrite emit_run, A. reflexivity.
Qed.

Lemma anime_name_db (req : Request) (w : World) :
  db (snd (anime_name req w)) = db w
  \/ exists anime,
       db (snd (anime_name req w))
       = sql_upsert_episodes (final_episodes anime) (db w)
       \/ db (snd (anime_name req w))
          = sql_upsert_anime (anime_values anime (clean_description anime))
              (sql_upsert_episodes (final_episodes anime) (db w)).
Proof.
  remember (db (snd (anime_name req w))) as d eqn:E. revert E.
  unfold anime_name.
  destruct (query req) as [|q|l]; try (intros ->; left; reflexivity).
  destruct (is_empty (trim q)); [intros ->; left; reflexivity|].
  unfold try_catch, bind at 1, select_animes, pool_query, bind at 1, emit.
  cbn [db logged trace].
  destruct (db_fault env _ (db w)); [intros ->; left; reflexivity|].
  destruct (sql_select_animes _ _ _ (db w)) as [rows|];
    [|intros ->; left; reflexivity].
  destruct (negb (is_empty rows)).
  - unfold bind.
    change (promise_all _ rows) with (promise_all episodes_task rows).
    rewrite promise_all_episodes. cbn [db logged].
    destruct (episode_select_fails rows (db w)); intros ->; left; reflexivity.
  - match goal with |- context [name_from_api ?s ?x] =>
      pose proof (name_from_api_db s x) as D;
      destruct (name_from_api s x) as [[r|] w2] end;
      cbn [snd db] in D |- *; intros ->; exact D.
Qed.

(** The three statements through which a route changes the tables. *)
Lemma routes_change (P : Db -> Prop) (req : Request) (w : World) :
  (forall media d, P d -> P (sql_upsert_titles (map title_values media) d)) ->
  (forall anime d, P d -> P (sql_upsert_episodes (final_episodes anime) d)) ->
  (forall anime d,
      P d ->
      P (sql_upsert_anime (anime_values anime (clean_description anime)) d)) ->
  P (db w) ->
  P (db (snd (search_titles req w)))
  /\ P (db (snd (search_api req w)))
  /\ P (db (snd (anime_name req w))).
Proof.
  intros T E A H. split; [now rewrite search_titles_db|]. split.
  - destruct (search_api_db req w) as [->|[media ->]]; auto.
  - destruct (anime_name_db req w) as [->|[anime [->| ->]]]; auto.
Qed.

Lemma keys_insert_episode (v : AnimeEpisodes.row)
    (t : list AnimeEpisodes.row) :
  map anime_episodes_key (insert_episode v t)
  = if existsb (fun x => key_eqb (anime_episodes_key x) (anime_episodes_key v)) t
    then map anime_episodes_key t
    else map anime_episodes_key t ++ [anime_episodes_key v].
Proof.
  induction t as [|x t IH]; cbn [insert_episode existsb map app];
    [reflexivity|].
  destruct (key_eqb (anime_episodes_key x) (anime_episodes_key v)) eqn:E;
    cbn [orb map]; [reflexivity|].
  rewrite IH. now destruct (existsb _ t).
Qed.

Lemma insert_episode_key (v : AnimeEpisodes.row)
    (t : list AnimeEpisodes.row) :
  NoDup (map anime_episodes_key t) ->
  NoDup (map anime_episodes_key (insert_episode v t)).
Proof.
  intro H. rewrite keys_insert_episode.
  destruct (existsb _ t) eqn:E; [exact H|].
  apply NoDup_app; [ exact H | repeat constructor; simpl; tauto | ].
  intros a Ha [<-|[]].
  apply in_map_iff in Ha as (x & Ex & Ix).
  assert (K : existsb (fun x => key_eqb (anime_episodes_key x)
                                  (anime_episodes_key v)) t = true).
  { apply existsb_exists. exists x. split; [exact Ix|]. now apply key_eqb_eq. }
  congruence.
Qed.

(** X16. The server never makes an identifier ambiguous: if [id] is a key
    of [animes] and [(anime_id, episode_number)] a key of [anime_episodes]
    before a request, they still are after it, whichever of the three
    routes serves it and however it ends. *)
Theorem routes_keep_keys (req : Request) (w : World) :
  keys_unique (db w) ->
  keys_unique (db (snd (search_titles req w)))
  /\ keys_unique (db (snd (search_api req w)))
  /\ keys_unique (db (snd (anime_name req w))).
Proof.
  apply (routes_change keys_unique).
  - intros media d [K1 K2]. split; [|exact K2].
    cbn [animes sql_upsert_titles]. generalize (map title_values media).
    intro vs. revert K1. generalize (animes d). 
    induction vs as [|v vs IH]; intros t K; cbn [fold_left]; [exact K|].
    apply IH. now apply insert_titles_key.
  - intros anime d [K1 K2]. split; [exact K1|].
    cbn [anime_episodes sql_upsert_episodes].
    generalize (final_episodes anime). intro vs. revert K2.
    generalize (anime_episodes d).
    induction vs as [|v vs IH]; intros t K; cbn [fold_left]; [exact K|].
    apply IH. now apply insert_episode_key.
  - intros anime d [K1 K2]. split; [|exact K2].
    cbn [animes sql_upsert_anime]. now apply insert_anime_key.
Qed.

Lemma english_insert_titles (v : Titles) (t : list Animes.row) :
  truthy (t_title_english v) = true ->
  Forall (fun x => truthy (Animes.title_english x) = true) t ->
  Forall (fun x => truthy (Animes.title_english x) = true)
    (insert_titles v t).
Proof.
  intros V H. induction H as [|x t Hx Ht IH]; cbn [insert_titles].
  - repeat constructor. exact V.
  - destruct (animes_key x =? t_id v); constructor; auto.
Qed.

Lemma english_insert_anime (v : Animes.row) (t : list Animes.row) :
  truthy (Animes.title_english v) = true ->
  Forall (fun x => truthy (Animes.title_english x) = true) t ->
  Forall (fun x => truthy (Animes.title_english x) = true)
    (insert_anime v t).
Proof.
  intros V H. induction H as [|x t Hx Ht IH]; cbn [insert_anime].
  - repeat constructor. exact V.
  - destruct (animes_key x =? animes_key v); constructor; auto.
Qed.

Lemma english_or_else (e : option jsstring) :
  truthy (Some (or_else e (lit "N/A"))) = true.
Proof. destruct e as [[|c s]|]; reflexivity. Qed.

(** X17. No route ever stores a missing English title: if every row of
    [animes] has a non-null, non-empty [title_english] before a request,
    every row has one after it, rows added or updated included, whichever
    of the three routes serves the request and however it ends. *)
Theorem routes_keep_english (req : Request) (w : World) :
  english_set (db w) ->
  english_set (db (snd (search_titles req w)))
  /\ english_set (db (snd (search_api req w)))
  /\ english_set (db (snd (anime_name req w))).
Proof.
  apply (routes_change english_set); unfold english_set.
  - intros media d. cbn [animes sql_upsert_titles].
    generalize (animes d).
    induction media as [|a media IH]; intros t K; cbn [map fold_left];
      [exact K|].
    apply IH. apply english_insert_titles; [|exact K].
    apply english_or_else.
  - intros anime d K. exact K.
  - intros anime d K. cbn [animes sql_upsert_anime].
    apply english_insert_anime; [|exact K]. apply english_or_else.
Qed.

Lemma Forall_mapi_from {A B} (P : B -> Prop) (f : nat -> A -> B)
    (l : list A) (i : nat) :
  (forall n x, P (f n x)) -> Forall P (mapi_from i f l).
Proof.
  intro H. revert i; induction l; intro i; cbn; constructor; auto.
Qed.

Lemma final_row_ok (anime : Media.t) (index : nat)
    (ep : StreamingEpisode.t) :
  episode_ok (final_row anime index ep).
Proof.
  split; cbn [final_row AnimeEpisodes.episode_number
              AnimeEpisodes.title_translated]; [lia|].
  unfold title_kept. destruct (sanitizeHtml _); reflexivity.
Qed.

Lemma ok_insert_episode (v : AnimeEpisodes.row)
    (t : list AnimeEpisodes.row) :
  episode_ok v -> Forall episode_ok t -> Forall episode_ok (insert_episode v t).
Proof.
  intros V H. induction H as [|x t Hx Ht IH]; cbn [insert_episode].
  - repeat constructor; apply V.
  - destruct (key_eqb _ _); constructor; auto.
    split; [apply Hx | apply V].
Qed.

(** X18. Every episode row the server stores is well formed: if every row
    of [anime_episodes] has an [episode_number] of at least 1 and a
    non-null, non-empty [title_translated] before a request, every row has
    them after it, whichever of the three routes serves the request and
    however it ends. *)
Theorem routes_keep_episodes (req : Request) (w : World) :
  episodes_ok (db w) ->
  episodes_ok (db (snd (search_titles req w)))
  /\ episodes_ok (db (snd (search_api req w)))
  /\ episodes_ok (db (snd (anime_name req w))).
Proof.
  apply (routes_change episodes_ok); unfold episodes_ok.
  - intros media d K. exact K.
  - intros anime d. cbn [anime_episodes sql_upsert_episodes].
    assert (F : Forall episode_ok (final_episodes anime)).
    { rewrite final_episodes_streaming. unfold mapi.
      apply Forall_mapi_from. apply final_row_ok. }
    revert F. generalize (final_episodes anime). intro vs.
    generalize (anime_episodes d).
    induction vs as [|v vs IH]; intros t F K; cbn [fold_left]; [exact K|].
    inversion F; subst. apply IH; [assumption|].
    now apply ok_insert_episode.
  - intros anime d K. exact K.
Qed.

(** ** The query string and the rows of other animes *)

Lemma trimStart_fixed (s : jsstring) :
  (forall c, hd_error s = Some c -> is_space c = false) -> trimStart s = s.
Proof.
  destruct s as [|a s]; [reflexivity|]. intro H. cbn.
  now rewrite (H a eq_refl).
Qed.

Lemma trimStart_twice (s : jsstring) : trimStart (trimStart s) = trimStart s.
Proof. apply trimStart_fixed, trimStart_head. Qed.

Lemma trim_twice (s : jsstring) : trim (trim s) = trim s.
Proof.
  unfold trim at 1. rewrite (trimStart_fixed (trim s)) by apply trim_head.
  unfold trim, trimEnd. rewrite rev_involutive. now rewrite trimStart_twice.
Qed.

Lemma filter_all {A} (f : A -> bool) (l : list A) :
  Forall (fun x => f x = true) l -> filter f l = l.
Proof.
  induction 1 as [|x l Hx Hl IH]; cbn; [reflexivity|]. now rewrite Hx, IH.
Qed.

Lemma filter_none {A} (f : A -> bool) (l : list A) :
  Forall (fun x => f x = false) l -> filter f l = [].
Proof.
  induction 1 as [|x l Hx Hl IH]; cbn; [reflexivity|]. now rewrite Hx.
Qed.

Lemma sanitizedQuery_class (q : jsstring) :
  Forall (fun c => isL c || isN c || is_space c = true) (sanitizedQuery q).
Proof.
  destruct (trim_split (filter (fun c => isL c || isN c || is_space c) q))
    as (pre & post & E & _).
  fold (sanitizedQuery q) in E.
  assert (K : Forall (fun c => isL c || isN c || is_space c = true)
                (filter (fun c => isL c || isN c || is_space c) q)).
  { apply Forall_forall. intros c Ic. now apply filter_In in Ic. }
  rewrite E in K. apply Forall_app in K as [_ K].
  now apply Forall_app in K as [K _].
Qed.

(** X24. Sanitizing is idempotent, and a query that is already made of
    letters, numbers and inner white space only is searched as it is:
    [sanitizedQuery (sanitizedQuery q) = sanitizedQuery q], and
    [sanitizedQuery q = q] when every character of [q] is in the three
    classes and [q] neither starts nor ends with white space. *)
Theorem sanitizedQuery_idempotent (q : jsstring) :
  sanitizedQuery (sanitizedQuery q) = sanitizedQuery q
  /\ (Forall (fun c => isL c || isN c || is_space c = true) q ->
      (forall c, hd_error q = Some c \/ hd_error (rev q) = Some c ->
                 is_space c = false) ->
      sanitizedQuery q = q).
Proof.
  split.
  - unfold sanitizedQuery at 1.
    rewrite (filter_all _ _ (sanitizedQuery_class q)).
    unfold sanitizedQuery. apply trim_twice.
  - intros C H. unfold sanitizedQuery. rewrite (filter_all _ _ C).
    unfold trim. rewrite (trimStart_fixed q) by (intros c Hc; apply H; auto).
    unfold trimEnd.
    rewrite (trimStart_fixed (rev q)) by (intros c Hc; apply H; auto).
    apply rev_involutive.
Qed.

Lemma like_all (x : Animes.row) :
  (forall v, sql_contains [] v = true) ->
  where_titles_like [] x = has_title x.
Proof.
  intro H. unfold where_titles_like, has_title, like.
  destruct (Animes.title_romaji x), (Animes.title_english x),
    (Animes.title_native x); rewrite ?H; reflexivity.
Qed.

(** X25. A query made only of characters outside the three classes (such
    as [!!!]) passes validation but is sanitized to the empty string, so
    the pattern is [%%]: as every string contains the empty string,
    [/anime/search-titles] then returns every row of [animes] that has a
    title, whatever was asked. *)
Theorem search_titles_punctuation (req : Request) (q : jsstring)
    (w : World) :
  valid_query req q ->
  Forall (fun c => isL c || isN c || is_space c = false) q ->
  (forall v, sql_contains [] v = true) ->
  db_fault env (SelectTitles []) (db w) = false ->
  is_empty (filter has_title (animes (db w))) = false ->
  sanitizedQuery q = []
  /\ search_titles req w
     = (Ok {| status := 200;
              body := BodyTitles database
                        (map titles_of_row (filter has_title (animes (db w))))
                        None |},
        logged w [PoolQuery (SelectTitles [])]).
Proof.
  intros [Hq Ht] C H F N.
  assert (E : sanitizedQuery q = [])
    by (unfold sanitizedQuery; now rewrite (filter_none _ _ C)).
  split; [exact E|].
  assert (R : sql_select_titles [] (db w)
              = map titles_of_row (filter has_title (animes (db w)))).
  { unfold sql_select_titles. f_equal. apply filter_ext.
    intro x. now apply like_all. }
  unfold search_titles. rewrite Hq, Ht, E.
  unfold try_catch, bind, select_titles.
  erewrite pool_query_ok; [| exact F | reflexivity].
  rewrite R. destruct (map titles_of_row _) eqn:M.
  - apply map_eq_nil in M. rewrite M in N. discriminate.
  - reflexivity.
Qed.

Lemma find_insert_anime_other (k : Z) (v : Animes.row)
    (t : list Animes.row) :
  k <> Animes.id v ->
  find_anime k (insert_anime v t) = find_anime k t.
Proof.
  intro N. unfold find_anime, animes_key.
  induction t as [|x t IH]; cbn [insert_anime find Animes.id].
  - apply Z.eqb_neq in N. rewrite Z.eqb_sym in N. now rewrite N.
  - unfold animes_key.
    destruct (Animes.id x =? Animes.id v) eqn:E; cbn [find Animes.id].
    + apply Z.eqb_eq in E. rewrite E.
      assert (F : (Animes.id v =? k) = false) by (apply Z.eqb_neq; congruence).
      now rewrite F.
    + now rewrite IH.
Qed.

Lemma insert_anime_absent (v : Animes.row) (t : list Animes.row) :
  ~ In (Animes.id v) (map Animes.id t) -> insert_anime v t = t ++ [v].
Proof.
  induction t as [|x t IH]; cbn [insert_anime map app]; [reflexivity|].
  intro N. unfold animes_key.
  destruct (Z.eqb_spec (Animes.id x) (Animes.id v)) as [E|E].
  - exfalso. apply N. now left.
  - rewrite IH; [reflexivity|]. intro I. apply N. now right.
Qed.

(** X26. Populating the cache for one anime leaves the rows of every other
    anime alone: after a successful cache miss of [/anime/name] the row
    found under any other identifier is the row found before, and
    [animes] has the same number of rows when the anime already had one
    and exactly one more row, the new one at the end, when it had none. *)
Theorem name_miss_other_rows (req : Request) (q : jsstring) (w : World)
    (anime : Media.t) :
  cache_miss req q w anime ->
  healthy ->
  (forall k,
     k <> Media.id anime ->
     find_anime k (animes (db (snd (anime_name req w))))
     = find_anime k (animes (db w)))
  /\ (In (Media.id anime) (map Animes.id (animes (db w))) ->
      List.length (animes (db (snd (anime_name req w))))
      = List.length (animes (db w)))
  /\ (~ In (Media.id anime) (map Animes.id (animes (db w))) ->
      animes (db (snd (anime_name req w)))
      = animes (db w)
        ++ [anime_values anime (clean_description anime)]).
Proof.
  intros M H. rewrite (anime_name_miss_ok req q w anime M H).
  cbn [snd db animes sql_upsert_anime sql_upsert_episodes].
  repeat split.
  - intros k N. now apply find_insert_anime_other.
  - intro I. now apply length_insert_anime.
  - intro N. now apply insert_anime_absent.
Qed.

(* ================================================================== *)
(** * Properties of the earlier server of [src/db.js]                   *)
(* ================================================================== *)

Lemma s_query_ok {A} (op : SearchOp) (exec : Db -> option (A * Db))
    (w : SearchWorld) (a : A) (d : Db) :
  s_fault senv op (s_db w) = false -> exec (s_db w) = Some (a, d) ->
  s_query op exec w
  = (Ok a, {| s_db := d; s_trace := s_trace w ++ [SearchQuery op] |}).
Proof.
  intros H E. unfold s_query, s_bind, s_emit; cbn [s_db s_trace].
  now rewrite H, E.
Qed.

Lemma s_query_rejected {A} (op : SearchOp) (exec : Db -> option (A * Db))
    (w : SearchWorld) :
  exec (s_db w) = None ->
  s_query op exec w = (Throw, s_logged w [SearchQuery op]).
Proof.
  intro E. unfold s_query, s_bind, s_emit; cbn [s_db s_trace].
  rewrite E. now destruct (s_fault senv op (s_db w)).
Qed.

(** Once the [SELECT] of [/search] has returned no row. *)
Lemma search_missed (query : qparam) (w : SearchWorld) :
  search_misses query w ->
  search query w =
    match
      s_bind
        (s_bind (s_emit (SearchGraphql query))
           (fun _ =>
              match s_anilist senv query with
              | Some r => s_ret r
              | None => s_throw
              end))
        (fun response =>
           match response with
           | None => s_throw
           | Some anime =>
               s_bind
                 (search_translateText (Media.description anime) (lit "PT"))
                 (fun descriptionPt =>
                    match Media.genres anime, Media.coverImage anime with
                    | Some genres, Some cover =>
                        s_bind
                          (s_query
                             (InsertAnime
                                (search_values anime descriptionPt genres
                                   cover))
                             (fun d =>
                                match
                                  sql_insert_anime
                                    (search_values anime descriptionPt
                                       genres cover) d
                                with
                                | Some d' => Some (tt, d')
                                | None => None
                                end))
                          (fun _ =>
                             s_reply 200
                               (SearchApi
                                  [ {| s_id := Media.id anime;
                                       s_title := Media.title anime;
                                       s_description := descriptionPt;
                                       s_genres := genres;
                                       s_coverImage :=
                                         CoverImage.extraLarge cover;
                                       s_bannerImage :=
                                         Media.bannerImage anime |} ]))
                    | _, _ => s_throw
                    end)
           end)
        (s_logged w [SearchQuery (SelectLike (template_text query))])
    with
    | (Ok r, w') => (Ok r, w')
    | (Throw, w') => (Ok search_error, w')
    end.
Proof.
  intros (V & F & E). unfold search. rewrite V.
  unfold s_try, s_bind at 1.
  erewrite s_query_ok; [| exact F | reflexivity].
  rewrite E. reflexivity.
Qed.

(** X19. [GET /search] of the earlier server rejects only a missing or
    empty [query], with 400 and no call at all. Any other query, a string
    of white space or an array included, passes: the request starts with
    the [SELECT], whose patterns are built from the query as it came,
    neither trimmed nor sanitized. *)
Theorem search_validation (query : qparam) (w : SearchWorld) :
  (query = QMissing \/ query = QStr [] ->
   search query w
   = (Ok {| s_status := 400;
            s_body := SearchError (lit "Query é obrigatória.") |}, w))
  /\ (forall c s l,
        query = QStr (c :: s) \/ query = QArr l ->
        exists rest,
          s_trace (snd (search query w))
          = s_trace w
            ++ SearchQuery (SelectLike (template_text query)) :: rest).
Proof.
  split.
  - intros [->| ->]; reflexivity.
  - intros c s l H.
    assert (V : falsy_query query = false)
      by (destruct H as [->| ->]; reflexivity).
    unfold search. rewrite V. unfold s_try, s_bind at 1.
    unfold s_query at 1, s_bind at 1, s_emit at 1. cbn [s_db s_trace].
    destruct (s_fault senv _ (s_db w)).
    + exists []. reflexivity.
    + set (w1 := {| s_db := s_db w; s_trace := _ |}).
      assert (K : forall (m : SM SearchResponse) x,
                 s_trace x = s_trace w1 ->
                 (forall y, exists rest,
                     s_trace (snd (m y)) = s_trace y ++ rest) ->
                 exists rest,
                   s_trace (snd (match m x with
                                 | (Ok a, w') => (Ok a, w')
                                 | (Throw, w') => s_reply 500
                                     (SearchError (lit "Erro interno do servidor.")) w'
                                 end))
                   = s_trace w
                     ++ SearchQuery (SelectLike (template_text query)) :: rest).
      { intros m x Hx Hm. destruct (Hm x) as (rest & T).
        destruct (m x) as [[a|] w']; cbn [snd] in T |- *;
          exists rest; unfold s_reply, s_ret; cbn [snd];
          rewrite T, Hx; unfold w1; cbn [s_trace];
          now rewrite <- app_assoc. }
      apply K; [reflexivity|]. clear K. intro y.
      destruct (negb _).
      * exists []. cbn. now rewrite app_nil_r.
      * unfold s_bind at 1 2, s_emit. cbn [s_db s_trace].
        destruct (s_anilist senv query) as [[anime|]|];
          try (eexists; reflexivity).
        unfold s_ret at 1. cbn beta iota.
        unfold s_bind at 1, search_translateText, s_bind at 1, s_emit.
        cbn [s_db s_trace].
        destruct (s_deepl senv _ _) as [|ok [| |[|t ts]]];
          try (eexists; cbn [snd s_trace]; rewrite <- app_assoc;
               reflexivity).
        unfold s_ret at 1. cbn beta iota.
        destruct (Media.genres anime) as [genres|],
                 (Media.coverImage anime) as [cover|];
          try (eexists; cbn [snd s_trace]; rewrite <- app_assoc;
               reflexivity).
        unfold s_bind at 1, s_query, s_bind at 1, s_emit.
        cbn [s_db s_trace].
        destruct (s_fault senv _ _);
          [eexists; cbn [snd s_trace]; rewrite <- !app_assoc; reflexivity|].
        destruct (sql_insert_anime _ _);
          eexists; cbn [snd s_trace]; rewrite <- !app_assoc; reflexivity.
Qed.

Lemma search_translateText_run (text : option jsstring)
    (targetLang : jsstring) (w : SearchWorld) :
  search_translateText text targetLang w
  = (match s_deepl senv (form_text text) targetLang with
     | FetchResponse _ (JsonTranslations (t :: _)) => Ok t
     | _ => Throw
     end,
     s_logged w [SearchFetch (form_text text) targetLang]).
Proof.
  unfold search_translateText, s_bind, s_emit. cbn [s_db s_trace].
  destruct (s_deepl senv _ _) as [|ok [| |[|t ts]]]; reflexivity.
Qed.

(** Once AniList has answered [/search] with an anime. *)
Lemma search_found (query : qparam) (w : SearchWorld) (anime : Media.t) :
  search_misses query w ->
  s_anilist senv query = Some (Some anime) ->
  search query w =
    match
      s_bind
        (search_translateText (Media.description anime) (lit "PT"))
        (fun descriptionPt =>
           match Media.genres anime, Media.coverImage anime with
           | Some genres, Some cover =>
               s_bind
                 (s_query
                    (InsertAnime
                       (search_values anime descriptionPt genres cover))
                    (fun d =>
                       match
                         sql_insert_anime
                           (search_values anime descriptionPt genres cover) d
                       with
                       | Some d' => Some (tt, d')
                       | None => None
                       end))
                 (fun _ =>
                    s_reply 200
                      (SearchApi
                         [ {| s_id := Media.id anime;
                              s_title := Media.title anime;
                              s_description := descriptionPt;
                              s_genres := genres;
                              s_coverImage := CoverImage.extraLarge cover;
                              s_bannerImage := Media.bannerImage anime |} ]))
           | _, _ => s_throw
           end)
        (s_logged w [SearchQuery (SelectLike (template_text query));
                     SearchGraphql query])
    with
    | (Ok r, w') => (Ok r, w')
    | (Throw, w') => (Ok search_error, w')
    end.
Proof.
  intros M A. rewrite (search_missed query w M).
  unfold s_bind at 1 2, s_emit at 1. cbn [s_db s_trace].
  rewrite A. unfold s_ret at 1. cbn beta iota.
  unfold s_logged. cbn [s_db s_trace]. now rewrite <- app_assoc.
Qed.

(** X20. In the earlier server a translation failure aborts the request:
    on a miss of [/search] answered by AniList with an anime, when the
    DeepL request is rejected, its body is not JSON or carries no
    translation, the answer is 500, no [INSERT] is sent and the tables are
    unchanged. The description is sent as it is, the string [null] when
    it is null. *)
Theorem search_translation_failure (query : qparam) (w : SearchWorld)
    (anime : Media.t) :
  search_misses query w ->
  s_anilist senv query = Some (Some anime) ->
  no_translation (form_text (Media.description anime)) (lit "PT") ->
  search query w
  = (Ok {| s_status := 500;
           s_body := SearchError (lit "Erro interno do servidor.") |},
     {| s_db := s_db w;
        s_trace := s_trace w
                   ++ [SearchQuery (SelectLike (template_text query));
                       SearchGraphql query;
                       SearchFetch (form_text (Media.description anime))
                         (lit "PT")] |}).
Proof.
  intros M A N. rewrite (search_found query w anime M A).
  unfold s_bind at 1. rewrite search_translateText_run.
  assert (T : match s_deepl senv (form_text (Media.description anime))
                      (lit "PT") with
              | FetchResponse _ (JsonTranslations (t :: _)) => Ok t
              | _ => @Throw (option jsstring)
              end = Throw).
  { destruct N as [N|[[ok N]|[ok N]]]; now rewrite N. }
  rewrite T. unfold s_logged, search_error. cbn [s_db s_trace].
  now rewrite <- app_assoc.
Qed.

(** X21. In the earlier server a miss of [/search] answered by AniList
    with no anime is answered 500, not 404, before DeepL is contacted; and
    an anime whose [genres] or [coverImage] is null is answered 500 after
    the description has been sent to DeepL, without any [INSERT]. In both
    cases the tables are unchanged. *)
Theorem search_missing_fields (query : qparam) (w : SearchWorld) :
  search_misses query w ->
  (s_anilist senv query = Some None ->
   search query w
   = (Ok {| s_status := 500;
            s_body := SearchError (lit "Erro interno do servidor.") |},
      {| s_db := s_db w;
         s_trace := s_trace w
                    ++ [SearchQuery (SelectLike (template_text query));
                        SearchGraphql query] |}))
  /\ (forall anime t ts ok,
        s_anilist senv query = Some (Some anime) ->
        s_deepl senv (form_text (Media.description anime)) (lit "PT")
        = FetchResponse ok (JsonTranslations (t :: ts)) ->
        Media.genres anime = None \/ Media.coverImage anime = None ->
        search query w
        = (Ok {| s_status := 500;
                 s_body := SearchError (lit "Erro interno do servidor.") |},
           {| s_db := s_db w;
              s_trace := s_trace w
                         ++ [SearchQuery (SelectLike (template_text query));
                             SearchGraphql query;
                             SearchFetch
                               (form_text (Media.description anime))
                               (lit "PT")] |})).
Proof.
  intro M. split.
  - intro A. rewrite (search_missed query w M).
    unfold s_bind at 1 2, s_emit at 1. cbn [s_db s_trace].
    rewrite A. unfold s_ret at 1. cbn beta iota.
    unfold s_throw, s_logged, search_error. cbn [s_db s_trace].
    now rewrite <- app_assoc.
  - intros anime t ts ok A D G. rewrite (search_found query w anime M A).
    unfold s_bind at 1. rewrite search_translateText_run, D.
    assert (K : match Media.genres anime, Media.coverImage anime with
                | Some genres, Some cover =>
                    s_bind
                      (s_query
                         (InsertAnime (search_values anime t genres cover))
                         (fun d =>
                            match
                              sql_insert_anime
                                (search_values anime t genres cover) d
                            with
                            | Some d' => Some (tt, d')
                            | None => None
                            end))
                      (fun _ =>
                         s_reply 200
                           (SearchApi
                              [ {| s_id := Media.id anime;
                                   s_title := Media.title anime;
                                   s_description := t;
                                   s_genres := genres;
                                   s_coverImage := CoverImage.extraLarge cover;
                                   s_bannerImage := Media.bannerImage anime |} ]))
                | _, _ => s_throw
                end = s_throw).
    { destruct G as [G|G]; rewrite G; [reflexivity|].
      now destruct (Media.genres anime). }
    rewrite K. unfold s_throw, s_logged, search_error. cbn [s_db s_trace].
    now rewrite <- app_assoc.
Qed.

Lemma insert_anime_taken (v : Animes.row) (d : Db) :
  In (Animes.id v) (map Animes.id (animes d)) -> sql_insert_anime v d = None.
Proof.
  intro I. unfold sql_insert_anime.
  assert (E : existsb (fun x => animes_key x =? animes_key v) (animes d)
              = true).
  { apply in_map_iff in I as (x & Ex & Ix). apply existsb_exists.
    exists x. split; [exact Ix|]. unfold animes_key. now apply Z.eqb_eq. }
  now rewrite E.
Qed.

Lemma insert_anime_free (v : Animes.row) (d : Db) :
  ~ In (Animes.id v) (map Animes.id (animes d)) ->
  sql_insert_anime v d
  = Some {| animes := animes d ++ [v]; anime_episodes := anime_episodes d |}.
Proof.
  intro N. unfold sql_insert_anime.
  destruct (existsb _ (animes d)) eqn:E; [|reflexivity].
  exfalso. apply N. apply existsb_exists in E as (x & Ix & Ex).
  unfold animes_key in Ex. apply Z.eqb_eq in Ex. rewrite <- Ex.
  now apply in_map.
Qed.

(** X22. The earlier server cannot refresh an anime: its [INSERT] has no
    [ON DUPLICATE KEY UPDATE]. On a miss of [/search] answered by AniList
    with an anime whose identifier already has a row (stored under a title
    and description the query does not match), the [INSERT] is sent and
    rejected, the answer is 500 and the tables are unchanged. *)
Theorem search_duplicate_id (query : qparam) (w : SearchWorld)
    (anime : Media.t) (t : option jsstring) (ts : list (option jsstring))
    (ok : bool) (genres : list (option jsstring)) (cover : CoverImage.t) :
  search_misses query w ->
  s_anilist senv query = Some (Some anime) ->
  s_deepl senv (form_text (Media.description anime)) (lit "PT")
  = FetchResponse ok (JsonTranslations (t :: ts)) ->
  Media.genres anime = Some genres ->
  Media.coverImage anime = Some cover ->
  In (Media.id anime) (map Animes.id (animes (s_db w))) ->
  search query w
  = (Ok {| s_status := 500;
           s_body := SearchError (lit "Erro interno do servidor.") |},
     {| s_db := s_db w;
        s_trace := s_trace w
                   ++ [SearchQuery (SelectLike (template_text query));
                       SearchGraphql query;
                       SearchFetch (form_text (Media.description anime))
                         (lit "PT");
                       SearchQuery
                         (InsertAnime (search_values anime t genres cover))] |}).
Proof.
  intros M A D G C I. rewrite (search_found query w anime M A).
  unfold s_bind at 1. rewrite search_translateText_run, D, G, C.
  unfold s_bind. rewrite s_query_rejected.
  - unfold s_logged, search_error. cbn [s_db s_trace].
    now rewrite <- !app_assoc.
  - cbn [s_logged s_db]. now rewrite insert_anime_taken.
Qed.

(** X23. A successful miss of the earlier [/search]: when AniList answers
    with an anime whose [genres] and [coverImage] are not null and whose
    identifier has no row yet, DeepL returns a translation and the
    [INSERT] runs, the answer is 200 with [source: 'api'] and one row is
    appended to [animes], the rows before it untouched. The description
    stored and the description returned are both the text DeepL gave, not
    sanitized, and the English title is stored as NULL when it is
    missing. *)
Theorem search_miss_stores (query : qparam) (w : SearchWorld)
    (anime : Media.t) (t : option jsstring) (ts : list (option jsstring))
    (ok : bool) (genres : list (option jsstring)) (cover : CoverImage.t) :
  search_misses query w ->
  s_anilist senv query = Some (Some anime) ->
  s_deepl senv (form_text (Media.description anime)) (lit "PT")
  = FetchResponse ok (JsonTranslations (t :: ts)) ->
  Media.genres anime = Some genres ->
  Media.coverImage anime = Some cover ->
  ~ In (Media.id anime) (map Animes.id (animes (s_db w))) ->
  s_fault senv (InsertAnime (search_values anime t genres cover)) (s_db w)
  = false ->
  exists r stored,
    search query w
    = (Ok r,
       {| s_db := {| animes := animes (s_db w) ++ [stored];
                     anime_episodes := anime_episodes (s_db w) |};
          s_trace := s_trace w
                     ++ [SearchQuery (SelectLike (template_text query));
                         SearchGraphql query;
                         SearchFetch (form_text (Media.description anime))
                           (lit "PT");
                         SearchQuery (InsertAnime stored)] |})
    /\ s_status r = 200
    /\ (exists result,
          s_body r = SearchApi [result] /\ s_description result = t)
    /\ Animes.id stored = Media.id anime
    /\ Animes.description stored = t
    /\ (truthy (MediaTitle.english (Media.title anime)) = false ->
        Animes.title_english stored = None).
Proof.
  intros M A D G C N F. rewrite (search_found query w anime M A).
  unfold s_bind at 1. rewrite search_translateText_run, D, G, C.
  unfold s_bind.
  erewrite s_query_ok;
    [| exact F
     | cbn [s_logged s_db]; rewrite insert_anime_free by exact N;
       reflexivity].
  eexists. exists (search_values anime t genres cover).
  split.
  - unfold s_reply, s_ret, s_logged. cbn [s_db s_trace].
    rewrite <- !app_assoc. reflexivity.
  - cbn [s_status s_body]. split; [reflexivity|].
    split; [eexists; split; reflexivity|].
    split; [reflexivity|]. split; [reflexivity|].
    intro E. cbn [search_values Animes.title_english]. unfold or_null.
    now rewrite E.
Qed.

End Server.

(* ================================================================== *)
(** * The properties on the sample deployment                           *)
(* ================================================================== *)

Local Abbreviation up := (Sample.world Sample.no_fault Sample.echo).
Local Abbreviation deepl_down := (Sample.world Sample.no_fault Sample.unavailable).
Local Abbreviation db_down := (Sample.world Sample.episodes_fault Sample.echo).
Local Abbreviation name_on env :=
  (anime_name Sample.isL Sample.isN Sample.sanitizeHtml Sample.contains env).
Local Abbreviation miss_on env :=
  (cache_miss Sample.isL Sample.isN Sample.contains env).

Ltac by_running := repeat split; vm_compute; reflexivity.

Lemma sample_miss (fault : DbOp -> Db -> bool)
    (deepl : jsstring -> jsstring -> FetchOutcome) :
  fault (name_select Sample.isL Sample.isN Sample.request (lit "Naruto!"))
    (db Sample.empty) = false ->
  miss_on (Sample.world fault deepl) Sample.request (lit "Naruto!")
    Sample.empty Sample.naruto.
Proof. intro F. repeat split; try reflexivity. exact F. Defined.

Lemma invalid_query_rejected_witness :
  invalid_query Sample.no_query
  /\ name_on up Sample.no_query Sample.empty
     = (Ok {| status := 400; body := bad_query |}, Sample.empty).
Proof.
  split; [exact I|].
  apply (invalid_query_rejected Sample.isL Sample.isN Sample.sanitizeHtml
           Sample.contains Sample.column_default up Sample.no_query
           Sample.empty I).
Defined.

Lemma search_titles_stays_local_witness :
  sql_select_titles Sample.contains
    (sanitizedQuery Sample.isL Sample.isN (lit "Bleach")) (db Sample.cached)
  = []
  /\ fst (search_titles Sample.isL Sample.isN Sample.contains up
            Sample.bleach Sample.cached)
     = Ok {| status := 200;
             body := BodyTitles database []
                       (Some (lit "Nenhum título encontrado no banco. Tente buscar na API AniList.")) |}.
Proof.
  split; [reflexivity|].
  rewrite (proj2 (search_titles_stays_local Sample.isL Sample.isN
                    Sample.contains up Sample.bleach Sample.cached)
             (lit "Bleach")); [reflexivity | by_running | reflexivity
                              | reflexivity].
Defined.

Lemma name_page_limit_witness :
  parseInt (with_default (page Sample.request) 1) = Some 5
  /\ parseInt (with_default (limit Sample.request) 10) = Some 7
  /\ (exists results w',
        name_on up Sample.request Sample.empty
        = (Ok {| status := 200;
                 body := BodyName api results (Some 1) (Some 1) |}, w'))
  /\ exists w',
       name_on up Cases.paged Sample.cached
       = (Ok {| status := 200;
                body := BodyName database [DbResult Sample.row1 []]
                          (Some 1) (Some 7) |}, w').
Proof.
  split; [reflexivity|]. split; [reflexivity|]. split.
  - destruct (proj1 (name_page_limit Sample.isL Sample.isN
                       Sample.sanitizeHtml Sample.contains up
                       Sample.request Sample.empty)
                (lit "Naruto!") Sample.naruto
                (sample_miss Sample.no_fault Sample.echo eq_refl)
                (fun op d => eq_refl)) as (w' & E).
    eexists. exists w'. exact E.
  - apply (proj1 (proj2 (name_page_limit Sample.isL Sample.isN
                           Sample.sanitizeHtml Sample.contains up
                           Cases.paged Sample.cached))
             (lit "Naruto") [Sample.row1]);
      try reflexivity.
    split; reflexivity.
Defined.

Lemma missing_titles_stored_witness :
  truthy (MediaTitle.english (Media.title Sample.naruto)) = false
  /\ truthy (MediaTitle.native (Media.title Sample.naruto)) = false
  /\ (exists r,
        find_anime 20
          (animes (db (snd (search_api Sample.isL Sample.isN
                              Sample.column_default up Sample.request
                              Sample.empty)))) = Some r
        /\ Animes.title_english r = Some (lit "N/A")
        /\ Animes.title_native r = None)
  /\ exists r,
       find_anime 20
         (animes (db (snd (name_on up Sample.request Sample.empty))))
       = Some r
       /\ Animes.title_english r = Some (lit "N/A")
       /\ Animes.title_native r = None.
Proof.
  destruct (missing_titles_stored Sample.isL Sample.isN Sample.sanitizeHtml
              Sample.contains Sample.column_default up Sample.request
              (lit "Naruto!") Sample.empty) as [A B].
  split; [reflexivity|]. split; [reflexivity|]. split.
  - destruct (A [Sample.naruto] Sample.naruto) as (r & F & E & _ & _ & _ & N & _);
      [ split; reflexivity | reflexivity | reflexivity
      | repeat constructor; intros []
      | now left | ].
    exists r. split; [exact F|]. split; [exact (E eq_refl) | exact (N eq_refl)].
  - destruct (B Sample.naruto
                (sample_miss Sample.no_fault Sample.echo eq_refl)
                (fun op d => eq_refl)) as (r & F & E & _ & _ & _ & N & _).
    exists r. split; [exact F|]. split; [exact (E eq_refl) | exact (N eq_refl)].
Defined.

Lemma anime_upsert_in_place_witness :
  NoDup (map Animes.id (animes (db Sample.cached)))
  /\ Animes.id Sample.row1 = Animes.id Sample.row2
  /\ filter (fun x => Animes.id x =? 20)
       (animes (sql_upsert_anime Sample.row2
                  (sql_upsert_anime Sample.row1 (db Sample.cached))))
     = [Sample.row2].
Proof.
  assert (K : NoDup (map Animes.id (animes (db Sample.cached))))
    by (repeat constructor; simpl; tauto).
  split; [exact K|]. split; [reflexivity|].
  apply (anime_upsert_in_place Sample.row1 Sample.row2 (db Sample.cached)
           K eq_refl).
Defined.

Lemma name_persists_episodes_then_anime_witness :
  miss_on db_down Sample.request (lit "Naruto!") Sample.empty Sample.naruto
  /\ fst (name_on db_down Sample.request Sample.empty)
     = Ok {| status := 500; body := internal_error |}
  /\ db (snd (name_on db_down Sample.request Sample.empty))
     = db Sample.empty.
Proof.
  pose proof (sample_miss Sample.episodes_fault Sample.echo eq_refl) as Hm.
  split; [exact Hm|].
  rewrite (proj1 (name_persists_episodes_then_anime Sample.isL Sample.isN
                    Sample.sanitizeHtml Sample.contains db_down
                    Sample.request (lit "Naruto!") Sample.empty
                    Sample.naruto Hm) eq_refl eq_refl).
  split; reflexivity.
Defined.

(** C1, as the specification states it, fails: with the episode statement
    failing on a cache miss for an anime not yet in [animes], the request
    is answered 500, its last statement is the episode batch (no anime
    statement was sent before it or at all) and [animes] holds no row for
    the anime. *)
Lemma episode_fault_leaves_no_anime_row :
  let out := name_on db_down Sample.request Sample.empty in
  fst out = Ok {| status := 500; body := internal_error |}
  /\ last (trace (snd out)) (GraphqlMedia [])
     = PoolQuery
         (UpsertEpisodes
            (final_episodes Sample.sanitizeHtml db_down Sample.naruto))
  /\ Forall (fun e => forall v, e <> PoolQuery (UpsertAnime v))
       (trace (snd out))
  /\ find_anime (Media.id Sample.naruto) (animes (db (snd out))) = None.
Proof.
  vm_compute. repeat split; repeat constructor; intros; discriminate.
Qed.

Lemma translation_failure_is_absorbed_witness :
  translation_fails deepl_down (description_text Sample.naruto) PT_BR
  /\ Sample.sanitizeHtml translation_unavailable = translation_unavailable
  /\ exists r w' stored,
       name_on deepl_down Sample.request Sample.empty = (Ok r, w')
       /\ status r = 200
       /\ body r
          = BodyName api
              [ApiResult (api_anime Sample.naruto translation_unavailable)
                 (map api_episode
                    (final_episodes Sample.sanitizeHtml deepl_down
                       Sample.naruto))]
              (Some 1) (Some 1)
       /\ r_description (api_anime Sample.naruto translation_unavailable)
          = translation_unavailable
       /\ find_anime (Media.id Sample.naruto) (animes (db w')) = Some stored
       /\ Animes.description stored = Some translation_unavailable.
Proof.
  assert (F : translation_fails deepl_down (description_text Sample.naruto)
                PT_BR) by (right; eexists; reflexivity).
  split; [exact F|]. split; [reflexivity|].
  apply (proj2 (proj2 (translation_failure_is_absorbed Sample.isL Sample.isN
                         Sample.sanitizeHtml Sample.contains deepl_down))
           Sample.request (lit "Naruto!") Sample.empty Sample.naruto
           (sample_miss Sample.no_fault Sample.unavailable eq_refl)
           (fun op d => eq_refl) F eq_refl).
Defined.

Lemma episodes_numbered_by_position_witness :
  option_map (@List.length _) (Media.streamingEpisodes Sample.naruto) = Some 2%nat
  /\ exists r w',
       name_on up Sample.request Sample.empty = (Ok r, w')
       /\ status r = 200
       /\ api_numbers r = [1; 2]
       /\ map AnimeEpisodes.episode_number
            (final_episodes Sample.sanitizeHtml up Sample.naruto) = [1; 2]
       /\ map AnimeEpisodes.episode_number (anime_episodes (db w')) = [1; 2].
Proof.
  split; [reflexivity|].
  destruct (episodes_numbered_by_position Sample.isL Sample.isN
              Sample.sanitizeHtml Sample.contains up Sample.request
              (lit "Naruto!") Sample.empty Sample.naruto _
              (sample_miss Sample.no_fault Sample.echo eq_refl)
              (fun op d => eq_refl) eq_refl)
    as (r & w' & E & S & _ & N & A & _).
  exists r, w'. split; [exact E|]. split; [exact S|].
  split; [exact A|]. split; [exact N|].
  vm_compute in E. inversion E. reflexivity.
Defined.


Lemma query_normalized_witness :
  valid_query Sample.request (lit "Naruto!")
  /\ sanitizedQuery Sample.isL Sample.isN (lit "Naruto!") = lit "Naruto"
  /\ Forall (fun c => Sample.isL c || Sample.isN c || is_space c = true)
       (sanitizedQuery Sample.isL Sample.isN (lit "Naruto!"))
  /\ trace (snd (search_titles Sample.isL Sample.isN Sample.contains up
                   Sample.request Sample.empty))
     = [PoolQuery (SelectTitles (lit "Naruto"))].
Proof.
  assert (V : valid_query Sample.request (lit "Naruto!")) by by_running.
  split; [exact V|]. split; [reflexivity|].
  destruct (query_normalized Sample.isL Sample.isN Sample.sanitizeHtml
              Sample.contains Sample.column_default up Sample.request
              (lit "Naruto!") Sample.empty V)
    as (C & _ & _ & T & _).
  split; [exact C | exact T].
Defined.

(** ** The routes at work *)

Example sanitizedQuery_sample :
  sanitizedQuery Sample.isL Sample.isN (lit "  Nar-uto! 2 ") = lit "Naruto 2".
Proof. reflexivity. Qed.

Example parseInt_samples :
  parseInt (VStr (lit " 42px")) = Some 42
  /\ parseInt (VStr (lit "-7")) = Some (-7)
  /\ parseInt (VStr (lit "0x1f")) = Some 31
  /\ parseInt (VStr (lit "abc")) = None
  /\ parseInt (VArr [lit "2"; lit "9"]) = Some 2
  /\ parseInt (with_default QMissing 10) = Some 10.
Proof. repeat split; reflexivity. Qed.

(** [parseInt] gives doubles: an integer beyond 2^53 is rounded and a run
    of 400 digits is [Infinity], which times 0 is [NaN]. *)
Example parseInt_doubles :
  parseInt (VStr (lit "9007199254740993")) = Some 9007199254740992
  /\ parseInt (VStr (lit "9007199254740995")) = Some 9007199254740996
  /\ parseInt (VStr (repeat 57%N 400)) = None
  /\ num_mul (num_sub (parseInt (VStr (repeat 57%N 400))) (Some 1)) (Some 0)
     = None.
Proof. repeat split; vm_compute; reflexivity. Qed.

(** Numbers as [String] prints them: every digit below 2^53, the shortest
    digits that read back and zeros up to 10^21, then exponent notation,
    of which [parseInt] reads the first digit. *)
Example parseInt_num_samples :
  printed (2 ^ 63) = 9223372036854776000
  /\ parseInt_num (Some (2 ^ 63)) = Some (2 ^ 63)
  /\ to_double (10 ^ 23) = Some 99999999999999991611392
  /\ parseInt_num (to_double (10 ^ 23)) = Some 1
  /\ parseInt_num (Some (- 2 ^ 70)) = Some (-1).
Proof. repeat split; vm_compute; reflexivity. Qed.

(** [?page=100000000000&limit=100000000000]: the offset
    9999999999900000000000 prints as [9.9999999999e+21], and the statement
    is sent with [OFFSET 9]. *)
Example name_offset_exponent :
  num_mul (num_sub (parseInt (with_default (page Cases.far_page) 1)) (Some 1))
    (parseInt (with_default (limit Cases.far_page) 10))
  = Some 9999999999899999404032
  /\ name_select Sample.isL Sample.isN Cases.far_page (lit "Naruto")
     = SelectAnimes (lit "Naruto") (Some 100000000000) (Some 9).
Proof. split; vm_compute; reflexivity. Qed.

Example translation_unavailable_text :
  translation_unavailable
  = [84; 114; 97; 100; 117; 231; 227; 111; 32; 105; 110; 100; 105; 115;
     112; 111; 110; 237; 118; 101; 108]%N.
Proof. reflexivity. Qed.

(** A cache hit: one [SELECT] on [animes], one on [anime_episodes] per
    row, and the parsed [page] and [limit] in the answer. *)
Example name_hit :
  name_on up Sample.first_page Sample.cached
  = (Ok {| status := 200;
           body := BodyName database [DbResult Sample.row1 []]
                     (Some 1) (Some 10) |},
     {| db := db Sample.cached;
        trace := [PoolQuery (SelectAnimes (lit "Naruto") (Some 10) (Some 0));
                  PoolQuery (SelectEpisodes 20)] |}).
Proof. vm_compute. reflexivity. Qed.

(** A cache hit with [limit=9007199254740993], one more than 2^53: the
    statement and the answer carry the double, 9007199254740992. *)
Example name_hit_rounded_limit :
  name_on up Cases.big_limit Sample.cached
  = (Ok {| status := 200;
           body := BodyName database [DbResult Sample.row1 []]
                     (Some 1) (Some 9007199254740992) |},
     {| db := db Sample.cached;
        trace := [PoolQuery (SelectAnimes (lit "Naruto")
                               (Some 9007199254740992) (Some 0));
                  PoolQuery (SelectEpisodes 20)] |}).
Proof. lazy. reflexivity. Qed.

(** [limit=abc] parses to [NaN]; the [SELECT] is rejected and the request
    answered 500. *)
Example name_bad_limit :
  name_on up Sample.bad_limit Sample.cached
  = (Ok {| status := 500; body := internal_error |},
     {| db := db Sample.cached;
        trace := [PoolQuery (SelectAnimes (lit "Naruto") None None)] |}).
Proof. vm_compute. reflexivity. Qed.

(** A cache miss on a row already stored under another page of results:
    the row of identifier 20 is updated in place. *)
Example name_miss_updates_in_place :
  map Animes.id
    (animes (db (snd (name_on up Sample.request Sample.cached)))) = [20]
  /\ map Animes.title_romaji
       (animes (db (snd (name_on up Sample.request Sample.cached))))
     = [Some (lit "NARUTO")].
Proof. split; vm_compute; reflexivity. Qed.

(** ** The further properties on the sample cases *)

Local Abbreviation titles_on env :=
  (search_titles Sample.isL Sample.isN Sample.contains env).
Local Abbreviation api_on env :=
  (search_api Sample.isL Sample.isN Sample.column_default env).
Local Abbreviation search_on senv :=
  (search Sample.column_default Sample.contains senv).

Lemma translateText_result_witness :
  deepl up (lit "Ninja") PT_BR
  = FetchResponse true (JsonTranslations [Some (lit "Ninja")])
  /\ fst (translateText up (lit "Ninja") PT_BR Sample.empty)
     = Ok (lit "Ninja").
Proof.
  split; [reflexivity|].
  destruct (translateText_result up (lit "Ninja") PT_BR Sample.empty)
    as (s & E & H & _).
  rewrite E, (H 78%N (tl (lit "Ninja")) [] eq_refl). reflexivity.
Defined.

Lemma search_titles_hit_witness :
  valid_query Sample.first_page (lit "Naruto")
  /\ fst (titles_on up Sample.first_page Sample.cached)
     = Ok {| status := 200;
             body := BodyTitles database [titles_of_row Sample.row1] None |}.
Proof.
  assert (V : valid_query Sample.first_page (lit "Naruto")) by by_running.
  split; [exact V|].
  rewrite (proj1 (search_titles_hit Sample.isL Sample.isN Sample.contains up
                    Sample.first_page (lit "Naruto") Sample.cached
                    V eq_refl eq_refl)).
  reflexivity.
Defined.

Lemma search_titles_read_only_witness :
  db_fault (Sample.world Cases.titles_fault Sample.echo)
    (SelectTitles (lit "Naruto")) (db Sample.cached) = true
  /\ fst (titles_on (Sample.world Cases.titles_fault Sample.echo)
            Sample.first_page Sample.cached)
     = Ok {| status := 500; body := internal_error |}
  /\ db (snd (titles_on (Sample.world Cases.titles_fault Sample.echo)
                Sample.first_page Sample.cached))
     = db Sample.cached.
Proof.
  split; [reflexivity|].
  destruct (search_titles_read_only Sample.isL Sample.isN Sample.contains
              (Sample.world Cases.titles_fault Sample.echo)
              Sample.first_page Sample.cached) as [D F].
  split; [|exact D].
  rewrite (F (lit "Naruto")); [reflexivity | by_running | reflexivity].
Defined.

Lemma search_api_not_found_witness :
  valid_query Sample.request (lit "Naruto!")
  /\ api_on (Cases.nothing Sample.no_fault) Sample.request Sample.cached
     = (Ok {| status := 404;
              body := BodyError (lit "Nenhum anime encontrado na API.") |},
        {| db := db Sample.cached;
           trace := [GraphqlPage (lit "Naruto") (Some 5) (Some 3)] |}).
Proof.
  assert (V : valid_query Sample.request (lit "Naruto!")) by by_running.
  split; [exact V|].
  apply (search_api_not_found Sample.isL Sample.isN Sample.column_default
           (Cases.nothing Sample.no_fault) Sample.request (lit "Naruto!")
           Sample.cached V (or_intror eq_refl)).
Defined.

Lemma search_api_failure_witness :
  valid_query Sample.request (lit "Naruto!")
  /\ api_on (Cases.anilist_down Sample.no_fault) Sample.request Sample.cached
     = (Ok {| status := 500; body := internal_error |},
        {| db := db Sample.cached;
           trace := [GraphqlPage (lit "Naruto") (Some 5) (Some 3)] |})
  /\ api_on (Sample.world Cases.titles_fault Sample.echo) Sample.request
       Sample.cached
     = (Ok {| status := 500; body := internal_error |},
        {| db := db Sample.cached;
           trace := [GraphqlPage (lit "Naruto") (Some 5) (Some 3);
                     PoolQuery
                       (UpsertTitles [title_values Sample.naruto])] |}).
Proof.
  assert (V : valid_query Sample.request (lit "Naruto!")) by by_running.
  split; [exact V|]. split.
  - apply (proj1 (search_api_failure Sample.isL Sample.isN
                    Sample.column_default (Cases.anilist_down Sample.no_fault)
                    Sample.request (lit "Naruto!") Sample.cached V) eq_refl).
  - apply (proj2 (search_api_failure Sample.isL Sample.isN
                    Sample.column_default
                    (Sample.world Cases.titles_fault Sample.echo)
                    Sample.request (lit "Naruto!") Sample.cached V)
             [Sample.naruto] eq_refl eq_refl eq_refl).
Defined.

Lemma name_hit_answer_witness :
  valid_query Sample.first_page (lit "Naruto")
  /\ page_of Sample.contains (lit "Naruto") 10 0 (db Sample.cached)
     = [Sample.row1]
  /\ name_on up Sample.first_page Sample.cached
     = (Ok {| status := 200;
              body := BodyName database [DbResult Sample.row1 []]
                        (Some 1) (Some 10) |},
        {| db := db Sample.cached;
           trace := [PoolQuery (SelectAnimes (lit "Naruto") (Some 10) (Some 0));
                     PoolQuery (SelectEpisodes 20)] |})
  /\ parseInt (with_default (limit Cases.big_limit) 10)
     = Some 9007199254740992
  /\ fst (name_on up Cases.big_limit Sample.cached)
     = Ok {| status := 200;
             body := BodyName database [DbResult Sample.row1 []]
                       (Some 1) (Some 9007199254740992) |}.
Proof.
  assert (V : valid_query Sample.first_page (lit "Naruto")) by by_running.
  split; [exact V|]. split; [reflexivity|]. split.
  - apply (name_hit_answer Sample.isL Sample.isN Sample.sanitizeHtml
             Sample.contains up Sample.first_page (lit "Naruto") Sample.cached
             10 0 V eq_refl eq_refl); try reflexivity; lia.
  - split; [reflexivity|].
    rewrite (name_hit_answer Sample.isL Sample.isN Sample.sanitizeHtml
               Sample.contains up Cases.big_limit (lit "Naruto")
               Sample.cached 9007199254740992 0 V eq_refl eq_refl);
      try reflexivity; lia.
Defined.

Lemma name_hit_episode_failure_witness :
  valid_query Sample.first_page (lit "Naruto")
  /\ name_on (Sample.world Cases.select_episodes_fault Sample.echo)
       Sample.first_page Sample.cached
     = (Ok {| status := 500; body := internal_error |},
        {| db := db Sample.cached;
           trace := [PoolQuery (SelectAnimes (lit "Naruto") (Some 10) (Some 0));
                     PoolQuery (SelectEpisodes 20)] |}).
Proof.
  assert (V : valid_query Sample.first_page (lit "Naruto")) by by_running.
  split; [exact V|].
  apply (name_hit_episode_failure Sample.isL Sample.isN Sample.sanitizeHtml
           Sample.contains (Sample.world Cases.select_episodes_fault Sample.echo)
           Sample.first_page (lit "Naruto") Sample.cached
           10 0 V eq_refl eq_refl); try reflexivity; lia.
Defined.

Lemma name_miss_without_anime_witness :
  misses Sample.isL Sample.isN Sample.contains (Cases.nothing Sample.no_fault)
    Sample.request (lit "Naruto!") Sample.cached
  /\ name_on (Cases.nothing Sample.no_fault) Sample.request Sample.cached
     = (Ok {| status := 404;
              body := BodyError (lit "Anime não encontrado na AniList API.") |},
        {| db := db Sample.cached;
           trace := [PoolQuery (SelectAnimes (lit "Naruto") (Some 7) (Some 28));
                     GraphqlMedia (lit "Naruto")] |}).
Proof.
  assert (M : misses Sample.isL Sample.isN Sample.contains
                (Cases.nothing Sample.no_fault) Sample.request
                (lit "Naruto!") Sample.cached) by by_running.
  split; [exact M|].
  apply (proj1 (name_miss_without_anime Sample.isL Sample.isN
                  Sample.sanitizeHtml Sample.contains
                  (Cases.nothing Sample.no_fault) Sample.request
                  (lit "Naruto!") Sample.cached M) eq_refl).
Defined.

Lemma name_bad_pagination_witness :
  name_offset Cases.page_zero = Some (-10)
  /\ name_on up Cases.page_zero Sample.cached
     = (Ok {| status := 500; body := internal_error |},
        {| db := db Sample.cached;
           trace := [PoolQuery
                       (SelectAnimes (lit "Naruto") (Some 10) (Some (-10)))] |}).
Proof.
  split; [reflexivity|].
  apply (name_bad_pagination Sample.isL Sample.isN Sample.sanitizeHtml
           Sample.contains up Cases.page_zero (lit "Naruto") Sample.cached).
  - by_running.
  - right. reflexivity.
Defined.

Lemma name_limit_zero_witness :
  page_of Sample.contains (lit "Naruto") 10 0 (db Sample.cached)
  = [Sample.row1]
  /\ (exists rest,
        trace (snd (name_on up Cases.limit_zero Sample.cached))
        = PoolQuery (SelectAnimes (lit "Naruto") (Some 0) (Some 0))
            :: GraphqlMedia (lit "Naruto") :: rest)
  /\ name_on up Cases.limit_zero_page_abc Sample.cached
     = (Ok {| status := 500; body := internal_error |},
        {| db := db Sample.cached;
           trace := [PoolQuery (SelectAnimes (lit "Naruto") (Some 0) None)] |}).
Proof.
  split; [reflexivity|]. split.
  - apply (proj1 (proj2 (name_limit_zero Sample.isL Sample.isN
                           Sample.sanitizeHtml Sample.contains up
                           Cases.limit_zero (lit "Naruto") Sample.cached
                           ltac:(by_running) eq_refl))
             0 eq_refl eq_refl).
  - apply (proj2 (proj2 (name_limit_zero Sample.isL Sample.isN
                           Sample.sanitizeHtml Sample.contains up
                           Cases.limit_zero_page_abc (lit "Naruto")
                           Sample.cached ltac:(by_running) eq_refl))
             eq_refl).
Defined.

Lemma name_miss_translations_witness :
  miss_on up Sample.request (lit "Naruto!") Sample.empty Sample.naruto
  /\ exists tail,
       trace (snd (name_on up Sample.request Sample.empty))
       = [PoolQuery (SelectAnimes (lit "Naruto") (Some 7) (Some 28));
          GraphqlMedia (lit "Naruto");
          Fetch (lit "<i>Ninja</i> story") PT_BR;
          Fetch (lit "Enter Naruto") PT_BR;
          Fetch [] PT_BR] ++ tail
       /\ (List.length tail <= 2)%nat.
Proof.
  pose proof (sample_miss Sample.no_fault Sample.echo eq_refl) as M.
  split; [exact M|].
  destruct (name_miss_translations Sample.isL Sample.isN Sample.sanitizeHtml
              Sample.contains up Sample.request (lit "Naruto!") Sample.empty
              Sample.naruto M) as (tail & T & _ & L).
  exists tail. split; [exact T | exact L].
Defined.

Lemma name_miss_no_episodes_witness :
  miss_on Cases.bleach_world Sample.request (lit "Naruto!") Sample.cached
    Cases.bleach
  /\ streaming Cases.bleach = []
  /\ map (fun e => is_write e)
       (trace (snd (name_on Cases.bleach_world Sample.request Sample.cached)))
     = [false; false; false; true]
  /\ anime_episodes
       (db (snd (name_on Cases.bleach_world Sample.request Sample.cached)))
     = [].
Proof.
  assert (M : miss_on Cases.bleach_world Sample.request (lit "Naruto!")
                Sample.cached Cases.bleach) by by_running.
  split; [exact M|]. split; [reflexivity|].
  rewrite (name_miss_no_episodes Sample.isL Sample.isN Sample.sanitizeHtml
             Sample.contains Cases.bleach_world Sample.request
             (lit "Naruto!") Sample.cached Cases.bleach M eq_refl eq_refl).
  split; reflexivity.
Defined.

Lemma search_api_then_name_hits_witness :
  valid_query Sample.request (lit "Naruto!")
  /\ valid_query Cases.upper (lit "NARUTO")
  /\ exists rows,
       is_empty rows = false
       /\ fst (name_on up Cases.upper
                 (snd (api_on up Sample.request Sample.empty)))
          = Ok {| status := 200;
                  body := BodyName database
                            (map (fun x => DbResult x []) rows)
                            (Some 1) (Some 10) |}.
Proof.
  assert (V1 : valid_query Sample.request (lit "Naruto!")) by by_running.
  assert (V2 : valid_query Cases.upper (lit "NARUTO")) by by_running.
  split; [exact V1|]. split; [exact V2|].
  destruct (search_api_then_name_hits Sample.isL Sample.isN
              Sample.sanitizeHtml Sample.contains Sample.column_default up
              Sample.request Cases.upper (lit "Naruto!") (lit "NARUTO")
              Sample.empty [Sample.naruto] V1 eq_refl eq_refl
              (fun op d => eq_refl) eq_refl V2 eq_refl eq_refl)
    as (rows & N & E).
  - intros a [<-|[]]. reflexivity.
  - exists rows. split; [exact N|]. now rewrite E.
Defined.

Lemma search_api_twice_witness :
  NoDup (map Media.id [Sample.naruto])
  /\ db (snd (api_on up Sample.request
                (snd (api_on up Sample.request Sample.cached))))
     = db (snd (api_on up Sample.request Sample.cached)).
Proof.
  assert (D : NoDup (map Media.id [Sample.naruto]))
    by (repeat constructor; simpl; tauto).
  split; [exact D|].
  apply (search_api_twice Sample.isL Sample.isN Sample.column_default up
           Sample.request (lit "Naruto!") Sample.cached [Sample.naruto]
           ltac:(by_running) eq_refl eq_refl D (fun op d => eq_refl)).
Defined.

Lemma name_miss_twice_witness :
  miss_on up Sample.request (lit "Naruto!") Sample.empty Sample.naruto
  /\ miss_on up Sample.request (lit "Naruto!")
       (snd (name_on up Sample.request Sample.empty)) Sample.naruto
  /\ db (snd (name_on up Sample.request
                (snd (name_on up Sample.request Sample.empty))))
     = db (snd (name_on up Sample.request Sample.empty)).
Proof.
  pose proof (sample_miss Sample.no_fault Sample.echo eq_refl) as M1.
  assert (M2 : miss_on up Sample.request (lit "Naruto!")
                 (snd (name_on up Sample.request Sample.empty))
                 Sample.naruto) by by_running.
  split; [exact M1|]. split; [exact M2|].
  apply (name_miss_twice Sample.isL Sample.isN Sample.sanitizeHtml
           Sample.contains up Sample.request (lit "Naruto!") Sample.empty
           Sample.naruto M1 M2 (fun op d => eq_refl)).
Defined.

Lemma routes_keep_keys_witness :
  keys_unique (db Sample.cached)
  /\ keys_unique (db (snd (name_on up Sample.request Sample.cached))).
Proof.
  assert (K : keys_unique (db Sample.cached))
    by (split; repeat constructor; simpl; tauto).
  split; [exact K|].
  apply (routes_keep_keys Sample.isL Sample.isN Sample.sanitizeHtml
           Sample.contains Sample.column_default up Sample.request
           Sample.cached K).
Defined.

Lemma routes_keep_english_witness :
  english_set (db Sample.cached)
  /\ english_set (db (snd (api_on up Sample.request Sample.cached))).
Proof.
  assert (K : english_set (db Sample.cached))
    by (repeat constructor).
  split; [exact K|].
  apply (routes_keep_english Sample.isL Sample.isN Sample.sanitizeHtml
           Sample.contains Sample.column_default up Sample.request
           Sample.cached K).
Defined.

Lemma routes_keep_episodes_witness :
  episodes_ok (db Sample.empty)
  /\ episodes_ok (db (snd (name_on up Sample.request Sample.empty)))
  /\ List.length
       (anime_episodes (db (snd (name_on up Sample.request Sample.empty))))
     = 2%nat.
Proof.
  assert (K : episodes_ok (db Sample.empty)) by constructor.
  split; [exact K|]. split; [|reflexivity].
  apply (routes_keep_episodes Sample.isL Sample.isN Sample.sanitizeHtml
           Sample.contains Sample.column_default up Sample.request
           Sample.empty K).
Defined.

Lemma search_validation_witness :
  search_on (Cases.search_world Sample.echo) (QStr []) Cases.search_empty
  = (Ok {| s_status := 400;
           s_body := SearchError (lit "Query é obrigatória.") |},
     Cases.search_empty)
  /\ exists rest,
       s_trace (snd (search_on (Cases.search_world Sample.echo)
                       (QStr (lit "  ")) Cases.search_empty))
       = SearchQuery (SelectLike (lit "  ")) :: rest.
Proof.
  split.
  - apply (proj1 (search_validation Sample.column_default Sample.contains
                    (Cases.search_world Sample.echo) (QStr [])
                    Cases.search_empty) (or_intror eq_refl)).
  - apply (proj2 (search_validation Sample.column_default Sample.contains
                    (Cases.search_world Sample.echo) (QStr (lit "  "))
                    Cases.search_empty) 32%N [32%N] [] (or_introl eq_refl)).
Defined.

Lemma search_translation_failure_witness :
  search_misses Sample.contains (Cases.search_world Cases.rejected)
    (QStr (lit "Naruto")) Cases.search_empty
  /\ search_on (Cases.search_world Cases.rejected) (QStr (lit "Naruto"))
       Cases.search_empty
     = (Ok {| s_status := 500;
              s_body := SearchError (lit "Erro interno do servidor.") |},
        {| s_db := s_db Cases.search_empty;
           s_trace := [SearchQuery (SelectLike (lit "Naruto"));
                       SearchGraphql (QStr (lit "Naruto"));
                       SearchFetch (lit "<i>Ninja</i> story") (lit "PT")] |}).
Proof.
  assert (M : search_misses Sample.contains
                (Cases.search_world Cases.rejected) (QStr (lit "Naruto"))
                Cases.search_empty) by by_running.
  split; [exact M|].
  apply (search_translation_failure Sample.column_default Sample.contains
           (Cases.search_world Cases.rejected) (QStr (lit "Naruto"))
           Cases.search_empty Sample.naruto M eq_refl (or_introl eq_refl)).
Defined.

Lemma search_missing_fields_witness :
  search_misses Sample.contains Cases.search_nothing (QStr (lit "Naruto"))
    Cases.search_empty
  /\ search_on Cases.search_nothing (QStr (lit "Naruto")) Cases.search_empty
     = (Ok {| s_status := 500;
              s_body := SearchError (lit "Erro interno do servidor.") |},
        {| s_db := s_db Cases.search_empty;
           s_trace := [SearchQuery (SelectLike (lit "Naruto"));
                       SearchGraphql (QStr (lit "Naruto"))] |}).
Proof.
  assert (M : search_misses Sample.contains Cases.search_nothing
                (QStr (lit "Naruto")) Cases.search_empty) by by_running.
  split; [exact M|].
  apply (proj1 (search_missing_fields Sample.column_default Sample.contains
                  Cases.search_nothing (QStr (lit "Naruto"))
                  Cases.search_empty M) eq_refl).
Defined.

Lemma search_duplicate_id_witness :
  search_misses Sample.contains (Cases.search_world Sample.echo)
    (QStr (lit "Bleach")) Cases.search_cached
  /\ In (Media.id Sample.naruto)
       (map Animes.id (animes (s_db Cases.search_cached)))
  /\ fst (search_on (Cases.search_world Sample.echo) (QStr (lit "Bleach"))
            Cases.search_cached)
     = Ok {| s_status := 500;
             s_body := SearchError (lit "Erro interno do servidor.") |}
  /\ s_db (snd (search_on (Cases.search_world Sample.echo)
                  (QStr (lit "Bleach")) Cases.search_cached))
     = s_db Cases.search_cached.
Proof.
  assert (M : search_misses Sample.contains (Cases.search_world Sample.echo)
                (QStr (lit "Bleach")) Cases.search_cached) by by_running.
  assert (I : In (Media.id Sample.naruto)
                (map Animes.id (animes (s_db Cases.search_cached))))
    by (now left).
  split; [exact M|]. split; [exact I|].
  rewrite (search_duplicate_id Sample.column_default Sample.contains
             (Cases.search_world Sample.echo) (QStr (lit "Bleach"))
             Cases.search_cached Sample.naruto
             (Some (lit "<i>Ninja</i> story")) [] true
             [Some (lit "Action"); Some (lit "Comedy")]
             {| CoverImage.extraLarge := Some (lit "c.png") |}
             M eq_refl eq_refl eq_refl eq_refl I).
  split; reflexivity.
Defined.

Lemma search_miss_stores_witness :
  search_misses Sample.contains (Cases.search_world Sample.echo)
    (QStr (lit "Naruto")) Cases.search_empty
  /\ exists r stored,
       fst (search_on (Cases.search_world Sample.echo) (QStr (lit "Naruto"))
              Cases.search_empty) = Ok r
       /\ s_status r = 200
       /\ animes (s_db (snd (search_on (Cases.search_world Sample.echo)
                               (QStr (lit "Naruto")) Cases.search_empty)))
          = [stored]
       /\ Animes.description stored = Some (lit "<i>Ninja</i> story")
       /\ Animes.title_english stored = None.
Proof.
  assert (M : search_misses Sample.contains (Cases.search_world Sample.echo)
                (QStr (lit "Naruto")) Cases.search_empty) by by_running.
  split; [exact M|].
  destruct (search_miss_stores Sample.column_default Sample.contains
              (Cases.search_world Sample.echo) (QStr (lit "Naruto"))
              Cases.search_empty Sample.naruto
              (Some (lit "<i>Ninja</i> story")) [] true
              [Some (lit "Action"); Some (lit "Comedy")]
              {| CoverImage.extraLarge := Some (lit "c.png") |}
              M eq_refl eq_refl eq_refl eq_refl (fun H => H) eq_refl)
    as (r & stored & E & S & _ & _ & D & T).
  exists r, stored. rewrite E. cbn [fst snd s_db animes].
  split; [reflexivity|]. split; [exact S|]. split; [reflexivity|].
  split; [exact D | exact (T eq_refl)].
Defined.

Lemma sanitizedQuery_idempotent_witness :
  Forall (fun c => Sample.isL c || Sample.isN c || is_space c = true)
    (lit "Naruto 2")
  /\ sanitizedQuery Sample.isL Sample.isN (lit "Naruto 2") = lit "Naruto 2".
Proof.
  assert (C : Forall (fun c => Sample.isL c || Sample.isN c || is_space c
                               = true) (lit "Naruto 2"))
    by (repeat constructor).
  split; [exact C|].
  apply (proj2 (sanitizedQuery_idempotent Sample.isL Sample.isN
                  (lit "Naruto 2")) C).
  intros c [H|H]; vm_compute in H; inversion H; reflexivity.
Defined.

Lemma search_titles_punctuation_witness :
  valid_query Cases.punctuation (lit "!!!")
  /\ sanitizedQuery Sample.isL Sample.isN (lit "!!!") = []
  /\ fst (titles_on up Cases.punctuation Sample.cached)
     = Ok {| status := 200;
             body := BodyTitles database [titles_of_row Sample.row1] None |}.
Proof.
  assert (V : valid_query Cases.punctuation (lit "!!!")) by by_running.
  split; [exact V|].
  destruct (search_titles_punctuation Sample.isL Sample.isN Sample.contains
              up Cases.punctuation (lit "!!!") Sample.cached V) as [E R];
    try reflexivity.
  - repeat constructor.
  - intros [|c v]; reflexivity.
  - split; [exact E|]. now rewrite R.
Defined.

Lemma name_miss_other_rows_witness :
  miss_on up Sample.request (lit "Naruto!") Sample.cached Sample.naruto
  /\ In (Media.id Sample.naruto) (map Animes.id (animes (db Sample.cached)))
  /\ List.length
       (animes (db (snd (name_on up Sample.request Sample.cached))))
     = 1%nat.
Proof.
  assert (M : miss_on up Sample.request (lit "Naruto!") Sample.cached
                Sample.naruto) by by_running.
  assert (I : In (Media.id Sample.naruto)
                (map Animes.id (animes (db Sample.cached)))) by (now left).
  split; [exact M|]. split; [exact I|].
  apply (proj1 (proj2 (name_miss_other_rows Sample.isL Sample.isN
                         Sample.sanitizeHtml Sample.contains up
                         Sample.request (lit "Naruto!") Sample.cached
                         Sample.naruto M (fun op d => eq_refl))) I).
Defined.
